(** * Blazorise.Jobs: the feed builder [scripts/build-jobs.js]

    A shallow embedding of the parsing, validation and assembly pipeline of
    [scripts/build-jobs.js], and the properties of it that the specification
    states.

    Conventions of the embedding.
    - A JavaScript string is the sequence of its code units; the model keeps
      the code units below 256 (the ISO-8859-1 range), one [ascii] each.
      Within that range the white space of [String.prototype.trim] and of the
      regular-expression class [\s] is TAB, LF, VT, FF, CR, SP and NBSP, and
      [toLowerCase] moves [A-Z] and the accented capitals U+00C0..U+00DE
      (except the multiplication sign U+00D7) by 32.
    - A value that may be [undefined] or [null] is an [option].
    - The [errors] array that the validators push to is threaded through a
      small state monad.
    - Functions of the platform whose code is not part of the repository
      ([new URL], [new Date(string)], the clock, [localeCompare],
      [JSON.stringify], the Ajv schema check) are variables of a section. *)

From Stdlib Require Import ZArith Ascii String List Bool Lia Permutation Sorted.
From Stdlib Require Import DecimalString.
From stdpp Require Import base gmap strings list.

Local Open Scope Z_scope.

(** ** Characters and strings of the platform *)

Module Js.

Abbreviation chars := (list ascii).

Definition explode : string -> chars := list_ascii_of_string.
Definition implode : chars -> string := string_of_list_ascii.

Definition code (c : ascii) : N := N_of_ascii c.

(** [\s], and the characters [trim] strips. *)
Definition is_space (c : ascii) : bool :=
  match code c with
  | 9%N | 10%N | 11%N | 12%N | 13%N | 32%N | 160%N => true
  | _ => false
  end.

(** The characters [.] does not match (no [s] flag). *)
Definition is_line_terminator (c : ascii) : bool :=
  match code c with
  | 10%N | 13%N => true
  | _ => false
  end.

(** [\d] *)
Definition is_digit (c : ascii) : bool :=
  (48 <=? code c)%N && (code c <=? 57)%N.

(** [[a-z0-9]] *)
Definition is_lower_alnum (c : ascii) : bool :=
  is_digit c || ((97 <=? code c)%N && (code c <=? 122)%N).

Definition lower_char (c : ascii) : ascii :=
  let n := code c in
  if ((65 <=? n)%N && (n <=? 90)%N)
     || ((192 <=? n)%N && (n <=? 222)%N && negb (n =? 215)%N)
  then ascii_of_N (n + 32)
  else c.

Fixpoint take_while {A} (p : A -> bool) (l : list A) : list A :=
  match l with
  | [] => []
  | x :: l' => if p x then x :: take_while p l' else []
  end.

Fixpoint drop_while {A} (p : A -> bool) (l : list A) : list A :=
  match l with
  | [] => []
  | x :: l' => if p x then drop_while p l' else l
  end.

Definition trim_chars (l : chars) : chars :=
  rev (drop_while is_space (rev (drop_while is_space l))).

(** [s.trim()] *)
Definition trim (s : string) : string := implode (trim_chars (explode s)).

(** [s.toLowerCase()] *)
Definition toLowerCase (s : string) : string :=
  implode (map lower_char (explode s)).

(** [s.replace(/C+/g, " ")] for a character class [C]: every maximal run of
    characters of the class becomes one space. [in_run] tells that the
    previous character was of the class. *)
Fixpoint replace_runs_go (p : ascii -> bool) (in_run : bool) (l : chars) : chars :=
  match l with
  | [] => []
  | c :: l' =>
      if p c
      then (if in_run then replace_runs_go p true l'
            else " "%char :: replace_runs_go p true l')
      else c :: replace_runs_go p false l'
  end.

Definition replace_runs (p : ascii -> bool) (s : string) : string :=
  implode (replace_runs_go p false (explode s)).

(** [s.split(c)] for a one-character separator: never the empty list. *)
Fixpoint split_chars (sep : ascii) (l : chars) : list chars :=
  match l with
  | [] => [[]]
  | c :: l' =>
      if Ascii.eqb c sep then [] :: split_chars sep l'
      else match split_chars sep l' with
           | [] => [[c]]
           | w :: ws => (c :: w) :: ws
           end
  end.

Definition split (sep : ascii) (s : string) : list string :=
  map implode (split_chars sep (explode s)).

(** A piece that was cut at an LF loses the CR that stood before the LF. *)
Definition strip_cr (l : chars) : chars :=
  match rev l with
  | c :: r => if Ascii.eqb c "013"%char then rev r else l
  | [] => l
  end.

(** [s.split(/\r?\n/)]: cut at every LF, and at CR LF as one separator. The
    last piece is not followed by a separator and keeps a final CR. *)
Fixpoint strip_cr_but_last (ls : list chars) : list chars :=
  match ls with
  | [] => []
  | [l] => [l]
  | l :: ls' => strip_cr l :: strip_cr_but_last ls'
  end.

Definition split_lines (s : string) : list string :=
  map implode (strip_cr_but_last (split_chars "010"%char (explode s))).

(** [ls.join(sep)] *)
Definition join (sep : string) (ls : list string) : string :=
  String.concat sep ls.

(** [${n}] for a non-negative integer. *)
Definition of_N (n : N) : string := NilZero.string_of_uint (N.to_uint n).

(** [Number(s)] for a string of decimal digits. *)
Definition digits_value (l : chars) : Z :=
  fold_left (fun acc c => 10 * acc + (Z.of_N (code c) - 48)) l 0.

(** [a < b] on two strings: the order of the code units. *)
Definition lt (a b : string) : bool := String.ltb a b.

Definition LF : string := String "010"%char EmptyString.

End Js.

(** ** The heading tokenizer *)

Definition EXPECTED_HEADINGS : gmap string string :=
  list_to_map
    [ ("company name", "company");
      ("role title", "title");
      ("location", "location");
      ("remote", "remote");
      ("employment type", "employmentType");
      ("seniority", "seniority");
      ("tags keywords", "tags");
      ("apply url", "applyUrl");
      ("description", "description");
      ("salary range", "salaryRange");
      ("contact email", "contactEmail");
      ("expiry date", "expiryDate");
      ("confirmation", "confirmation") ].

(** [text.toLowerCase().replace(/[^a-z0-9]+/g, " ").trim()] *)
Definition normalizeHeading (text : string) : string :=
  Js.trim (Js.replace_runs (fun c => negb (Js.is_lower_alnum c)) (Js.toLowerCase text)).

(** The value a section is stored with. *)
Definition normalizeValue (value : string) : string :=
  let trimmed := Js.trim value in
  if String.eqb trimmed "" then ""
  else
    let normalized := Js.toLowerCase (Js.replace_runs Js.is_space trimmed) in
    if String.eqb normalized "_no response_" || String.eqb normalized "no response"
    then ""
    else trimmed.

(** [/^#{2,6}\s+(.+?)\s*$/.exec(t)] for a trimmed [t], giving the captured
    group. The hashes are the whole run of [#] at the start (a seventh hash
    cannot be matched by [\s+]); [\s+] is the run of white space after them;
    as [t] does not end in white space the lazy group has to reach the end of
    [t], and [.] refuses the line terminators. *)
Definition heading_regex (t : Js.chars) : option string :=
  let is_hash c := Ascii.eqb c "#"%char in
  let hashes := Js.take_while is_hash t in
  let after := Js.drop_while is_hash t in
  let gap := Js.take_while Js.is_space after in
  let text := Js.drop_while Js.is_space after in
  if (2 <=? length hashes)%nat && (length hashes <=? 6)%nat
     && negb (Nat.eqb (length gap) 0)
     && negb (Nat.eqb (length text) 0)
     && forallb (fun c => negb (Js.is_line_terminator c)) text
  then Some (Js.implode text)
  else None.

(** The field key a line opens, if the line is a recognised heading:
    the [headingMatch] and [key] of the loop in [parseIssueForm]. *)
Definition heading_key (line : string) : option string :=
  match heading_regex (Js.trim_chars (Js.explode line)) with
  | Some text => EXPECTED_HEADINGS !! normalizeHeading text
  | None => None
  end.

(** The variables of [parseIssueForm]: the object [fields], [currentKey]
    and [buffer]. *)
Record Tokenizer := mkTokenizer {
  fields : gmap string string;
  currentKey : option string;
  buffer : list string
}.

(** The closure [commit]. *)
Definition commit (st : Tokenizer) : Tokenizer :=
  match currentKey st with
  | None => st
  | Some k =>
      let raw := Js.trim (Js.join Js.LF (buffer st)) in
      match fields st !! k with
      | Some _ => st
      | None => mkTokenizer (<[k := normalizeValue raw]> (fields st)) (currentKey st) (buffer st)
      end
  end.

(** One turn of the loop over the lines. *)
Definition tokenize_line (st : Tokenizer) (line : string) : Tokenizer :=
  match heading_key line with
  | Some key =>
      let st' := commit st in
      mkTokenizer (fields st') (Some key) []
  | None =>
      match currentKey st with
      | Some _ => mkTokenizer (fields st) (currentKey st) (buffer st ++ [line])
      | None => st
      end
  end.

Definition tokenize (lines : list string) (st : Tokenizer) : Tokenizer :=
  fold_left tokenize_line lines st.

Definition parseIssueForm (body : string) : gmap string string :=
  if String.eqb body "" then ∅
  else fields (commit (tokenize (Js.split_lines body) (mkTokenizer ∅ None []))).


(** ** The error accumulator

    Every validator receives the array [errors] and may push to it. A
    computation of type [Errs A] takes the array as it is and returns its
    result with the array as it leaves it. *)

Definition Errs (A : Type) : Type := list string -> A * list string.

Definition ret {A} (a : A) : Errs A := fun es => (a, es).

Definition bind {A B} (m : Errs A) (k : A -> Errs B) : Errs B :=
  fun es => let '(a, es') := m es in k a es'.

(** [errors.push(msg)] *)
Definition push (msg : string) : Errs unit := fun es => (tt, es ++ [msg]).

Notation "x <- m ;; k" := (bind m (fun x => k))
  (at level 100, m at next level, right associativity).
Notation "m ;;; k" := (bind m (fun _ => k))
  (at level 100, right associativity).

(** What a validator reports when it starts from an empty array. *)
Definition errors_of {A} (m : Errs A) : list string := snd (m []).
Definition value_of {A} (m : Errs A) : A := fst (m []).

(** ** The field validators *)

(** [!value] for a value that is a string or [undefined]. *)
Definition missing (value : option string) : bool :=
  match value with
  | Some v => String.eqb v ""
  | None => true
  end.

Definition requireValue (value : option string) (label : string) : Errs string :=
  match value with
  | Some v =>
      if String.eqb v "" then push (label +:+ " is required") ;;; ret ""
      else ret v
  | None => push (label +:+ " is required") ;;; ret ""
  end.

(** [value.split(",").map((item) => item.trim()).filter(Boolean)] *)
Definition rawItems (value : string) : list string :=
  List.filter (fun item => negb (String.eqb item "")) (map Js.trim (Js.split ","%char value)).

(** One turn of the loop of [parseTags] over [rawItems]: the set [seen]
    and the array [tags]. *)
Definition tags_step (st : gset string * list string) (item : string)
  : gset string * list string :=
  let key := Js.toLowerCase item in
  if decide (key ∈ st.1) then st
  else ({[ key ]} ∪ st.1, st.2 ++ [item]).

Definition dedupe_tags (items : list string) : list string :=
  (fold_left tags_step items (∅, [])).2.

Definition parseTags (value : option string) : Errs (list string) :=
  if missing value then push "Tags/keywords is required" ;;; ret []
  else
    let tags := dedupe_tags (rawItems (default "" value)) in
    (if Nat.eqb (length tags) 0
     then push "Tags/keywords must include at least one value"
     else ret tt) ;;;
    ret tags.

Definition quote : string := String "034"%char EmptyString.

Definition parseRemote (value : option string) : Errs (option bool) :=
  if missing value then push "Remote is required" ;;; ret None
  else
    let v := default "" value in
    let normalized := Js.toLowerCase (Js.trim v) in
    if bool_decide (normalized ∈ ["yes"; "y"; "true"]) then ret (Some true)
    else if bool_decide (normalized ∈ ["no"; "n"; "false"]) then ret (Some false)
    else push ("Remote must be Yes or No (got " +:+ quote +:+ v +:+ quote +:+ ")") ;;;
         ret None.

(** [/^\d{4}-\d{2}-\d{2}$/.test(value)] *)
Definition date_regex (value : string) : bool :=
  match Js.explode value with
  | [y1; y2; y3; y4; d1; m1; m2; d2; a1; a2] =>
      forallb Js.is_digit [y1; y2; y3; y4; m1; m2; a1; a2]
      && Ascii.eqb d1 "-"%char && Ascii.eqb d2 "-"%char
  | _ => false
  end.

(** *** The calendar of [Date]

    A time value is kept as its number of days since 1970-01-01, the time
    within the day being zero for every date built here. *)
Module Calendar.

(** The day number of the first day of month [m] (1 to 12) of year [y] in
    the proleptic Gregorian calendar, shifted by [d - 1] days. *)
Definition days_from_civil (y m d : Z) : Z :=
  let y := if m <=? 2 then y - 1 else y in
  let era := y / 400 in
  let yoe := y - era * 400 in
  let doy := (153 * (if 2 <? m then m - 3 else m + 9) + 2) / 5 + d - 1 in
  let doe := yoe * 365 + yoe / 4 - yoe / 100 + doy in
  era * 146097 + doe - 719468.

(** Year, month (1 to 12) and day of the month of a day number. *)
Definition civil_from_days (z : Z) : Z * Z * Z :=
  let z := z + 719468 in
  let era := z / 146097 in
  let doe := z - era * 146097 in
  let yoe := (doe - doe / 1460 + doe / 36524 - doe / 146096) / 365 in
  let doy := doe - (365 * yoe + yoe / 4 - yoe / 100) in
  let mp := (5 * doy + 2) / 153 in
  let d := doy - (153 * mp + 2) / 5 + 1 in
  let m := if mp <? 10 then mp + 3 else mp - 9 in
  ((if m <=? 2 then yoe + era * 400 + 1 else yoe + era * 400), m, d).

(** [Date.UTC(year, month, day)] for integers: a year from 0 to 99 means
    1900 + year; the month (from 0) carries into the year and the day into
    the months; a time beyond 100,000,000 days from the epoch is [NaN],
    here [None]. *)
Definition UTC (year month day : Z) : option Z :=
  let yr := if (0 <=? year) && (year <=? 99) then 1900 + year else year in
  let t := days_from_civil (yr + month / 12) (month mod 12 + 1) 1 + day - 1 in
  if Z.abs t <=? 100000000 then Some t else None.

Definition getUTCFullYear (t : Z) : Z := (civil_from_days t).1.1.
(** Months count from 0. *)
Definition getUTCMonth (t : Z) : Z := (civil_from_days t).1.2 - 1.
Definition getUTCDate (t : Z) : Z := (civil_from_days t).2.

End Calendar.

(** The three numbers of [value.split("-").map(Number)] for a value that
    passed [date_regex]. *)
Definition date_parts (value : string) : Z * Z * Z :=
  match map (fun part => Js.digits_value (Js.explode part)) (Js.split "-"%char value) with
  | [year; month; day] => (year, month, day)
  | _ => (0, 0, 0)
  end.

Definition parseExpiryDate (value : option string) : Errs (option string) :=
  if missing value then push "Expiry date is required" ;;; ret None
  else
    let v := default "" value in
    if negb (date_regex v)
    then push "Expiry date must be in YYYY-MM-DD format" ;;; ret None
    else
      let '(year, month, day) := date_parts v in
      let ok :=
        match Calendar.UTC year (month - 1) day with
        | None => false
        | Some t =>
            (Calendar.getUTCFullYear t =? year)
            && (Calendar.getUTCMonth t =? month - 1)
            && (Calendar.getUTCDate t =? day)
        end in
      if negb ok
      then push "Expiry date must be a valid calendar date" ;;; ret None
      else ret (Some v).

(** [/^\s*-\s*\[[xX]\]/.test(line)] *)
Definition checked_regex (line : string) : bool :=
  match Js.drop_while Js.is_space (Js.explode line) with
  | dash :: l =>
      Ascii.eqb dash "-"%char &&
      match Js.drop_while Js.is_space l with
      | open :: x :: close :: _ =>
          Ascii.eqb open "["%char
          && (Ascii.eqb x "x"%char || Ascii.eqb x "X"%char)
          && Ascii.eqb close "]"%char
      | _ => false
      end
  | [] => false
  end.

Definition parseConfirmation (value : option string) : Errs bool :=
  if missing value then push "Confirmation checkbox is required" ;;; ret false
  else
    let checked := existsb checked_regex (Js.split_lines (default "" value)) in
    (if negb checked then push "Confirmation checkbox must be checked" else ret tt) ;;;
    ret checked.

(** ** Submissions and records *)

(** What the tracker delivers for one issue; [body] may be [null]. *)
Record Issue := mkIssue {
  number : N;
  issue_title : string;
  body : option string;
  created_at : string;
  updated_at : string
}.

(** One entry of the feed. *)
Record Job := mkJob {
  id : N;
  createdAt : string;
  updatedAt : string;
  title : string;
  company : string;
  location : string;
  remote : bool;
  employmentType : string;
  seniority : string;
  tags : list string;
  applyUrl : string;
  description : string;
  salaryRange : option string;
  expiryDate : string
}.

(** One entry of [invalidIssues]. *)
Record Invalid := mkInvalid {
  inv_number : N;
  inv_title : string;
  inv_errors : list string
}.

(** The constants the loop of [buildJobs] binds for one issue, as the
    validators return them ([None] is [null]). *)
Record Validated := mkValidated {
  v_company : string;
  v_title : string;
  v_location : string;
  v_employmentType : string;
  v_seniority : string;
  v_description : string;
  v_tags : list string;
  v_remote : option bool;
  v_applyUrl : option string;
  v_expiryDate : option string;
  v_createdAt : option string;
  v_updatedAt : option string
}.

(** The three results of [buildJobs]. *)
Record Built := mkBuilt {
  jobs : list Job;
  invalidIssues : list Invalid;
  expiredCount : nat
}.

(** How a run of [main] ends: the promise resolves, or an error is thrown
    and the process exits with status 1 after printing its message. *)
Inductive Outcome :=
| Resolved
| Thrown (message : string).

(** [Array.prototype.sort(comparefn)]: a stable sort. An element is placed
    before the first element of the sorted rest that [comparefn] does not put
    before it, so that equal elements keep their order. *)
Section Sort.
Context {A : Type} (comparefn : A -> A -> Z).

Fixpoint sort_insert (x : A) (l : list A) : list A :=
  match l with
  | [] => [x]
  | y :: l' => if comparefn x y <=? 0 then x :: l else y :: sort_insert x l'
  end.

Definition sort (l : list A) : list A := fold_right sort_insert [] l.
End Sort.

Section Platform.

(** [new URL(value).protocol], or [None] when the constructor throws. *)
Variable url_protocol : string -> option string.
(** [new Date(value).toISOString()], or [None] when the time is [NaN]. *)
Variable parse_timestamp : string -> option string.
(** [new Date().toISOString().slice(0, 10)] *)
Variable todayUtc : string.
(** [a.localeCompare(b)] *)
Variable localeCompare : string -> string -> Z.
(** [JSON.stringify(jobs, null, 2)] *)
Variable stringify : list Job -> string.
(** The [instancePath] and [message] of every error Ajv finds in the data
    against the schema at [schemaPath]; [None] when the data is valid. *)
Variable schema_errors : list Job -> option (list (string * string)).

Definition parseApplyUrl (value : option string) : Errs (option string) :=
  if missing value then push "Apply URL is required" ;;; ret None
  else
    let v := default "" value in
    match url_protocol v with
    | Some protocol =>
        if negb (String.eqb protocol "http:") && negb (String.eqb protocol "https:")
        then push "Apply URL must start with http:// or https://" ;;; ret None
        else ret (Some v)
    | None => push "Apply URL must be a valid URL" ;;; ret None
    end.

Definition toIsoDate (value : string) (label : string) : Errs (option string) :=
  match parse_timestamp value with
  | None => push ("Issue " +:+ label +:+ " is not a valid timestamp") ;;; ret None
  | Some iso => ret (Some iso)
  end.

Definition isExpired (expiryDate : string) : bool := Js.lt expiryDate todayUtc.

(** The validators of the loop of [buildJobs], in the order of the code. *)
Definition validate (issue : Issue) (fields : gmap string string) : Errs Validated :=
  company <- requireValue (fields !! "company") "Company name" ;;
  title <- requireValue (fields !! "title") "Role title" ;;
  location <- requireValue (fields !! "location") "Location" ;;
  employmentType <- requireValue (fields !! "employmentType") "Employment type" ;;
  seniority <- requireValue (fields !! "seniority") "Seniority" ;;
  description <- requireValue (fields !! "description") "Description" ;;
  tags <- parseTags (fields !! "tags") ;;
  remote <- parseRemote (fields !! "remote") ;;
  applyUrl <- parseApplyUrl (fields !! "applyUrl") ;;
  expiryDate <- parseExpiryDate (fields !! "expiryDate") ;;
  parseConfirmation (fields !! "confirmation") ;;;
  createdAt <- toIsoDate (created_at issue) "createdAt" ;;
  updatedAt <- toIsoDate (updated_at issue) "updatedAt" ;;
  ret (mkValidated company title location employmentType seniority description
         tags remote applyUrl expiryDate createdAt updatedAt).

(** [fields.salaryRange ? fields.salaryRange : null] *)
Definition salary_of (fields : gmap string string) : option string :=
  if missing (fields !! "salaryRange") then None else fields !! "salaryRange".

(** The object pushed to [jobs]. With an empty [errors] none of the five
    nullable constants is [null] (lemma [validate_defined]); the record has
    them at their types. *)
Definition job_of (issue : Issue) (fields : gmap string string) (v : Validated)
  : option Job :=
  match v_remote v, v_applyUrl v, v_expiryDate v, v_createdAt v, v_updatedAt v with
  | Some remote, Some applyUrl, Some expiryDate, Some createdAt, Some updatedAt =>
      Some (mkJob (number issue) createdAt updatedAt (v_title v) (v_company v)
              (v_location v) remote (v_employmentType v) (v_seniority v)
              (v_tags v) applyUrl (v_description v) (salary_of fields) expiryDate)
  | _, _, _, _, _ => None
  end.

(** The body of the loop of [buildJobs]. *)
Definition build_issue (acc : Built) (issue : Issue) : Built :=
  let fields := parseIssueForm (default "" (body issue)) in
  let '(v, errors) := validate issue fields [] in
  if (0 <? length errors)%nat
  then mkBuilt (jobs acc)
               (invalidIssues acc ++ [mkInvalid (number issue) (issue_title issue) errors])
               (expiredCount acc)
  else
    match job_of issue fields v with
    | Some job =>
        if isExpired (expiryDate job)
        then mkBuilt (jobs acc) (invalidIssues acc) (expiredCount acc + 1)
        else mkBuilt (jobs acc ++ [job]) (invalidIssues acc) (expiredCount acc)
    | None => acc
    end.

Definition buildJobs (issues : list Issue) : Built :=
  fold_left build_issue issues (mkBuilt [] [] 0).

(** [`#${item.number} ${item.title}: ${item.errors.join("; ")}`] *)
Definition invalid_line (item : Invalid) : string :=
  "#" +:+ Js.of_N (inv_number item) +:+ " " +:+ inv_title item +:+ ": "
  +:+ Js.join "; " (inv_errors item).

Definition invalid_report (items : list Invalid) : string :=
  "Invalid approved job issues:" +:+ Js.LF +:+ Js.join Js.LF (map invalid_line items).

(** The error [validateSchema] throws, if it throws; reading and compiling
    the schema are taken to succeed. *)
Definition validateSchema (data : list Job) : option string :=
  match schema_errors data with
  | None => None
  | Some errs =>
      let details :=
        Js.join "; "
          (map (fun e : string * string =>
                  (if String.eqb e.1 "" then "/" else e.1) +:+ " " +:+ e.2) errs) in
      Some ("Schema validation failed: " +:+ details)
  end.

(** [jobs.sort((a, b) => b.updatedAt.localeCompare(a.updatedAt))] *)
Definition sort_jobs (js : list Job) : list Job :=
  sort (fun a b => localeCompare (updatedAt b) (updatedAt a)) js.

(** [main] from the point where the issues have been fetched. Parsing the
    arguments, reading the environment and fetching either throw (the
    [inl] case, with the message) or deliver the issues; neither touches a
    file. The files are a map from path to content; [outputPath] is the
    resolved path of the feed. *)
Definition main (outputPath : string) (fetched : string + list Issue)
    (files : gmap string string) : gmap string string * Outcome :=
  match fetched with
  | inl message => (files, Thrown message)
  | inr issues =>
      let built := buildJobs issues in
      if (0 <? length (invalidIssues built))%nat
      then (files, Thrown (invalid_report (invalidIssues built)))
      else
        let sorted := sort_jobs (jobs built) in
        let files' := <[outputPath := stringify sorted +:+ Js.LF]> files in
        match validateSchema sorted with
        | Some message => (files', Thrown message)
        | None => (files', Resolved)
        end
  end.

End Platform.

(** ** Predicates of the statements *)

(** A list of characters that neither starts nor ends with white space. *)
Definition trimmed (l : Js.chars) : Prop :=
  Js.drop_while Js.is_space l = l /\ Js.drop_while Js.is_space (rev l) = rev l.

(** No white space at either end of a string. *)
Definition no_edge_space (s : string) : Prop :=
  forall c rest,
    Js.explode s = c :: rest \/ Js.explode s = rest ++ [c] -> Js.is_space c = false.

(** The raw text of a section is blank: nothing but white space. *)
Definition blank (raw : string) : Prop :=
  forallb Js.is_space (Js.explode raw) = true.

(** The raw text of a section is a placeholder for no answer, once trimmed,
    its white space collapsed, and put in lower case. *)
Definition placeholder (raw : string) : Prop :=
  let normalized := Js.toLowerCase (Js.replace_runs Js.is_space (Js.trim raw)) in
  normalized = "_no response_" \/ normalized = "no response".

(** [part] occurs inside [s]. *)
Definition occurs_in (part s : string) : Prop :=
  exists before after, s = before +:+ part +:+ after.

(** The state [parseIssueForm] starts its loop in. *)
Definition tokenizer_start : Tokenizer := mkTokenizer ∅ None [].

(** [m] occurs inside [l], on the characters. *)
Definition occurs_chars (m l : Js.chars) : Prop :=
  exists before after, l = before ++ m ++ after.

(** The tags the loop of [parseTags] still adds when [seen] holds the keys
    met so far: the loop, as a function of the items left. *)
Fixpoint dedupe_from (seen : gset string) (items : list string) : list string :=
  match items with
  | [] => []
  | item :: rest =>
      if decide (Js.toLowerCase item ∈ seen) then dedupe_from seen rest
      else item :: dedupe_from ({[ Js.toLowerCase item ]} ∪ seen) rest
  end.

(** The tag list as the specification words it: an item is kept when no
    item before it in the input has the same lower-case form, and the items
    kept stay in the order of the input. [earlier] holds the items passed. *)
Fixpoint spec_first_occurrences_from (earlier items : list string) : list string :=
  match items with
  | [] => []
  | item :: rest =>
      if existsb (fun e => String.eqb (Js.toLowerCase e) (Js.toLowerCase item)) earlier
      then spec_first_occurrences_from (earlier ++ [item]) rest
      else item :: spec_first_occurrences_from (earlier ++ [item]) rest
  end.

Definition spec_first_occurrences (items : list string) : list string :=
  spec_first_occurrences_from [] items.

(** [l.startsWith(p)], on the characters. *)
Fixpoint starts_with (p l : Js.chars) : bool :=
  match p, l with
  | [], _ => true
  | c :: p', d :: l' => Ascii.eqb c d && starts_with p' l'
  | _ :: _, [] => false
  end.

(** The checked line in the words of the specification: the trimmed content
    of the line starts with [- [x]] or [- [X]]. *)
Definition spec_checked_line (line : string) : bool :=
  starts_with (Js.explode "- [x]") (Js.trim_chars (Js.explode line))
  || starts_with (Js.explode "- [X]") (Js.trim_chars (Js.explode line)).

(** The checked line of the code: white space if any, a dash, white space
    if any, then [[x]] or [[X]]. *)
Definition checked_line (line : string) : Prop :=
  exists ws1 ws2 x rest,
    Js.explode line = ws1 ++ "-"%char :: ws2 ++ "["%char :: x :: "]"%char :: rest
    /\ forallb Js.is_space ws1 = true
    /\ forallb Js.is_space ws2 = true
    /\ (x = "x"%char \/ x = "X"%char).

(** A validator only appends to the array it is given: its result does not
    depend on the errors reported before, and they all stay. *)
Definition appends {A} (m : Errs A) : Prop :=
  forall es, m es = (value_of m, es ++ errors_of m).

(** The order of the calendar on year, month and day. *)
Definition date_lt (p q : Z * Z * Z) : Prop :=
  p.1.1 < q.1.1
  \/ (p.1.1 = q.1.1 /\ (p.1.2 < q.1.2 \/ (p.1.2 = q.1.2 /\ p.2 < q.2))).

(** ** The batch, issue by issue *)

Section Batch.
Variable url_protocol : string -> option string.
Variable parse_timestamp : string -> option string.

(** The errors of one issue. *)
Definition issue_errors (issue : Issue) : list string :=
  errors_of (validate url_protocol parse_timestamp issue
               (parseIssueForm (default "" (body issue)))).

Definition fails (issue : Issue) : bool :=
  (0 <? length (issue_errors issue))%nat.

(** The failing submissions of a batch, in the order of the batch. *)
Definition failing (issues : list Issue) : list Invalid :=
  map (fun issue => mkInvalid (number issue) (issue_title issue) (issue_errors issue))
      (List.filter fails issues).

(** The record of one issue, if it has no error. *)
Definition issue_record (issue : Issue) : option Job :=
  if fails issue then None
  else job_of issue (parseIssueForm (default "" (body issue)))
         (value_of (validate url_protocol parse_timestamp issue
                      (parseIssueForm (default "" (body issue))))).

(** The valid records of a batch, in the order of the batch. *)
Definition valid_records (issues : list Issue) : list Job :=
  omap issue_record issues.
End Batch.

(** ** A platform for the examples

    Stand-ins for the functions of the platform, to evaluate the pipeline
    on concrete submissions. *)
Module Sample.

(** The scheme of a URL: the letters before the first colon, in lower
    case, with the colon; a text without a colon is no URL. *)
Definition url_protocol (value : string) : option string :=
  let is_colon c := Ascii.eqb c ":"%char in
  let l := Js.explode value in
  let scheme := Js.take_while (fun c => negb (is_colon c)) l in
  match scheme, Js.drop_while (fun c => negb (is_colon c)) l with
  | _ :: _, _ :: _ => Some (Js.toLowerCase (Js.implode scheme) +:+ ":")
  | _, _ => None
  end.

(** Timestamps of the form YYYY-MM-DDTHH:MM:SSZ, as the tracker sends
    them, get their milliseconds; any other text is no timestamp. *)
Definition parse_timestamp (value : string) : option string :=
  let l := Js.explode value in
  if Nat.eqb (length l) 20 && String.eqb (Js.implode (drop 19 l)) "Z"
  then Some (Js.implode (take 19 l) +:+ ".000Z")
  else None.

Definition todayUtc : string := "2024-06-15".

(** The order of the code units. *)
Definition localeCompare (a b : string) : Z :=
  match String.compare a b with
  | Lt => -1
  | Eq => 0
  | Gt => 1
  end.

Definition stringify (js : list Job) : string :=
  "[" +:+ Js.join "," (map (fun j => Js.of_N (id j)) js) +:+ "]".

(** A schema whose only demand is that [applyUrl] holds no white space. *)
Definition schema_errors (js : list Job) : option (list (string * string)) :=
  if existsb (fun j => existsb Js.is_space (Js.explode (applyUrl j))) js
  then Some [("/0/applyUrl", "must match format uri")]
  else None.

Definition body_of (apply_url expiry : string) : string :=
  Js.join Js.LF
    [ "### Company name"; ""; "Acme"; "";
      "### Role title"; ""; "Blazor developer"; "";
      "### Location"; ""; "Berlin"; "";
      "### Remote"; ""; "Yes"; "";
      "### Employment type"; ""; "Full-time"; "";
      "### Seniority"; ""; "Senior"; "";
      "### Tags / keywords"; ""; "Blazor, blazor, C#"; "";
      "### Apply URL"; ""; apply_url; "";
      "### Description"; ""; "Build things."; "";
      "### Salary range"; ""; "_No response_"; "";
      "### Contact email"; ""; "jobs@example.com"; "";
      "### Expiry date"; ""; expiry; "";
      "### Confirmation"; ""; "- [x] I confirm this is a real job posting" ].

Definition issue (n : N) (apply_url expiry updated : string) : Issue :=
  mkIssue n "Blazor developer at Acme" (Some (body_of apply_url expiry))
    "2024-01-01T00:00:00Z" updated.

(** A record with a given identifier and time of update. *)
Definition job_at (n : N) (updated : string) : Job :=
  mkJob n "2024-01-01T00:00:00.000Z" updated "Blazor developer" "Acme" "Berlin" true
    "Full-time" "Senior" ["Blazor"] "https://example.com/apply" "Build things."
    None "2099-12-31".

End Sample.

(** ** The command line and the set-up of a run *)

(** The object [args] of [parseArgs]; a property that was never assigned,
    or was assigned [undefined], is [None]. *)
Record Args := mkArgs {
  arg_repo : option string;
  arg_output : option string;
  arg_schema : option string
}.

(** How [parseArgs] ends: it returns [args]; or it prints the usage and
    exits with status 0; or it throws. *)
Inductive Parsed :=
| Parsed_args (args : Args)
| Parsed_help
| Parsed_error (message : string).

(** The loop of [parseArgs] from index [i], on the arguments from [i] on.
    A flag takes [argv[i + 1]] as its value, [undefined] when there is
    none, and the loop goes on after it. *)
Fixpoint parseArgs_from (argv : list string) (args : Args) : Parsed :=
  match argv with
  | [] => Parsed_args args
  | arg :: rest =>
      if String.eqb arg "--repo" then
        match rest with
        | value :: rest' =>
            parseArgs_from rest' (mkArgs (Some value) (arg_output args) (arg_schema args))
        | [] => Parsed_args (mkArgs None (arg_output args) (arg_schema args))
        end
      else if String.eqb arg "--output" then
        match rest with
        | value :: rest' =>
            parseArgs_from rest' (mkArgs (arg_repo args) (Some value) (arg_schema args))
        | [] => Parsed_args (mkArgs (arg_repo args) None (arg_schema args))
        end
      else if String.eqb arg "--schema" then
        match rest with
        | value :: rest' =>
            parseArgs_from rest' (mkArgs (arg_repo args) (arg_output args) (Some value))
        | [] => Parsed_args (mkArgs (arg_repo args) (arg_output args) None)
        end
      else if String.eqb arg "--help" then Parsed_help
      else Parsed_error ("Unknown argument: " +:+ arg)
  end.

Definition parseArgs (argv : list string) : Parsed :=
  parseArgs_from argv (mkArgs None None None).

(** [a || b] on values that are strings or [undefined]. *)
Definition or_else (a b : option string) : option string :=
  if missing a then b else a.

(** What [main] has when the fetch starts. *)
Record Setup := mkSetup {
  owner : string;
  repoName : string;
  output_choice : string;
  schema_choice : string
}.

Inductive SetupResult :=
| Setup_ok (s : Setup)
| Setup_help
| Setup_error (message : string).

(** [main] up to the fetch: the arguments, the environment variables
    [GITHUB_REPOSITORY] and [GITHUB_TOKEN], and the owner and name cut out of
    the repository. [default_output] and [default_schema] are
    [DEFAULT_OUTPUT] and [DEFAULT_SCHEMA], which depend on the working
    directory; the choices are what [path.resolve] is then given. *)
Definition setup (default_output default_schema : string)
    (argv : list string) (env_repository env_token : option string) : SetupResult :=
  match parseArgs argv with
  | Parsed_help => Setup_help
  | Parsed_error message => Setup_error message
  | Parsed_args args =>
      let repo := or_else (arg_repo args) env_repository in
      if missing repo
      then Setup_error "Repository is required via --repo or GITHUB_REPOSITORY"
      else if missing env_token
      then Setup_error "GITHUB_TOKEN is required"
      else
        let pieces := Js.split "/"%char (default "" repo) in
        let owner := pieces !! 0%nat in
        let repoName := pieces !! 1%nat in
        if missing owner || missing repoName
        then Setup_error ("Invalid repo value: " +:+ default "" repo)
        else Setup_ok (mkSetup (default "" owner) (default "" repoName)
                         (default "" (or_else (arg_output args) (Some default_output)))
                         (default "" (or_else (arg_schema args) (Some default_schema))))
  end.

(** ** Fetching the issues *)

(** One element of the array a page of the tracker holds: the fields of the
    issue the pipeline reads, and whether it has a [pull_request]. *)
Record Item := mkItem {
  item_issue : Issue;
  pull_request : bool
}.

(** What the loop of [fetchApprovedIssues] reads of a response. *)
Record Response := mkResponse {
  ok : bool;
  status : N;
  text : string;
  data : list Item;
  link : option string
}.

(** [s.includes(p)], on the characters. *)
Fixpoint includes_chars (p l : Js.chars) : bool :=
  starts_with p l
  || match l with
     | [] => false
     | _ :: l' => includes_chars p l'
     end.

Definition includes (p s : string) : bool :=
  includes_chars (Js.explode p) (Js.explode s).

(** [rel="next"] *)
Definition rel_next : string := "rel=" +:+ quote +:+ "next" +:+ quote.

(** The issues of a page that are pushed to [issues]. *)
Definition page_issues (r : Response) : list Issue :=
  map item_issue (List.filter (fun it => negb (pull_request it)) (data r)).

(** [response.headers.get("link") || ""] holds [rel="next"]. *)
Definition has_next (r : Response) : bool :=
  includes rel_next (default "" (or_else (link r) (Some ""))).

Section Fetch.

(** The tracker: the response to the request for a page (the requests of a
    run differ by the page only), or the error with which [fetch] or the
    reading of the response is rejected. *)
Variable respond : N -> string + Response.

(** The loop of [fetchApprovedIssues], from [page] with [issues] collected,
    for at most [fuel] requests: [None] when the loop is still running
    after them. Waiting for the rate limit takes time and changes nothing
    else. *)
Fixpoint fetch_from (fuel : nat) (page : N) (issues : list Issue)
  : option (string + list Issue) :=
  match fuel with
  | O => None
  | S fuel' =>
      match respond page with
      | inl message => Some (inl message)
      | inr r =>
          if negb (ok r)
          then Some (inl ("GitHub API error " +:+ Js.of_N (status r) +:+ ": " +:+ text r))
          else
            let issues' := issues ++ page_issues r in
            if has_next r then fetch_from fuel' (page + 1)%N issues'
            else Some (inr issues')
      end
  end.

Definition fetchApprovedIssues (fuel : nat) : option (string + list Issue) :=
  fetch_from fuel 1%N [].

(** The pages [rs] are served from [page] on, each with a status that is
    ok, and each but the last announcing a next page. *)
Definition serves (page : N) (rs : list Response) : Prop :=
  forall (i : nat) (r : Response),
    rs !! i = Some r ->
    respond (page + N.of_nat i)%N = inr r
    /\ ok r = true
    /\ has_next r = bool_decide (S i < length rs)%nat.


End Fetch.

(** ** What a record of the feed holds *)

(** What a record built without an error holds, field by field. *)
Definition record_of (url_protocol parse_timestamp : string -> option string)
    (issue : Issue) (job : Job) : Prop :=
  let f := parseIssueForm (default "" (body issue)) in
  id job = number issue
  /\ (f !! "company" = Some (company job) /\ company job <> "")
  /\ (f !! "title" = Some (title job) /\ title job <> "")
  /\ (f !! "location" = Some (location job) /\ location job <> "")
  /\ (f !! "employmentType" = Some (employmentType job) /\ employmentType job <> "")
  /\ (f !! "seniority" = Some (seniority job) /\ seniority job <> "")
  /\ (f !! "description" = Some (description job) /\ description job <> "")
  /\ (tags job <> [] /\ NoDup (map Js.toLowerCase (tags job)))
  /\ (exists r, f !! "remote" = Some r
                /\ Js.toLowerCase (Js.trim r)
                   ∈ (if remote job then ["yes"; "y"; "true"] else ["no"; "n"; "false"]))
  /\ (f !! "applyUrl" = Some (applyUrl job)
      /\ (url_protocol (applyUrl job) = Some "http:"
          \/ url_protocol (applyUrl job) = Some "https:"))
  /\ (f !! "expiryDate" = Some (expiryDate job) /\ date_regex (expiryDate job) = true)
  /\ (exists c, f !! "confirmation" = Some c
                /\ existsb checked_regex (Js.split_lines c) = true)
  /\ salaryRange job <> Some ""
  /\ (salaryRange job = None \/ salaryRange job = f !! "salaryRange")
  /\ parse_timestamp (created_at issue) = Some (createdAt job)
  /\ parse_timestamp (updated_at issue) = Some (updatedAt job).


(** ** Predicates on texts *)

(** A text without a line terminator. *)
Definition one_line (s : string) : Prop :=
  Forall (fun c => Js.is_line_terminator c = false) (Js.explode s).

(** CR LF *)
Definition CRLF : string := String "013"%char Js.LF.

(** The form of a normalised heading: words of [a-z0-9] with one space
    between them, and no space at either end. *)
Definition heading_form (s : string) : Prop :=
  Forall (fun c => Js.is_lower_alnum c = true \/ c = " "%char) (Js.explode s)
  /\ no_edge_space s
  /\ (forall a b, Js.explode s <> a ++ " "%char :: " "%char :: b).

(** ** Flags and values *)

(** The arguments that a list of flags with their values stands for. *)
Definition flatten_pairs (pairs : list (string * string)) : list string :=
  concat (map (fun p : string * string => [p.1; p.2]) pairs).

(** The value given last for [flag], or [init] when it is not given. *)
Definition last_value_from (flag : string) (pairs : list (string * string))
    (init : option string) : option string :=
  fold_left (fun acc (p : string * string) => if String.eqb p.1 flag then Some p.2 else acc)
    pairs init.

Definition last_value (flag : string) (pairs : list (string * string)) : option string :=
  last_value_from flag pairs None.

(** The three flags that take a value. *)
Definition value_flag (flag : string) : Prop :=
  flag = "--repo" \/ flag = "--output" \/ flag = "--schema".

(** ** A tracker for the examples *)

Module SampleTracker.

(** A first page with an issue and a pull request, announcing a second
    page. *)
Definition page1 : Response :=
  mkResponse true 200 ""
    [ mkItem (Sample.issue 7 "https://example.com/a" "2024-12-31" "2024-01-02T00:00:00Z") false;
      mkItem (Sample.issue 8 "https://example.com/b" "2024-12-31" "2024-01-03T00:00:00Z") true ]
    (Some ("<https://api.github.com/repositories/1/issues?page=2>; " +:+ rel_next)).

(** A last page. *)
Definition page2 : Response :=
  mkResponse true 200 ""
    [ mkItem (Sample.issue 9 "https://example.com/c" "2024-12-31" "2024-01-04T00:00:00Z") false ]
    None.

Definition forbidden : Response :=
  mkResponse false 403 "rate limit exceeded" [] None.

(** Two pages. *)
Definition two_pages (page : N) : string + Response :=
  if (page =? 1)%N then inr page1
  else if (page =? 2)%N then inr page2
  else inl "no such page".

(** One page, then a refusal. *)
Definition refusing (page : N) : string + Response :=
  if (page =? 1)%N then inr page1 else inr forbidden.

(** A page that always announces a next one. *)
Definition endless (page : N) : string + Response := inr page1.

End SampleTracker.

(** ** A submission whose Remote answer takes two lines *)

Module SampleRemote.

Definition body_of (remote : list string) : string :=
  Js.join Js.LF
    ([ "### Company name"; ""; "Acme"; "";
       "### Role title"; ""; "Blazor developer"; "";
       "### Location"; ""; "Berlin"; "";
       "### Remote"; "" ] ++ remote ++
     [ "";
       "### Employment type"; ""; "Full-time"; "";
       "### Seniority"; ""; "Senior"; "";
       "### Tags / keywords"; ""; "Blazor, blazor, C#"; "";
       "### Apply URL"; ""; "https://example.com/apply"; "";
       "### Description"; ""; "Build things."; "";
       "### Salary range"; ""; "_No response_"; "";
       "### Contact email"; ""; "jobs@example.com"; "";
       "### Expiry date"; ""; "2024-12-31"; "";
       "### Confirmation"; ""; "- [x] I confirm this is a real job posting" ]).

(** A submission in order but for its Remote section, which reads
    "Yes, mostly" on one line and "No on Fridays" on the next. *)
Definition undecided : Issue :=
  mkIssue 11 "Blazor developer at Acme" (Some (body_of ["Yes, mostly"; "No on Fridays"]))
    "2024-01-01T00:00:00Z" "2024-01-02T00:00:00Z".

End SampleRemote.

(** ** The Gregorian calendar, as a reference *)

Definition leap_year (y : Z) : bool :=
  (y mod 4 =? 0) && (negb (y mod 100 =? 0) || (y mod 400 =? 0)).

Definition days_in_month (y m : Z) : Z :=
  if m =? 2 then (if leap_year y then 29 else 28)
  else if (m =? 4) || (m =? 6) || (m =? 9) || (m =? 11) then 30
  else 31.
(** ** Strings: conversions, trimming *)

Section StringFacts.
Import Js.

Lemma implode_explode (s : string) : implode (explode s) = s.
Proof. apply string_of_list_ascii_of_string. Qed.

Lemma explode_implode (l : chars) : explode (implode l) = l.
Proof. apply list_ascii_of_string_of_list_ascii. Qed.

Lemma explode_app (a b : string) : explode (a +:+ b) = explode a ++ explode b.
Proof. induction a as [|c a IH]; simpl; [reflexivity | now rewrite <- IH]. Qed.

Lemma implode_app (a b : chars) : implode (a ++ b) = implode a +:+ implode b.
Proof. induction a as [|c a IH]; simpl; [reflexivity | now rewrite IH]. Qed.

Lemma explode_inj (a b : string) : explode a = explode b -> a = b.
Proof. intros H. rewrite <- (implode_explode a), <- (implode_explode b). now rewrite H. Qed.

Lemma explode_nil (s : string) : explode s = [] -> s = "".
Proof. intros H. apply explode_inj. exact H. Qed.

Lemma eqb_empty (s : string) : String.eqb s "" = true <-> explode s = [].
Proof.
  rewrite String.eqb_eq. split; [intros ->; reflexivity | apply explode_nil].
Qed.

Context {A : Type} (p : A -> bool).

Lemma take_drop_while (l : list A) : take_while p l ++ drop_while p l = l.
Proof. induction l as [|x l IH]; simpl; [reflexivity|]. destruct (p x); simpl; congruence. Qed.

Lemma take_while_all (l : list A) : forallb p (take_while p l) = true.
Proof. induction l as [|x l IH]; simpl; [reflexivity|]. destruct (p x) eqn:E; simpl; [rewrite E|]; auto. Qed.

Lemma drop_while_head (l : list A) x r : drop_while p l = x :: r -> p x = false.
Proof.
  induction l as [|y l IH]; simpl; [discriminate|].
  destruct (p y) eqn:E; [exact IH|]. intros [= -> _]. exact E.
Qed.

Lemma drop_while_all (a l : list A) :
  forallb p a = true -> drop_while p (a ++ l) = drop_while p l.
Proof.
  induction a as [|x a IH]; simpl; [reflexivity|].
  intros [-> H]%andb_prop. auto.
Qed.

Lemma drop_while_nil_iff (l : list A) : drop_while p l = [] <-> forallb p l = true.
Proof.
  induction l as [|x l IH]; simpl; [tauto|].
  destruct (p x); simpl; [exact IH | split; discriminate].
Qed.

Lemma drop_while_app_keep (l m : list A) :
  drop_while p l <> [] -> drop_while p (l ++ m) = drop_while p l ++ m.
Proof.
  induction l as [|x l IH]; simpl; [congruence|].
  destruct (p x); [exact IH | reflexivity].
Qed.

Lemma drop_while_idem (l : list A) : drop_while p (drop_while p l) = drop_while p l.
Proof.
  destruct (drop_while p l) as [|x r] eqn:E; [reflexivity|].
  simpl. now rewrite (drop_while_head _ _ _ E).
Qed.

End StringFacts.


Lemma trim_chars_trimmed (l : Js.chars) : trimmed (Js.trim_chars l).
Proof.
  unfold trimmed, Js.trim_chars. rewrite rev_involutive, drop_while_idem. split; [|reflexivity].
  set (d := Js.drop_while Js.is_space l).
  destruct d as [|x r] eqn:E; [reflexivity|].
  assert (Hx : Js.is_space x = false) by (eapply drop_while_head; exact E).
  simpl rev.
  destruct (Js.drop_while Js.is_space (rev r)) as [|y q] eqn:Er.
  - apply drop_while_nil_iff in Er. rewrite drop_while_all by exact Er.
    simpl. rewrite Hx. simpl. now rewrite Hx.
  - rewrite drop_while_app_keep by congruence. rewrite Er.
    rewrite rev_app_distr. simpl. now rewrite Hx.
Qed.

Lemma trimmed_fix (l : Js.chars) : trimmed l -> Js.trim_chars l = l.
Proof. intros [H1 H2]. unfold Js.trim_chars. now rewrite H1, H2, rev_involutive. Qed.

Lemma trim_chars_idem (l : Js.chars) : Js.trim_chars (Js.trim_chars l) = Js.trim_chars l.
Proof. apply trimmed_fix, trim_chars_trimmed. Qed.

Lemma trim_idem (s : string) : Js.trim (Js.trim s) = Js.trim s.
Proof. unfold Js.trim. now rewrite explode_implode, trim_chars_idem. Qed.

Lemma trim_chars_blank (l : Js.chars) :
  forallb Js.is_space l = true -> Js.trim_chars l = [].
Proof.
  intros H. unfold Js.trim_chars.
  apply (drop_while_nil_iff Js.is_space) in H. now rewrite H.
Qed.


Lemma trimmed_no_edge_space (s : string) : trimmed (Js.explode s) -> no_edge_space s.
Proof.
  intros [H1 H2] c rest [E|E].
  - rewrite E in H1. eapply drop_while_head; exact H1.
  - rewrite E, rev_app_distr in H2. change (rev [c] ++ rev rest) with (c :: rev rest) in H2.
    eapply drop_while_head; exact H2.
Qed.

Lemma normalizeValue_cases (raw : string) :
  normalizeValue raw = "" \/ normalizeValue raw = Js.trim raw.
Proof.
  unfold normalizeValue.
  destruct (String.eqb (Js.trim raw) ""); [now left|].
  destruct (_ || _); [now left | now right].
Qed.

Lemma normalizeValue_trimmed (raw : string) : trimmed (Js.explode (normalizeValue raw)).
Proof.
  destruct (normalizeValue_cases raw) as [-> | ->].
  - split; reflexivity.
  - unfold Js.trim. rewrite explode_implode. apply trim_chars_trimmed.
Qed.

(** ** The tokenizer: what is committed stays, and what a section holds *)

Lemma normalizeValue_trim (raw : string) : normalizeValue (Js.trim raw) = normalizeValue raw.
Proof. unfold normalizeValue. now rewrite trim_idem. Qed.

Lemma normalizeValue_blank (raw : string) : blank raw -> normalizeValue raw = "".
Proof.
  intros H. unfold normalizeValue, Js.trim.
  now rewrite (trim_chars_blank _ H).
Qed.

Lemma normalizeValue_placeholder (raw : string) : placeholder raw -> normalizeValue raw = "".
Proof.
  unfold placeholder, normalizeValue. intros H.
  destruct (String.eqb (Js.trim raw) ""); [reflexivity|].
  destruct H as [-> | ->]; reflexivity.
Qed.

Lemma commit_currentKey (st : Tokenizer) : currentKey (commit st) = currentKey st.
Proof. unfold commit. destruct (currentKey st) eqn:E; [|exact E]. now destruct (fields st !! s). Qed.

Lemma commit_buffer (st : Tokenizer) : buffer (commit st) = buffer st.
Proof. unfold commit. destruct (currentKey st); [|reflexivity]. now destruct (fields st !! s). Qed.

Lemma commit_keeps (st : Tokenizer) (k v : string) :
  fields st !! k = Some v -> fields (commit st) !! k = Some v.
Proof.
  intros H. unfold commit. destruct (currentKey st) as [c|]; [|exact H].
  destruct (fields st !! c) eqn:E; [exact H|]. simpl.
  rewrite lookup_insert_ne; [exact H | congruence].
Qed.

Lemma commit_other (st : Tokenizer) (k : string) :
  currentKey st <> Some k -> fields (commit st) !! k = fields st !! k.
Proof.
  intros H. unfold commit. destruct (currentKey st) as [c|]; [|reflexivity].
  destruct (fields st !! c) eqn:E; [reflexivity|]. simpl.
  apply lookup_insert_ne. congruence.
Qed.

Lemma commit_open (st : Tokenizer) (k : string) :
  currentKey st = Some k -> fields st !! k = None ->
  fields (commit st) !! k = Some (normalizeValue (Js.trim (Js.join Js.LF (buffer st)))).
Proof. intros Hk Hf. unfold commit. rewrite Hk, Hf. simpl. apply lookup_insert_eq. Qed.

Lemma commit_committed (st : Tokenizer) (k : string) :
  currentKey st = Some k -> is_Some (fields st !! k) -> commit st = st.
Proof. intros Hk [v Hv]. unfold commit. now rewrite Hk, Hv. Qed.

Lemma tokenize_line_keeps (st : Tokenizer) (line k v : string) :
  fields st !! k = Some v -> fields (tokenize_line st line) !! k = Some v.
Proof.
  intros H. unfold tokenize_line. destruct (heading_key line).
  - simpl. now apply commit_keeps.
  - now destruct (currentKey st).
Qed.

Lemma tokenize_keeps (lines : list string) (st : Tokenizer) (k v : string) :
  fields st !! k = Some v -> fields (tokenize lines st) !! k = Some v.
Proof.
  revert st. induction lines as [|l lines IH]; intros st H; [exact H|].
  apply IH. now apply tokenize_line_keeps.
Qed.

Lemma tokenize_app (a b : list string) (st : Tokenizer) :
  tokenize (a ++ b) st = tokenize b (tokenize a st).
Proof. apply fold_left_app. Qed.

(** Lines that open no field all go to the buffer of the open field. *)
Lemma tokenize_content (content : list string) (st : Tokenizer) (k : string) :
  Forall (fun l => heading_key l = None) content ->
  currentKey st = Some k ->
  tokenize content st = mkTokenizer (fields st) (Some k) (buffer st ++ content).
Proof.
  revert st. induction content as [|l content IH]; intros st Hc Hk.
  - simpl. rewrite app_nil_r, <- Hk. now destruct st.
  - inversion Hc as [|? ? Hl Hc']; subst.
    change (tokenize (l :: content) st) with (tokenize content (tokenize_line st l)).
    assert (E : tokenize_line st l = mkTokenizer (fields st) (Some k) (buffer st ++ [l])).
    { unfold tokenize_line. now rewrite Hl, Hk. }
    rewrite E, IH; [|exact Hc'|reflexivity]. simpl. now rewrite <- app_assoc.
Qed.

(** Before the first heading of [k], nothing is stored under [k]. *)
Lemma tokenize_before (pre : list string) (st : Tokenizer) (k : string) :
  Forall (fun l => heading_key l <> Some k) pre ->
  fields st !! k = None -> currentKey st <> Some k ->
  fields (tokenize pre st) !! k = None /\ currentKey (tokenize pre st) <> Some k.
Proof.
  revert st. induction pre as [|l pre IH]; intros st Hp Hf Hk; [now split|].
  inversion Hp as [|? ? Hl Hp']; subst. simpl. apply IH; [exact Hp'| |].
  - unfold tokenize_line. destruct (heading_key l) as [key|].
    + simpl. rewrite commit_other by exact Hk. exact Hf.
    + now destruct (currentKey st).
  - unfold tokenize_line. destruct (heading_key l) as [key|] eqn:E.
    + simpl. congruence.
    + destruct (currentKey st) eqn:E'; simpl; congruence.
Qed.

(** The section under the first heading of [k]: its lines up to the next
    recognised heading, or to the end. *)
Lemma tokenize_first (pre content rest : list string) (h k : string) (st : Tokenizer) :
  Forall (fun l => heading_key l <> Some k) pre ->
  heading_key h = Some k ->
  Forall (fun l => heading_key l = None) content ->
  (rest = [] \/ exists r rest', rest = r :: rest' /\ is_Some (heading_key r)) ->
  fields st !! k = None -> currentKey st <> Some k ->
  fields (commit (tokenize (pre ++ h :: content ++ rest) st)) !! k
  = Some (normalizeValue (Js.trim (Js.join Js.LF content))).
Proof.
  intros Hp Hh Hc Hr Hf Hk.
  destruct (tokenize_before pre st k Hp Hf Hk) as [Hf1 Hk1].
  rewrite tokenize_app. set (st1 := tokenize pre st) in *.
  change (h :: content ++ rest) with ([h] ++ content ++ rest).
  rewrite !tokenize_app.
  assert (E2 : tokenize [h] st1 = mkTokenizer (fields (commit st1)) (Some k) []).
  { simpl. unfold tokenize_line. now rewrite Hh. }
  rewrite E2.
  rewrite (tokenize_content content _ k Hc) by reflexivity. simpl.
  set (st3 := mkTokenizer (fields (commit st1)) (Some k) content).
  assert (Hopen : fields (commit st3) !! k
                  = Some (normalizeValue (Js.trim (Js.join Js.LF content)))).
  { apply (commit_open st3 k); [reflexivity|]. simpl.
    rewrite commit_other by exact Hk1. exact Hf1. }
  destruct Hr as [-> | (r & rest' & -> & [k' Hk'])].
  - exact Hopen.
  - simpl. apply commit_keeps, tokenize_keeps.
    unfold tokenize_line. rewrite Hk'. simpl. exact Hopen.
Qed.

(** The keys of the field map: those present before, the open one, and
    the keys of the headings read. *)
Lemma commit_keys (st : Tokenizer) (k : string) :
  is_Some (fields (commit st) !! k)
  <-> is_Some (fields st !! k) \/ currentKey st = Some k.
Proof.
  unfold commit. destruct (currentKey st) as [c|] eqn:Ec.
  - destruct (fields st !! c) eqn:Ef.
    + split; [now left|]. intros [H | [= <-]]; [exact H | eauto].
    + simpl. destruct (decide (c = k)) as [-> | Hne].
      * rewrite lookup_insert_eq. split; [now right | eauto].
      * rewrite lookup_insert_ne by exact Hne.
        split; [now left|]. intros [H | [= ?]]; [exact H | contradiction].
  - split; [now left|]. intros [H | H]; [exact H | discriminate].
Qed.

Lemma tokenize_keys (lines : list string) (st : Tokenizer) (k : string) :
  is_Some (fields (commit (tokenize lines st)) !! k)
  <-> is_Some (fields st !! k) \/ currentKey st = Some k
      \/ exists line, In line lines /\ heading_key line = Some k.
Proof.
  revert st. induction lines as [|l lines IH]; intros st.
  - simpl. rewrite commit_keys. split; [tauto|].
    intros [H | [H | (line & [] & _)]]; tauto.
  - change (tokenize (l :: lines) st) with (tokenize lines (tokenize_line st l)).
    rewrite IH. unfold tokenize_line.
    destruct (heading_key l) as [key|] eqn:Eh.
    + cbn [fields currentKey]. rewrite commit_keys. split.
      * intros [[H | H] | [[= <-] | (line & Hin & Hk)]]; auto.
        -- right. right. exists l. split; [now left | exact Eh].
        -- right. right. exists line. split; [now right | exact Hk].
      * intros [H | [H | (line & [<- | Hin] & Hk)]]; auto.
        -- right. left. congruence.
        -- right. right. eauto.
    + assert (E : fields (match currentKey st with
                          | Some _ => mkTokenizer (fields st) (currentKey st) (buffer st ++ [l])
                          | None => st end) = fields st
                  /\ currentKey (match currentKey st with
                          | Some _ => mkTokenizer (fields st) (currentKey st) (buffer st ++ [l])
                          | None => st end) = currentKey st).
      { destruct (currentKey st) eqn:Ec; simpl; auto. }
      destruct E as [-> ->]. split.
      * intros [H | [H | (line & Hin & Hk)]]; auto.
        right. right. exists line. split; [now right | exact Hk].
      * intros [H | [H | (line & [<- | Hin] & Hk)]]; auto.
        -- congruence.
        -- right. right. eauto.
Qed.

Lemma parseIssueForm_lines (body : string) :
  body <> "" ->
  parseIssueForm body = fields (commit (tokenize (Js.split_lines body) tokenizer_start)).
Proof.
  intros H. unfold parseIssueForm. destruct (String.eqb_spec body ""); [contradiction|reflexivity].
Qed.

Lemma parseIssueForm_empty : parseIssueForm "" = ∅.
Proof. reflexivity. Qed.

(** The value of the first section of a key, on the whole body. *)
Lemma parseIssueForm_first_section
    (body : string) (pre content rest : list string) (h k : string) :
  Js.split_lines body = pre ++ h :: content ++ rest ->
  Forall (fun l => heading_key l <> Some k) pre ->
  heading_key h = Some k ->
  Forall (fun l => heading_key l = None) content ->
  (rest = [] \/ exists r rest', rest = r :: rest' /\ is_Some (heading_key r)) ->
  parseIssueForm body !! k = Some (normalizeValue (Js.trim (Js.join Js.LF content))).
Proof.
  intros Hl Hp Hh Hc Hr.
  destruct (String.eqb_spec body "") as [-> | Hne].
  { exfalso. destruct pre as [|x [|y pre]]; simpl in Hl.
    - injection Hl as <- _. vm_compute in Hh. discriminate.
    - injection Hl as _ Hl. discriminate.
    - injection Hl as _ Hl. discriminate. }
  rewrite (parseIssueForm_lines body Hne), Hl.
  apply tokenize_first; try assumption.
  - apply lookup_empty.
  - discriminate.
Qed.

(** *** Claim C10 *)

(** Among lines one of which is a heading of [k], the first such heading. *)
Lemma first_heading_split (k : string) (lines : list string) :
  (exists line, In line lines /\ heading_key line = Some k) ->
  exists pre h post,
    lines = pre ++ h :: post
    /\ Forall (fun l => heading_key l <> Some k) pre
    /\ heading_key h = Some k.
Proof.
  induction lines as [|l lines IH]; intros (line & Hin & Hk).
  - destruct Hin.
  - destruct (decide (heading_key l = Some k)) as [Hl | Hl].
    + exists [], l, lines. split; [reflexivity|]. split; [constructor | exact Hl].
    + destruct Hin as [-> | Hin]; [contradiction|].
      destruct IH as (pre & h & post & -> & Hpre & Hh); [now exists line|].
      exists (l :: pre), h, post. split; [reflexivity|].
      split; [now constructor | exact Hh].
Qed.

(** The lines up to the next recognised heading, or to the end. *)
Lemma section_split (lines : list string) :
  exists content rest,
    lines = content ++ rest
    /\ Forall (fun l => heading_key l = None) content
    /\ (rest = [] \/ exists r rest', rest = r :: rest' /\ is_Some (heading_key r)).
Proof.
  induction lines as [|l lines (content & rest & -> & Hc & Hr)].
  - exists [], []. split; [reflexivity|]. split; [constructor | now left].
  - destruct (heading_key l) as [key|] eqn:Hl.
    + exists [], (l :: content ++ rest). split; [reflexivity|]. split; [constructor|].
      right. exists l, (content ++ rest). split; [reflexivity|]. rewrite Hl. eauto.
    + exists (l :: content), rest. split; [reflexivity|].
      split; [now constructor | exact Hr].
Qed.

(** C10. Every value of the field map returned by [parseIssueForm] is the
    normalised text of the section under the first heading of its key. When
    the map gives [k] the value [v], the lines of the body are: lines [pre]
    with no heading of [k], a heading [h] of [k], the lines [content] with
    no recognised heading among them, and then the end of the body or a
    recognised heading; and [v] is [normalizeValue] of [content] joined by
    LF. So [v] has no white space at either end, and it is the empty string
    whenever that text is blank or is a placeholder for no answer after
    trimming, collapsing the white space and lowering the case. *)
Theorem fieldmap_values_normalized (body k v : string) :
  parseIssueForm body !! k = Some v ->
  no_edge_space v
  /\ exists pre h content rest,
       Js.split_lines body = pre ++ h :: content ++ rest
       /\ Forall (fun l => heading_key l <> Some k) pre
       /\ heading_key h = Some k
       /\ Forall (fun l => heading_key l = None) content
       /\ (rest = [] \/ exists r rest', rest = r :: rest' /\ is_Some (heading_key r))
       /\ v = normalizeValue (Js.join Js.LF content)
       /\ (blank (Js.join Js.LF content) \/ placeholder (Js.join Js.LF content) -> v = "").
Proof.
  intros H.
  destruct (String.eqb_spec body "") as [-> | Hne].
  { rewrite parseIssueForm_empty, lookup_empty in H. discriminate. }
  assert (Hkey : exists line, In line (Js.split_lines body) /\ heading_key line = Some k).
  { assert (Hs : is_Some (parseIssueForm body !! k)) by eauto.
    rewrite (parseIssueForm_lines body Hne) in Hs. apply tokenize_keys in Hs.
    destruct Hs as [[x Hx] | [Hx | Hx]].
    - unfold tokenizer_start in Hx. simpl in Hx. rewrite lookup_empty in Hx. discriminate.
    - discriminate.
    - exact Hx. }
  destruct (first_heading_split k _ Hkey) as (pre & h & post & Hl & Hpre & Hh).
  destruct (section_split post) as (content & rest & -> & Hc & Hr).
  pose proof (parseIssueForm_first_section body pre content rest h k Hl Hpre Hh Hc Hr) as Hv.
  rewrite H, normalizeValue_trim in Hv. injection Hv as ->.
  split.
  - apply trimmed_no_edge_space, normalizeValue_trimmed.
  - exists pre, h, content, rest.
    split; [exact Hl|]. split; [exact Hpre|]. split; [exact Hh|].
    split; [exact Hc|]. split; [exact Hr|]. split; [reflexivity|].
    intros [Hb | Hp]; [now apply normalizeValue_blank | now apply normalizeValue_placeholder].
Qed.

Lemma fieldmap_values_normalized_witness :
  no_edge_space ""
  /\ exists pre h content rest,
       Js.split_lines ("## Location" +:+ Js.LF +:+ " _No  Response_ ")
       = pre ++ h :: content ++ rest
       /\ Forall (fun l => heading_key l <> Some "location") pre
       /\ heading_key h = Some "location"
       /\ Forall (fun l => heading_key l = None) content
       /\ (rest = [] \/ exists r rest', rest = r :: rest' /\ is_Some (heading_key r))
       /\ "" = normalizeValue (Js.join Js.LF content)
       /\ (blank (Js.join Js.LF content) \/ placeholder (Js.join Js.LF content) -> "" = "").
Proof.
  apply (fieldmap_values_normalized
           ("## Location" +:+ Js.LF +:+ " _No  Response_ ") "location" "").
  vm_compute. reflexivity.
Defined.

(** *** Claim C4 *)

(** C4. First occurrence wins. When the lines of a body are [pre], then a
    heading [h] of the field [k] that is the first such heading, then the
    lines [content] with no recognised heading among them, then either the
    end or a recognised heading, the field map gives [k] the normalised
    [content], whatever follows, later headings of [k] included. And once
    [k] is stored, a further heading of [k] and the lines under it change no
    field at all: they are read and dropped. A stored value is never changed
    by anything that follows. *)
Theorem first_heading_wins :
  (forall (body : string) (pre content rest : list string) (h k : string),
      Js.split_lines body = pre ++ h :: content ++ rest ->
      Forall (fun l => heading_key l <> Some k) pre ->
      heading_key h = Some k ->
      Forall (fun l => heading_key l = None) content ->
      (rest = [] \/ exists r rest', rest = r :: rest' /\ is_Some (heading_key r)) ->
      parseIssueForm body !! k = Some (normalizeValue (Js.trim (Js.join Js.LF content))))
  /\ (forall (st : Tokenizer) (h k : string) (content : list string),
        heading_key h = Some k ->
        is_Some (fields st !! k) ->
        Forall (fun l => heading_key l = None) content ->
        fields (commit (tokenize (h :: content) st)) = fields (commit st))
  /\ (forall (lines : list string) (st : Tokenizer) (k v : string),
        fields st !! k = Some v ->
        fields (commit (tokenize lines st)) !! k = Some v)
  /\ parseIssueForm ("## Company Name" +:+ Js.LF +:+ "Acme" +:+ Js.LF
                     +:+ "## Company Name" +:+ Js.LF +:+ "Other") !! "company"
     = Some "Acme".
Proof.
  split; [|split; [|split]].
  - exact parseIssueForm_first_section.
  - intros st h k content Hh Hk Hc.
    change (tokenize (h :: content) st) with (tokenize content (tokenize_line st h)).
    assert (E : tokenize_line st h = mkTokenizer (fields (commit st)) (Some k) []).
    { unfold tokenize_line. now rewrite Hh. }
    rewrite E, (tokenize_content content _ k Hc) by reflexivity. simpl.
    rewrite (commit_committed _ k); [reflexivity | reflexivity |]. simpl.
    destruct Hk as [v Hv]. exists v. now apply commit_keeps.
  - intros lines st k v H. now apply commit_keeps, tokenize_keeps.
  - vm_compute. reflexivity.
Qed.

Lemma first_heading_wins_witness :
  parseIssueForm ("## Company Name" +:+ Js.LF +:+ "Acme" +:+ Js.LF
                  +:+ "## Company Name" +:+ Js.LF +:+ "Other" +:+ Js.LF
                  +:+ "## Location" +:+ Js.LF +:+ "Berlin") !! "company"
  = Some (normalizeValue (Js.trim (Js.join Js.LF ["Acme"]))).
Proof.
  apply (proj1 first_heading_wins _ [] ["Acme"] ["## Company Name"; "Other"; "## Location"; "Berlin"]
           "## Company Name" "company").
  - vm_compute. reflexivity.
  - constructor.
  - vm_compute. reflexivity.
  - repeat constructor.
  - right. exists "## Company Name", ["Other"; "## Location"; "Berlin"].
    split; [reflexivity|]. vm_compute. eauto.
Defined.

(** *** Claim C9 *)

Lemma occurs_in_chars (part s : string) :
  occurs_in part s <-> occurs_chars (Js.explode part) (Js.explode s).
Proof.
  split.
  - intros (a & b & ->). exists (Js.explode a), (Js.explode b).
    now rewrite !explode_app.
  - intros (a & b & H). exists (Js.implode a), (Js.implode b).
    apply explode_inj. now rewrite !explode_app, !explode_implode.
Qed.

Lemma occurs_chars_trans (a b c : Js.chars) :
  occurs_chars a b -> occurs_chars b c -> occurs_chars a c.
Proof.
  intros (x & y & ->) (x' & y' & ->). exists (x' ++ x), (y ++ y').
  now rewrite <- !app_assoc.
Qed.

Lemma join_occurs (sep line : string) (c1 c2 : list string) :
  occurs_in line (Js.join sep (c1 ++ line :: c2)).
Proof.
  apply occurs_in_chars. induction c1 as [|x c1 IH].
  - destruct c2 as [|y c2].
    + exists [], []. simpl. now rewrite app_nil_r.
    + exists [], (Js.explode (sep +:+ Js.join sep (y :: c2))).
      change (Js.join sep ([] ++ line :: y :: c2))
        with (line +:+ sep +:+ Js.join sep (y :: c2)).
      now rewrite explode_app.
  - destruct IH as (a & b & E).
    exists (Js.explode x ++ Js.explode sep ++ a), b.
    assert (Hj : Js.join sep ((x :: c1) ++ line :: c2)
                 = x +:+ sep +:+ Js.join sep (c1 ++ line :: c2)).
    { simpl. destruct (c1 ++ line :: c2) eqn:Ec; [|reflexivity].
      destruct c1; discriminate. }
    rewrite Hj, !explode_app, E. now rewrite <- !app_assoc.
Qed.

Lemma trim_chars_occurs (l : Js.chars) : occurs_chars (Js.trim_chars l) l.
Proof.
  exists (Js.take_while Js.is_space l),
         (rev (Js.take_while Js.is_space (rev (Js.drop_while Js.is_space l)))).
  unfold Js.trim_chars. rewrite <- rev_app_distr, take_drop_while, rev_involutive.
  now rewrite take_drop_while.
Qed.

Lemma drop_while_stops (a : Js.chars) (x : ascii) (l : Js.chars) :
  Js.is_space x = false ->
  exists a', Js.drop_while Js.is_space (a ++ x :: l) = a' ++ x :: l.
Proof.
  intros Hx. induction a as [|y a IH]; simpl.
  - exists []. now rewrite Hx.
  - destruct (Js.is_space y); [exact IH|]. now exists (y :: a).
Qed.

(** Trimming a text keeps a part of it that has no white space at its own
    ends. *)
Lemma trim_chars_core (a m b : Js.chars) :
  m <> [] -> trimmed m -> occurs_chars m (Js.trim_chars (a ++ m ++ b)).
Proof.
  intros Hm [H1 H2]. unfold Js.trim_chars.
  destruct m as [|x r]; [congruence|].
  assert (Hx : Js.is_space x = false) by (eapply drop_while_head; exact H1).
  destruct (drop_while_stops a x (r ++ b) Hx) as [a' Ea].
  change (a ++ (x :: r) ++ b) with (a ++ x :: r ++ b). rewrite Ea.
  destruct (rev (x :: r)) as [|y q] eqn:Er.
  { apply (f_equal (@length _)) in Er. rewrite length_rev in Er. discriminate. }
  assert (Hy : Js.is_space y = false) by (eapply drop_while_head; exact H2).
  replace (rev (a' ++ x :: r ++ b)) with (rev b ++ y :: q ++ rev a').
  2:{ change (x :: r ++ b) with ((x :: r) ++ b).
      rewrite !rev_app_distr, Er. now rewrite <- app_assoc. }
  destruct (drop_while_stops (rev b) y (q ++ rev a') Hy) as [b' Eb].
  rewrite Eb. exists a', (rev b').
  change (y :: q ++ rev a') with ((y :: q) ++ rev a').
  rewrite <- Er, !rev_app_distr, !rev_involutive. now rewrite <- app_assoc.
Qed.

Lemma replace_runs_keeps (p : ascii -> bool) (c : ascii) (flag : bool) (l : Js.chars) :
  p c = false -> In c l -> In c (Js.replace_runs_go p flag l).
Proof.
  intros Hc. revert flag. induction l as [|x l IH]; intros flag; simpl; [tauto|].
  intros [-> | Hin].
  - rewrite Hc. now left.
  - destruct (p x); [destruct flag|]; simpl; auto.
Qed.

(** A text with a hash in it is no placeholder: it is stored as it is. *)
Lemma normalizeValue_hash (raw : string) :
  In "#"%char (Js.explode (Js.trim raw)) -> normalizeValue raw = Js.trim raw.
Proof.
  intros H. unfold normalizeValue.
  destruct (String.eqb_spec (Js.trim raw) "") as [E|_].
  { rewrite E in H. destruct H. }
  set (n := Js.toLowerCase (Js.replace_runs Js.is_space (Js.trim raw))).
  assert (Hn : In "#"%char (Js.explode n)).
  { unfold n, Js.toLowerCase, Js.replace_runs. rewrite !explode_implode.
    apply (in_map Js.lower_char _ "#"%char).
    apply replace_runs_keeps; [reflexivity | exact H]. }
  destruct (String.eqb_spec n "_no response_") as [E|_].
  { rewrite E in Hn. simpl in Hn. exfalso. intuition discriminate. }
  destruct (String.eqb_spec n "no response") as [E|_].
  { rewrite E in Hn. simpl in Hn. exfalso. intuition discriminate. }
  reflexivity.
Qed.

Lemma heading_regex_hash (t : Js.chars) (text : string) :
  heading_regex t = Some text -> exists r, t = "#"%char :: r.
Proof.
  destruct t as [|c r]; [discriminate|].
  unfold heading_regex. simpl.
  destruct (Ascii.eqb_spec c "#"%char) as [-> | _]; [eauto | discriminate].
Qed.

Lemma unrecognised_heading_key (line text : string) :
  heading_regex (Js.trim_chars (Js.explode line)) = Some text ->
  EXPECTED_HEADINGS !! normalizeHeading text = None ->
  heading_key line = None.
Proof. intros H1 H2. unfold heading_key. now rewrite H1. Qed.

(** The section that holds the heading line, once trimmed, still holds the
    trimmed heading line. *)
Lemma section_holds_heading (line text : string) (c1 c2 : list string) :
  heading_regex (Js.trim_chars (Js.explode line)) = Some text ->
  occurs_in (Js.trim line) (Js.trim (Js.join Js.LF (c1 ++ line :: c2)))
  /\ In "#"%char (Js.explode (Js.trim (Js.join Js.LF (c1 ++ line :: c2)))).
Proof.
  intros Hh. destruct (heading_regex_hash _ _ Hh) as [r Er].
  assert (Hocc : occurs_chars (Js.trim_chars (Js.explode line))
                   (Js.trim_chars (Js.explode (Js.join Js.LF (c1 ++ line :: c2))))).
  { pose proof (join_occurs Js.LF line c1 c2) as Hj. apply occurs_in_chars in Hj.
    destruct (occurs_chars_trans _ _ _ (trim_chars_occurs (Js.explode line)) Hj)
      as (a & b & ->).
    apply trim_chars_core; [rewrite Er; discriminate | apply trim_chars_trimmed]. }
  split.
  - apply occurs_in_chars. unfold Js.trim. now rewrite !explode_implode.
  - unfold Js.trim. rewrite explode_implode. destruct Hocc as (a & b & ->).
    rewrite Er. apply in_or_app. right. now left.
Qed.

(** C9 (as amended). A line that is a heading of level 2 to 6 whose
    normalised text is not in the vocabulary is appended as it is, markers
    included, to the buffer of the open field. When that field was opened by
    the first heading of its key, the value stored for the key is the trimmed
    join of the lines of the section, the heading line among them, and the
    heading line without the white space at its ends occurs in it. *)
Theorem unrecognised_heading_kept :
  (forall (st : Tokenizer) (line text k : string),
      heading_regex (Js.trim_chars (Js.explode line)) = Some text ->
      EXPECTED_HEADINGS !! normalizeHeading text = None ->
      currentKey st = Some k ->
      tokenize_line st line = mkTokenizer (fields st) (Some k) (buffer st ++ [line]))
  /\ (forall (body : string) (pre c1 c2 rest : list string) (h k line text : string),
        Js.split_lines body = pre ++ h :: (c1 ++ line :: c2) ++ rest ->
        Forall (fun l => heading_key l <> Some k) pre ->
        heading_key h = Some k ->
        heading_regex (Js.trim_chars (Js.explode line)) = Some text ->
        EXPECTED_HEADINGS !! normalizeHeading text = None ->
        Forall (fun l => heading_key l = None) c1 ->
        Forall (fun l => heading_key l = None) c2 ->
        (rest = [] \/ exists r rest', rest = r :: rest' /\ is_Some (heading_key r)) ->
        parseIssueForm body !! k = Some (Js.trim (Js.join Js.LF (c1 ++ line :: c2)))
        /\ occurs_in (Js.trim line) (Js.trim (Js.join Js.LF (c1 ++ line :: c2)))).
Proof.
  split.
  - intros st line text k Hh Hv Hk. unfold tokenize_line.
    now rewrite (unrecognised_heading_key line text Hh Hv), Hk.
  - intros body pre c1 c2 rest h k line text Hl Hp Hk Hh Hv Hc1 Hc2 Hr.
    destruct (section_holds_heading line text c1 c2 Hh) as [Hocc Hhash].
    split; [|exact Hocc].
    rewrite (parseIssueForm_first_section body pre (c1 ++ line :: c2) rest h k Hl Hp Hk); [| |exact Hr].
    + f_equal. rewrite normalizeValue_trim. rewrite <- trim_idem in Hhash.
      rewrite <- normalizeValue_trim. rewrite (normalizeValue_hash _ Hhash).
      apply trim_idem.
    + apply Forall_app. split; [exact Hc1|]. constructor; [|exact Hc2].
      exact (unrecognised_heading_key line text Hh Hv).
Qed.

Lemma unrecognised_heading_kept_witness :
  parseIssueForm ("## Location" +:+ Js.LF +:+ "Berlin" +:+ Js.LF +:+ "  ### Notes" +:+ Js.LF
                  +:+ "more" +:+ Js.LF +:+ "## Remote" +:+ Js.LF +:+ "yes") !! "location"
  = Some (Js.trim (Js.join Js.LF (["Berlin"] ++ "  ### Notes" :: ["more"])))
  /\ occurs_in (Js.trim "  ### Notes")
       (Js.trim (Js.join Js.LF (["Berlin"] ++ "  ### Notes" :: ["more"]))).
Proof.
  apply (proj2 unrecognised_heading_kept _ [] ["Berlin"] ["more"] ["## Remote"; "yes"]
           "## Location" "location" "  ### Notes" "Notes").
  - vm_compute. reflexivity.
  - constructor.
  - vm_compute. reflexivity.
  - vm_compute. reflexivity.
  - vm_compute. reflexivity.
  - repeat constructor.
  - repeat constructor.
  - right. exists "## Remote", ["yes"]. split; [reflexivity|]. vm_compute. eauto.
Defined.

(** C9 (as stated) fails. Under a second heading of a key that is already
    stored, an unrecognised heading line is read while the field is open,
    and it occurs nowhere in the value of that field. *)
Lemma unrecognised_heading_not_in_value :
  ~ (forall (body : string) (pre rest : list string) (line text k : string),
       Js.split_lines body = pre ++ line :: rest ->
       heading_regex (Js.trim_chars (Js.explode line)) = Some text ->
       EXPECTED_HEADINGS !! normalizeHeading text = None ->
       currentKey (tokenize pre tokenizer_start) = Some k ->
       exists v, parseIssueForm body !! k = Some v /\ occurs_in line v).
Proof.
  intros H.
  destruct (H ("## Location" +:+ Js.LF +:+ "Berlin" +:+ Js.LF
               +:+ "## Location" +:+ Js.LF +:+ "### Notes")
              ["## Location"; "Berlin"; "## Location"] [] "### Notes" "Notes" "location")
    as (v & Hv & Hocc); try (vm_compute; reflexivity).
  vm_compute in Hv. injection Hv as <-.
  apply occurs_in_chars in Hocc. destruct Hocc as (a & b & E).
  apply (f_equal (@length _)) in E. rewrite !length_app in E. simpl in E. lia.
Qed.

(** ** The validators *)

(** *** Claim C5 *)

Lemma tags_fold (items : list string) (seen : gset string) (tags : list string) :
  (fold_left tags_step items (seen, tags)).2 = tags ++ dedupe_from seen items.
Proof.
  revert seen tags. induction items as [|x items IH]; intros seen tags; simpl.
  - now rewrite app_nil_r.
  - unfold tags_step at 2. simpl. destruct (decide (Js.toLowerCase x ∈ seen)).
    + apply IH.
    + rewrite IH. now rewrite <- app_assoc.
Qed.

Lemma dedupe_tags_from (items : list string) : dedupe_tags items = dedupe_from ∅ items.
Proof. unfold dedupe_tags. now rewrite tags_fold. Qed.

Lemma dedupe_from_sublist (items : list string) (seen : gset string) :
  sublist (dedupe_from seen items) items.
Proof.
  revert seen. induction items as [|x items IH]; intros seen; simpl; [constructor|].
  destruct (decide _); [apply sublist_cons | apply sublist_skip]; apply IH.
Qed.

Lemma dedupe_from_fresh (items : list string) (seen : gset string) (t : string) :
  t ∈ dedupe_from seen items -> Js.toLowerCase t ∉ seen.
Proof.
  revert seen. induction items as [|x items IH]; intros seen; simpl.
  - intros H. inversion H.
  - destruct (decide _) as [Hin|Hnin]; [apply IH|].
    intros [-> | H]%elem_of_cons; [exact Hnin|].
    apply IH in H. set_solver.
Qed.

Lemma dedupe_from_NoDup (items : list string) (seen : gset string) :
  NoDup (map Js.toLowerCase (dedupe_from seen items)).
Proof.
  revert seen. induction items as [|x items IH]; intros seen; simpl; [constructor|].
  destruct (decide _); [apply IH|]. simpl. constructor; [|apply IH].
  intros (t & Ht & Hin)%list_elem_of_In%in_map_iff.
  apply list_elem_of_In, dedupe_from_fresh in Hin. rewrite Ht in Hin. set_solver.
Qed.

Lemma dedupe_from_covers (items : list string) (seen : gset string) (x : string) :
  x ∈ items ->
  Js.toLowerCase x ∈ seen \/ Js.toLowerCase x ∈ map Js.toLowerCase (dedupe_from seen items).
Proof.
  revert seen. induction items as [|y items IH]; intros seen Hx; [inversion Hx|].
  simpl. apply elem_of_cons in Hx as [-> | Hx].
  - destruct (decide _); [now left|]. right. simpl. apply elem_of_cons. now left.
  - destruct (decide _) as [Hin|Hnin]; [now apply IH|].
    destruct (IH ({[Js.toLowerCase y]} ∪ seen) Hx) as [H|H].
    + apply elem_of_union in H as [H%elem_of_singleton | H]; [|now left].
      right. simpl. apply elem_of_cons. now left.
    + right. simpl. apply elem_of_cons. now right.
Qed.

Lemma dedupe_from_first (items : list string) (seen : gset string) (t : string) :
  t ∈ dedupe_from seen items ->
  exists pre post, items = pre ++ t :: post
                   /\ forall x, x ∈ pre -> Js.toLowerCase x <> Js.toLowerCase t.
Proof.
  revert seen. induction items as [|y items IH]; intros seen; simpl.
  - intros H. inversion H.
  - destruct (decide _) as [Hin|Hnin].
    + intros H. pose proof (dedupe_from_fresh _ _ _ H) as Hf.
      destruct (IH _ H) as (pre & post & -> & Hpre).
      exists (y :: pre), post. split; [reflexivity|].
      intros x [-> | Hx]%elem_of_cons; [congruence | now apply Hpre].
    + intros [-> | H]%elem_of_cons.
      * exists [], items. split; [reflexivity|]. intros x Hx. inversion Hx.
      * pose proof (dedupe_from_fresh _ _ _ H) as Hf.
        destruct (IH _ H) as (pre & post & -> & Hpre).
        exists (y :: pre), post. split; [reflexivity|].
        intros x [-> | Hx]%elem_of_cons; [set_solver | now apply Hpre].
Qed.

(** The loop keeps exactly the items no earlier item has the lower-case
    form of, when [seen] holds the lower-case forms of the items passed. *)
Lemma dedupe_from_spec (items earlier : list string) (seen : gset string) :
  (forall key, key ∈ seen <-> exists e, In e earlier /\ Js.toLowerCase e = key) ->
  dedupe_from seen items = spec_first_occurrences_from earlier items.
Proof.
  revert earlier seen. induction items as [|y items IH]; intros earlier seen Hs; [reflexivity|].
  assert (Hnext : forall seen' : gset string, (forall key, key ∈ seen' <-> key = Js.toLowerCase y \/ key ∈ seen) ->
            forall key, key ∈ seen' <-> exists e, In e (earlier ++ [y]) /\ Js.toLowerCase e = key).
  { intros seen' Hs' key. rewrite Hs', Hs. split.
    - intros [-> | (e & He & <-)].
      + exists y. split; [apply in_or_app; right; now left | reflexivity].
      + exists e. split; [apply in_or_app; now left | reflexivity].
    - intros (e & [He | [<- | []]]%in_app_or & <-); [right; eauto | now left]. }
  simpl. destruct (decide (Js.toLowerCase y ∈ seen)) as [Hin | Hnin].
  - destruct (existsb _ earlier) eqn:E.
    + apply IH, Hnext. intros key. split; [now right|]. intros [-> | H]; assumption.
    + exfalso. apply Hs in Hin as (e & He & Hk).
      apply not_true_iff_false in E. apply E. apply existsb_exists.
      exists e. split; [exact He | now apply String.eqb_eq].
  - destruct (existsb _ earlier) eqn:E.
    + exfalso. apply existsb_exists in E as (e & He & Hk%String.eqb_eq).
      apply Hnin, Hs. eauto.
    + f_equal. apply IH, Hnext. intros key.
      now rewrite elem_of_union, elem_of_singleton.
Qed.

(** Of two entries of the output, the earlier one stands in the input
    before the first item with the lower-case form of the later one. *)
Lemma dedupe_from_order (items : list string) (seen : gset string)
    (t1 t2 : string) (l1 l2 l3 : list string) :
  dedupe_from seen items = l1 ++ t1 :: l2 ++ t2 :: l3 ->
  exists pre mid post,
    items = pre ++ t1 :: mid ++ t2 :: post
    /\ forall x, x ∈ pre ++ t1 :: mid -> Js.toLowerCase x <> Js.toLowerCase t2.
Proof.
  revert seen l1. induction items as [|y items IH]; intros seen l1; simpl.
  - destruct l1; discriminate.
  - destruct (decide _) as [Hin | Hnin].
    + intros H.
      assert (Hf : Js.toLowerCase t2 ∉ seen).
      { apply (dedupe_from_fresh items). rewrite H. set_solver. }
      destruct (IH _ _ H) as (pre & mid & post & -> & Hpre).
      exists (y :: pre), mid, post. split; [reflexivity|].
      intros x [-> | Hx]%elem_of_cons; [congruence | now apply Hpre].
    + destruct l1 as [|z l1]; simpl; intros [= <- H].
      * assert (Ht2 : t2 ∈ dedupe_from ({[Js.toLowerCase y]} ∪ seen) items).
        { rewrite H. set_solver. }
        pose proof (dedupe_from_fresh _ _ _ Ht2) as Hf.
        destruct (dedupe_from_first _ _ _ Ht2) as (mid & post & -> & Hmid).
        exists [], mid, post. split; [reflexivity|].
        intros x [-> | Hx]%elem_of_cons; [set_solver | now apply Hmid].
      * assert (Hf : Js.toLowerCase t2 ∉ {[Js.toLowerCase y]} ∪ seen).
        { apply (dedupe_from_fresh items). rewrite H. set_solver. }
        destruct (IH _ _ H) as (pre & mid & post & -> & Hpre).
        exists (y :: pre), mid, post. split; [reflexivity|].
        intros x [-> | Hx]%elem_of_cons; [set_solver | now apply Hpre].
Qed.

Lemma split_chars_nonempty (sep : ascii) (l : Js.chars) : Js.split_chars sep l <> [].
Proof.
  destruct l as [|c l]; simpl; [discriminate|].
  destruct (Ascii.eqb c sep); [discriminate|].
  destruct (Js.split_chars sep l); discriminate.
Qed.

(** Joining the pieces of a split with the separator gives the text back. *)
Lemma split_join (sep : ascii) (s : string) :
  Js.join (String sep "") (Js.split sep s) = s.
Proof.
  unfold Js.split. rewrite <- (implode_explode s) at 2.
  generalize (Js.explode s) as l. induction l as [|c l IH]; [reflexivity|].
  simpl Js.split_chars. destruct (Ascii.eqb_spec c sep) as [-> | Hne].
  - pose proof (split_chars_nonempty sep l) as Hn.
    destruct (Js.split_chars sep l) as [|w ws] eqn:E; [congruence|].
    change (Js.join (String sep "") (map Js.implode ([] :: w :: ws)))
      with (String sep (Js.join (String sep "") (map Js.implode (w :: ws)))).
    rewrite IH. reflexivity.
  - pose proof (split_chars_nonempty sep l) as Hn.
    destruct (Js.split_chars sep l) as [|w ws] eqn:E; [congruence|].
    destruct ws as [|w' ws].
    + simpl in IH |- *. unfold Js.join in IH. simpl in IH. now rewrite IH.
    + change (Js.join (String sep "") (map Js.implode ((c :: w) :: w' :: ws)))
        with (String c (Js.join (String sep "") (map Js.implode (w :: w' :: ws)))).
      now rewrite IH.
Qed.

(** No piece of a split holds the separator. *)
Lemma split_no_sep (sep : ascii) (s : string) :
  Forall (fun piece => ~ In sep (Js.explode piece)) (Js.split sep s).
Proof.
  unfold Js.split. generalize (Js.explode s) as l.
  induction l as [|c l IH]; simpl.
  - constructor; [|constructor]. simpl. tauto.
  - destruct (Ascii.eqb_spec c sep) as [-> | Hne].
    + constructor; [simpl; tauto | exact IH].
    + pose proof (split_chars_nonempty sep l) as Hn.
      destruct (Js.split_chars sep l) as [|w ws]; [congruence|].
      simpl in IH |- *. inversion IH as [|? ? Hw Hws]; subst.
      constructor; [|exact Hws].
      rewrite explode_implode in Hw. change (Js.implode (c :: w)) with (String c (Js.implode w)).
      simpl. rewrite explode_implode. intros [E | Hin]; [congruence | contradiction].
Qed.

Lemma missing_Some (v : string) : v <> "" -> missing (Some v) = false.
Proof. intros H. simpl. now apply String.eqb_neq. Qed.

(** C5. For a non-empty input, [parseTags] cuts it at the commas (the pieces
    hold no comma, and joined by commas they give the input back), trims the
    pieces and drops the empty ones; of the items left it returns a
    subsequence (so casing and relative order are those of the input) in
    which no two entries have the same lower-case form, every item of the
    input has its lower-case form among those of the output, and every entry
    is the first item of the input with its lower-case form. The output is
    exactly the first occurrences in input order: it is the list of the
    items that no earlier item has the lower-case form of, in the order of
    the input, and of two entries the earlier one stands in the input before
    the first item with the lower-case form of the later one. It reports
    "Tags/keywords must include at least one value" exactly when nothing is
    left. "Remote, REMOTE, backend, remote" gives ["Remote"; "backend"]. *)
Theorem parseTags_dedupes (value : string) (es : list string) :
  value <> "" ->
  let items := rawItems value in
  let tags := (parseTags (Some value) es).1 in
  Js.join "," (Js.split ","%char value) = value
  /\ Forall (fun piece => ~ In ","%char (Js.explode piece)) (Js.split ","%char value)
  /\ items = List.filter (fun item => negb (String.eqb item ""))
              (map Js.trim (Js.split ","%char value))
  /\ sublist tags items
  /\ NoDup (map Js.toLowerCase tags)
  /\ (forall x, x ∈ items -> Js.toLowerCase x ∈ map Js.toLowerCase tags)
  /\ (forall t, t ∈ tags ->
        exists pre post, items = pre ++ t :: post
                         /\ forall x, x ∈ pre -> Js.toLowerCase x <> Js.toLowerCase t)
  /\ tags = spec_first_occurrences items
  /\ (forall t1 t2 l1 l2 l3, tags = l1 ++ t1 :: l2 ++ t2 :: l3 ->
        exists pre mid post,
          items = pre ++ t1 :: mid ++ t2 :: post
          /\ forall x, x ∈ pre ++ t1 :: mid -> Js.toLowerCase x <> Js.toLowerCase t2)
  /\ (parseTags (Some value) es).2
     = es ++ (if Nat.eqb (length tags) 0
              then ["Tags/keywords must include at least one value"] else [])
  /\ (parseTags (Some "Remote, REMOTE, backend, remote") []).1 = ["Remote"; "backend"].
Proof.
  intros Hne items tags.
  assert (Htags : tags = dedupe_from ∅ items).
  { unfold tags, parseTags. rewrite (missing_Some _ Hne). simpl default.
    rewrite dedupe_tags_from. unfold bind.
    now destruct (Nat.eqb _ 0). }
  split; [apply split_join|].
  split; [apply split_no_sep|].
  split; [reflexivity|].
  split; [rewrite Htags; apply dedupe_from_sublist|].
  split; [rewrite Htags; apply dedupe_from_NoDup|].
  split.
  { intros x Hx. rewrite Htags.
    destruct (dedupe_from_covers items ∅ x Hx) as [H|H]; [set_solver | exact H]. }
  split; [rewrite Htags; intros t; apply dedupe_from_first|].
  split.
  { rewrite Htags. apply dedupe_from_spec. intros key. split; [set_solver|].
    intros (e & [] & _). }
  split.
  { rewrite Htags. intros t1 t2 l1 l2 l3. apply dedupe_from_order. }
  split.
  { rewrite Htags. unfold parseTags. rewrite (missing_Some _ Hne). simpl default.
    rewrite dedupe_tags_from. fold items. unfold bind, push, ret.
    destruct (Nat.eqb _ 0); simpl; [reflexivity | now rewrite app_nil_r]. }
  vm_compute. reflexivity.
Qed.

Lemma parseTags_dedupes_witness :
  let value := "Remote, REMOTE, backend, remote" in
  let items := rawItems value in
  let tags := (parseTags (Some value) []).1 in
  Js.join "," (Js.split ","%char value) = value
  /\ Forall (fun piece => ~ In ","%char (Js.explode piece)) (Js.split ","%char value)
  /\ items = List.filter (fun item => negb (String.eqb item ""))
              (map Js.trim (Js.split ","%char value))
  /\ sublist tags items
  /\ NoDup (map Js.toLowerCase tags)
  /\ (forall x, x ∈ items -> Js.toLowerCase x ∈ map Js.toLowerCase tags)
  /\ (forall t, t ∈ tags ->
        exists pre post, items = pre ++ t :: post
                         /\ forall x, x ∈ pre -> Js.toLowerCase x <> Js.toLowerCase t)
  /\ tags = spec_first_occurrences items
  /\ (forall t1 t2 l1 l2 l3, tags = l1 ++ t1 :: l2 ++ t2 :: l3 ->
        exists pre mid post,
          items = pre ++ t1 :: mid ++ t2 :: post
          /\ forall x, x ∈ pre ++ t1 :: mid -> Js.toLowerCase x <> Js.toLowerCase t2)
  /\ (parseTags (Some value) []).2
     = [] ++ (if Nat.eqb (length tags) 0
              then ["Tags/keywords must include at least one value"] else [])
  /\ (parseTags (Some "Remote, REMOTE, backend, remote") []).1 = ["Remote"; "backend"].
Proof.
  apply (parseTags_dedupes "Remote, REMOTE, backend, remote" []). discriminate.
Defined.

(** *** Claim C8 *)

Lemma checked_regex_spec (line : string) :
  checked_regex line = true <-> checked_line line.
Proof.
  unfold checked_regex, checked_line. split.
  - intros H.
    pose proof (take_drop_while Js.is_space (Js.explode line)) as E1.
    pose proof (take_while_all Js.is_space (Js.explode line)) as A1.
    destruct (Js.drop_while Js.is_space (Js.explode line)) as [|dash l]; [discriminate|].
    apply andb_prop in H as [Hd H]. apply Ascii.eqb_eq in Hd. subst dash.
    pose proof (take_drop_while Js.is_space l) as E2.
    pose proof (take_while_all Js.is_space l) as A2.
    destruct (Js.drop_while Js.is_space l) as [|o [|x [|c rest]]]; try discriminate.
    apply andb_prop in H as [H Hc]. apply andb_prop in H as [Ho Hx].
    apply Ascii.eqb_eq in Ho, Hc. subst o c.
    exists (Js.take_while Js.is_space (Js.explode line)), (Js.take_while Js.is_space l), x, rest.
    rewrite E2, E1. repeat split; try assumption.
    apply orb_prop in Hx as [Hx|Hx]; apply Ascii.eqb_eq in Hx; auto.
  - intros (ws1 & ws2 & x & rest & -> & A1 & A2 & Hx).
    rewrite (drop_while_all _ _ _ A1). simpl.
    rewrite (drop_while_all _ _ _ A2). simpl.
    destruct Hx as [-> | ->]; reflexivity.
Qed.

Lemma starts_with_app (p l : Js.chars) :
  starts_with p l = true -> exists rest, l = p ++ rest.
Proof.
  revert l. induction p as [|c p IH]; intros l H; simpl in H.
  - now exists l.
  - destruct l as [|d l]; [discriminate|].
    apply andb_prop in H as [Hc H]. apply Ascii.eqb_eq in Hc. subst d.
    destruct (IH _ H) as [rest ->]. now exists rest.
Qed.

Lemma trim_chars_split (l : Js.chars) :
  l = Js.take_while Js.is_space l ++ Js.trim_chars l
      ++ rev (Js.take_while Js.is_space (rev (Js.drop_while Js.is_space l))).
Proof.
  unfold Js.trim_chars. rewrite <- rev_app_distr, take_drop_while, rev_involutive.
  now rewrite take_drop_while.
Qed.

(** The lines the specification describes are among those the code accepts. *)
Lemma spec_checked_line_checked (line : string) :
  spec_checked_line line = true -> checked_line line.
Proof.
  unfold spec_checked_line. intros H.
  pose proof (trim_chars_split (Js.explode line)) as E.
  pose proof (take_while_all Js.is_space (Js.explode line)) as A.
  set (ws := Js.take_while Js.is_space (Js.explode line)) in *.
  set (ws' := rev (Js.take_while Js.is_space
                     (rev (Js.drop_while Js.is_space (Js.explode line))))) in *.
  apply orb_prop in H as [H|H]; apply starts_with_app in H as [rest Hr];
    rewrite Hr in E.
  - exists ws, [" "%char], "x"%char, (rest ++ ws').
    split; [exact E|]. repeat split; auto.
  - exists ws, [" "%char], "X"%char, (rest ++ ws').
    split; [exact E|]. repeat split; auto.
Qed.

(** C8 (as amended). An absent or empty confirmation yields the error that
    the checkbox is required. A non-empty one passes, with no error, if and
    only if one of its lines is: white space if any, a dash, white space if
    any, then [[x]] or [[X]]; otherwise the error that the checkbox must be
    checked is appended. Every line whose trimmed content starts with
    [- [x]] or [- [X]] is such a line; "- [ ] I confirm" fails and
    "- [x] I confirm" passes. *)
Theorem parseConfirmation_checked :
  (forall es, parseConfirmation None es = (false, es ++ ["Confirmation checkbox is required"])
              /\ parseConfirmation (Some "") es
                 = (false, es ++ ["Confirmation checkbox is required"]))
  /\ (forall (value : string) (es : list string),
        value <> "" ->
        ((exists line, In line (Js.split_lines value) /\ checked_line line) ->
         parseConfirmation (Some value) es = (true, es))
        /\ (~ (exists line, In line (Js.split_lines value) /\ checked_line line) ->
            parseConfirmation (Some value) es
            = (false, es ++ ["Confirmation checkbox must be checked"])))
  /\ (forall line, spec_checked_line line = true -> checked_line line)
  /\ parseConfirmation (Some "- [ ] I confirm") []
     = (false, ["Confirmation checkbox must be checked"])
  /\ parseConfirmation (Some "- [x] I confirm") [] = (true, []).
Proof.
  split; [intros es; split; reflexivity|].
  split; [|split; [exact spec_checked_line_checked | split; reflexivity]].
  intros value es Hne. unfold parseConfirmation. rewrite (missing_Some _ Hne).
  simpl default. unfold bind, push, ret.
  destruct (existsb checked_regex (Js.split_lines value)) eqn:E; simpl.
  - split; [reflexivity|]. intros Hn. exfalso. apply Hn.
    apply existsb_exists in E as (line & Hin & Hc).
    exists line. split; [exact Hin | now apply checked_regex_spec].
  - split; [|reflexivity]. intros (line & Hin & Hc). exfalso.
    apply checked_regex_spec in Hc.
    assert (existsb checked_regex (Js.split_lines value) = true)
      by (apply existsb_exists; eauto).
    congruence.
Qed.

Lemma parseConfirmation_checked_witness :
  parseConfirmation (Some ("Please confirm" +:+ Js.LF +:+ "  -  [X] yes")) ["earlier"]
  = (true, ["earlier"]).
Proof.
  apply (proj1 (proj2 parseConfirmation_checked)
           ("Please confirm" +:+ Js.LF +:+ "  -  [X] yes") ["earlier"]).
  - discriminate.
  - exists "  -  [X] yes". split; [vm_compute; auto|].
    exists [" "; " "]%char, [" "; " "]%char, "X"%char, (Js.explode " yes").
    repeat split; auto.
Defined.

(** C8 (as stated) fails: a line with no space between the dash and the
    bracket passes, and its trimmed content starts with neither [- [x]] nor
    [- [X]]. *)
Lemma parseConfirmation_accepts_no_space :
  ~ ((parseConfirmation (Some "-[x] I confirm") []).1 = true
     <-> existsb spec_checked_line (Js.split_lines "-[x] I confirm") = true).
Proof.
  intros [H _]. specialize (H eq_refl). vm_compute in H. discriminate.
Qed.

(** *** The accumulator, and claim C3 *)

Lemma appends_ret {A} (a : A) : appends (ret a).
Proof. intros es. unfold ret, value_of, errors_of. simpl. now rewrite app_nil_r. Qed.

Lemma appends_push (msg : string) : appends (push msg).
Proof. intros es. reflexivity. Qed.

Lemma appends_bind {A B} (m : Errs A) (k : A -> Errs B) :
  appends m -> (forall a, appends (k a)) -> appends (bind m k).
Proof.
  intros Hm Hk es. unfold value_of, errors_of, bind.
  rewrite (Hm es), (Hm []). simpl.
  rewrite (Hk (value_of m) (es ++ errors_of m)), (Hk (value_of m) (errors_of m)).
  simpl. now rewrite app_assoc.
Qed.

Lemma errors_of_bind {A B} (m : Errs A) (k : A -> Errs B) :
  appends m -> (forall a, appends (k a)) ->
  errors_of (bind m k) = errors_of m ++ errors_of (k (value_of m)).
Proof.
  intros Hm Hk. unfold errors_of at 1, bind. rewrite (Hm []). simpl.
  now rewrite (Hk (value_of m) (errors_of m)).
Qed.

Lemma value_of_bind {A B} (m : Errs A) (k : A -> Errs B) :
  appends m -> (forall a, appends (k a)) ->
  value_of (bind m k) = value_of (k (value_of m)).
Proof.
  intros Hm Hk. unfold value_of at 1, bind. rewrite (Hm []). simpl.
  now rewrite (Hk (value_of m) (errors_of m)).
Qed.

Create HintDb appends_db.

Ltac appends_tac :=
  repeat first
    [ apply appends_ret
    | apply appends_push
    | apply appends_bind; [|intros ?]
    | match goal with
      | |- appends (if ?b then _ else _) => destruct b
      | |- appends (match ?x with _ => _ end) => destruct x
      | |- appends (let '(_, _) := ?x in _) => destruct x as [[? ?] ?]
      end ].

Lemma appends_requireValue value label : appends (requireValue value label).
Proof. unfold requireValue. appends_tac. Qed.

Lemma appends_parseTags value : appends (parseTags value).
Proof. unfold parseTags. appends_tac. Qed.

Lemma appends_parseRemote value : appends (parseRemote value).
Proof. unfold parseRemote. appends_tac. Qed.

Lemma appends_parseExpiryDate value : appends (parseExpiryDate value).
Proof. unfold parseExpiryDate. appends_tac. Qed.

Lemma appends_parseConfirmation value : appends (parseConfirmation value).
Proof. unfold parseConfirmation. appends_tac. Qed.

Section Pipeline.

Variable url_protocol : string -> option string.
Variable parse_timestamp : string -> option string.
Variable todayUtc : string.

Lemma appends_parseApplyUrl value : appends (parseApplyUrl url_protocol value).
Proof. unfold parseApplyUrl. appends_tac. Qed.

Lemma appends_toIsoDate value label : appends (toIsoDate parse_timestamp value label).
Proof. unfold toIsoDate. appends_tac. Qed.

Hint Resolve appends_requireValue appends_parseTags appends_parseRemote
  appends_parseExpiryDate appends_parseConfirmation appends_parseApplyUrl
  appends_toIsoDate appends_ret : appends_db.

Ltac bind_step lem :=
  rewrite lem; [| auto with appends_db | intros ?; appends_tac; auto with appends_db ].

Lemma appends_validate issue fields :
  appends (validate url_protocol parse_timestamp issue fields).
Proof. unfold validate. appends_tac; auto with appends_db. Qed.

(** The errors of one issue: those of each validator, in the order of the
    calls. *)
Lemma validate_errors issue (fields : gmap string string) :
  errors_of (validate url_protocol parse_timestamp issue fields)
  = errors_of (requireValue (fields !! "company") "Company name")
    ++ errors_of (requireValue (fields !! "title") "Role title")
    ++ errors_of (requireValue (fields !! "location") "Location")
    ++ errors_of (requireValue (fields !! "employmentType") "Employment type")
    ++ errors_of (requireValue (fields !! "seniority") "Seniority")
    ++ errors_of (requireValue (fields !! "description") "Description")
    ++ errors_of (parseTags (fields !! "tags"))
    ++ errors_of (parseRemote (fields !! "remote"))
    ++ errors_of (parseApplyUrl url_protocol (fields !! "applyUrl"))
    ++ errors_of (parseExpiryDate (fields !! "expiryDate"))
    ++ errors_of (parseConfirmation (fields !! "confirmation"))
    ++ errors_of (toIsoDate parse_timestamp (created_at issue) "createdAt")
    ++ errors_of (toIsoDate parse_timestamp (updated_at issue) "updatedAt").
Proof.
  unfold validate.
  do 13 bind_step @errors_of_bind.
  unfold errors_of at 14. simpl. now rewrite app_nil_r.
Qed.

Lemma validate_values issue (fields : gmap string string) :
  value_of (validate url_protocol parse_timestamp issue fields)
  = mkValidated
      (value_of (requireValue (fields !! "company") "Company name"))
      (value_of (requireValue (fields !! "title") "Role title"))
      (value_of (requireValue (fields !! "location") "Location"))
      (value_of (requireValue (fields !! "employmentType") "Employment type"))
      (value_of (requireValue (fields !! "seniority") "Seniority"))
      (value_of (requireValue (fields !! "description") "Description"))
      (value_of (parseTags (fields !! "tags")))
      (value_of (parseRemote (fields !! "remote")))
      (value_of (parseApplyUrl url_protocol (fields !! "applyUrl")))
      (value_of (parseExpiryDate (fields !! "expiryDate")))
      (value_of (toIsoDate parse_timestamp (created_at issue) "createdAt"))
      (value_of (toIsoDate parse_timestamp (updated_at issue) "updatedAt")).
Proof.
  unfold validate.
  do 13 bind_step @value_of_bind.
  reflexivity.
Qed.


Lemma parseRemote_ok value :
  errors_of (parseRemote value) = [] -> exists b, value_of (parseRemote value) = Some b.
Proof.
  unfold parseRemote.
  destruct (missing value); [discriminate|].
  destruct (bool_decide _); [eauto|].
  destruct (bool_decide _); [eauto|]. discriminate.
Qed.

Lemma parseApplyUrl_ok value :
  errors_of (parseApplyUrl url_protocol value) = [] ->
  exists u, value_of (parseApplyUrl url_protocol value) = Some u.
Proof.
  unfold parseApplyUrl.
  destruct (missing value); [discriminate|].
  destruct (url_protocol _); [|discriminate].
  destruct (_ && _); [discriminate | eauto].
Qed.

Lemma parseExpiryDate_ok value :
  errors_of (parseExpiryDate value) = [] ->
  exists e, value_of (parseExpiryDate value) = Some e
            /\ value = Some e /\ date_regex e = true.
Proof.
  unfold parseExpiryDate.
  destruct value as [v|]; [|discriminate].
  destruct (missing (Some v)); [discriminate|]. simpl default.
  destruct (date_regex v) eqn:E; [|discriminate]. simpl negb.
  destruct (date_parts v) as [[year month] day].
  match goal with |- context [negb ?b] => destruct b end; [|discriminate].
  intros _. exists v. auto.
Qed.

Lemma toIsoDate_ok value label :
  errors_of (toIsoDate parse_timestamp value label) = [] ->
  exists iso, value_of (toIsoDate parse_timestamp value label) = Some iso
              /\ parse_timestamp value = Some iso.
Proof.
  unfold toIsoDate. destruct (parse_timestamp value); [eauto | discriminate].
Qed.

(** With no error, none of the nullable constants is [null]: the record
    is built. *)
Lemma validate_defined issue (fields : gmap string string) :
  errors_of (validate url_protocol parse_timestamp issue fields) = [] ->
  exists job,
    job_of issue fields (value_of (validate url_protocol parse_timestamp issue fields))
    = Some job
    /\ fields !! "expiryDate" = Some (expiryDate job)
    /\ date_regex (expiryDate job) = true
    /\ id job = number issue.
Proof.
  rewrite validate_errors, validate_values. intros H.
  repeat (apply app_eq_nil in H as [? H]).
  destruct (parseRemote_ok _ ltac:(eassumption)) as [b Hb].
  destruct (parseApplyUrl_ok _ ltac:(eassumption)) as [u Hu].
  destruct (parseExpiryDate_ok _ ltac:(eassumption)) as (e & He & Hfe & Hre).
  destruct (toIsoDate_ok (created_at issue) _ ltac:(eassumption)) as (c & Hc & _).
  destruct (toIsoDate_ok (updated_at issue) _ ltac:(eassumption)) as (d & Hd & _).
  unfold job_of. simpl. rewrite Hb, Hu, He, Hc, Hd.
  eexists. split; [reflexivity|]. simpl. auto.
Qed.

(** An issue with an error goes to [invalidIssues], with all its errors. *)
Lemma build_issue_invalid acc issue :
  let errs := errors_of (validate url_protocol parse_timestamp issue
                           (parseIssueForm (default "" (body issue)))) in
  errs <> [] ->
  build_issue url_protocol parse_timestamp todayUtc acc issue
  = mkBuilt (jobs acc)
      (invalidIssues acc ++ [mkInvalid (number issue) (issue_title issue) errs])
      (expiredCount acc).
Proof.
  intros errs Hne. unfold build_issue.
  rewrite (appends_validate issue _ []). simpl app. fold errs.
  destruct errs; [congruence | reflexivity].
Qed.

(** An issue with no error is counted as expired or pushed to [jobs]. *)
Lemma build_issue_valid acc issue :
  errors_of (validate url_protocol parse_timestamp issue
               (parseIssueForm (default "" (body issue)))) = [] ->
  exists job,
    job_of issue (parseIssueForm (default "" (body issue)))
      (value_of (validate url_protocol parse_timestamp issue
                   (parseIssueForm (default "" (body issue))))) = Some job
    /\ date_regex (expiryDate job) = true
    /\ build_issue url_protocol parse_timestamp todayUtc acc issue
       = if Js.lt (expiryDate job) todayUtc
         then mkBuilt (jobs acc) (invalidIssues acc) (expiredCount acc + 1)
         else mkBuilt (jobs acc ++ [job]) (invalidIssues acc) (expiredCount acc).
Proof.
  intros He. destruct (validate_defined issue _ He) as (job & Hj & _ & Hr & _).
  exists job. split; [exact Hj|]. split; [exact Hr|].
  unfold build_issue. rewrite (appends_validate issue _ []), He. simpl.
  rewrite Hj. reflexivity.
Qed.

(** C3. The errors of a submission are those of every validator: the six
    required texts, the tags, the remote flag, the apply URL, the expiry
    date, the confirmation and the two timestamps, each run whatever the
    others reported, in the order of the calls; the submission fails, with
    the whole list, when the list is not empty. A submission with neither
    an apply URL nor an expiry date has both messages in its list. *)
Theorem validate_collects_all issue (fields : gmap string string) :
  let errs := errors_of (validate url_protocol parse_timestamp issue fields) in
  errs
  = errors_of (requireValue (fields !! "company") "Company name")
    ++ errors_of (requireValue (fields !! "title") "Role title")
    ++ errors_of (requireValue (fields !! "location") "Location")
    ++ errors_of (requireValue (fields !! "employmentType") "Employment type")
    ++ errors_of (requireValue (fields !! "seniority") "Seniority")
    ++ errors_of (requireValue (fields !! "description") "Description")
    ++ errors_of (parseTags (fields !! "tags"))
    ++ errors_of (parseRemote (fields !! "remote"))
    ++ errors_of (parseApplyUrl url_protocol (fields !! "applyUrl"))
    ++ errors_of (parseExpiryDate (fields !! "expiryDate"))
    ++ errors_of (parseConfirmation (fields !! "confirmation"))
    ++ errors_of (toIsoDate parse_timestamp (created_at issue) "createdAt")
    ++ errors_of (toIsoDate parse_timestamp (updated_at issue) "updatedAt")
  /\ (forall es, (validate url_protocol parse_timestamp issue fields es).2 = es ++ errs)
  /\ (missing (fields !! "applyUrl") = true ->
      missing (fields !! "expiryDate") = true ->
      In "Apply URL is required" errs /\ In "Expiry date is required" errs)
  /\ (forall acc,
        fields = parseIssueForm (default "" (body issue)) ->
        errs <> [] ->
        build_issue url_protocol parse_timestamp todayUtc acc issue
        = mkBuilt (jobs acc)
            (invalidIssues acc ++ [mkInvalid (number issue) (issue_title issue) errs])
            (expiredCount acc)).
Proof.
  intros errs. split; [apply validate_errors|].
  split; [intros es; now rewrite (appends_validate issue fields es)|].
  split.
  - intros Hu He. unfold errs. rewrite validate_errors.
    assert (Eu : errors_of (parseApplyUrl url_protocol (fields !! "applyUrl"))
                 = ["Apply URL is required"])
      by (unfold parseApplyUrl; now rewrite Hu).
    assert (Ee : errors_of (parseExpiryDate (fields !! "expiryDate"))
                 = ["Expiry date is required"])
      by (unfold parseExpiryDate; now rewrite He).
    rewrite Eu, Ee. rewrite !in_app_iff. simpl. tauto.
  - intros acc -> Hne. now apply build_issue_invalid.
Qed.

End Pipeline.

(** ** Expiry: the order of the strings is the order of the dates *)

Lemma digit_bounds (c : ascii) :
  Js.is_digit c = true -> (48 <= Js.code c <= 57)%N.
Proof.
  unfold Js.is_digit. intros [H1 H2]%andb_prop.
  apply N.leb_le in H1, H2. lia.
Qed.

Lemma digit_not_dash (c : ascii) : Js.is_digit c = true -> Ascii.eqb c "-"%char = false.
Proof.
  intros H. destruct (Ascii.eqb_spec c "-"%char) as [-> | _]; [|reflexivity].
  vm_compute in H. discriminate.
Qed.

Lemma date_regex_shape (s : string) :
  date_regex s = true ->
  exists y1 y2 y3 y4 m1 m2 d1 d2,
    s = Js.implode [y1; y2; y3; y4; "-"%char; m1; m2; "-"%char; d1; d2]
    /\ Forall (fun c => Js.is_digit c = true) [y1; y2; y3; y4; m1; m2; d1; d2].
Proof.
  unfold date_regex. intros H.
  rewrite <- (implode_explode s).
  destruct (Js.explode s) as [|y1 [|y2 [|y3 [|y4 [|h1 [|m1 [|m2 [|h2 [|d1 [|d2 [|? ?]]]]]]]]]]];
    try discriminate.
  apply andb_prop in H as [H H2]. apply andb_prop in H as [H H1].
  apply Ascii.eqb_eq in H1, H2. subst h1 h2.
  exists y1, y2, y3, y4, m1, m2, d1, d2. split; [reflexivity|].
  simpl in H. repeat (apply andb_prop in H as [? H]).
  repeat constructor; assumption.
Qed.

Lemma date_parts_shape (y1 y2 y3 y4 m1 m2 d1 d2 : ascii) :
  Forall (fun c => Js.is_digit c = true) [y1; y2; y3; y4; m1; m2; d1; d2] ->
  let v c := Z.of_N (Js.code c) - 48 in
  date_parts (Js.implode [y1; y2; y3; y4; "-"%char; m1; m2; "-"%char; d1; d2])
  = (1000 * v y1 + 100 * v y2 + 10 * v y3 + v y4, 10 * v m1 + v m2, 10 * v d1 + v d2).
Proof.
  intros H v.
  repeat match goal with
         | H : Forall _ (_ :: _) |- _ => inversion H; clear H; subst
         end.
  unfold date_parts, Js.split. rewrite explode_implode. simpl Js.split_chars.
  rewrite !digit_not_dash by assumption. simpl Js.split_chars.
  cbn [map]. rewrite !explode_implode.
  unfold Js.digits_value. cbn [fold_left]. fold (v y1) (v y2) (v y3) (v y4) (v m1) (v m2) (v d1) (v d2).
  f_equal; first [lia | f_equal; lia].
Qed.

(** On two strings of the form YYYY-MM-DD, [<] is the order of the dates. *)
Lemma date_order (a b : string) :
  date_regex a = true -> date_regex b = true ->
  (Js.lt a b = true <-> date_lt (date_parts a) (date_parts b)).
Proof.
  intros Ha Hb.
  destruct (date_regex_shape a Ha) as (y1 & y2 & y3 & y4 & m1 & m2 & d1 & d2 & -> & Da).
  destruct (date_regex_shape b Hb) as (z1 & z2 & z3 & z4 & n1 & n2 & e1 & e2 & -> & Db).
  rewrite (date_parts_shape _ _ _ _ _ _ _ _ Da), (date_parts_shape _ _ _ _ _ _ _ _ Db).
  repeat match goal with
         | H : Forall _ (_ :: _) |- _ => inversion H; clear H; subst
         | H : Js.is_digit _ = true |- _ => apply digit_bounds in H
         end.
  unfold date_lt, Js.lt, String.ltb. cbn [Js.implode string_of_list_ascii String.compare fst snd].
  unfold Ascii.compare. fold (Js.code y1) (Js.code y2) (Js.code y3) (Js.code y4)
    (Js.code m1) (Js.code m2) (Js.code d1) (Js.code d2)
    (Js.code z1) (Js.code z2) (Js.code z3) (Js.code z4)
    (Js.code n1) (Js.code n2) (Js.code e1) (Js.code e2).
  change (N_of_ascii "-") with 45%N. cbn [N.compare Pos.compare Pos.compare_cont].
  repeat match goal with
         | |- context [(?x ?= ?y)%N] => destruct (N.compare_spec x y)
         end;
    (split; [intros; try discriminate | intros; try reflexivity; exfalso]); lia.
Qed.

(** ** The batch *)

Section Feed.

Variable url_protocol : string -> option string.
Variable parse_timestamp : string -> option string.
Variable todayUtc : string.

Local Abbreviation build_issue' := (build_issue url_protocol parse_timestamp todayUtc).
Local Abbreviation buildJobs' := (buildJobs url_protocol parse_timestamp todayUtc).
Local Abbreviation failing' := (failing url_protocol parse_timestamp).
Local Abbreviation valid_records' := (valid_records url_protocol parse_timestamp).
Local Abbreviation issue_errors' := (issue_errors url_protocol parse_timestamp).
Local Abbreviation expired := (fun j : Job => isExpired todayUtc (expiryDate j)).
Local Abbreviation live := (fun j : Job => negb (isExpired todayUtc (expiryDate j))).

Lemma fails_iff issue :
  fails url_protocol parse_timestamp issue = true <-> issue_errors' issue <> [].
Proof.
  unfold fails. destruct (issue_errors' issue); simpl.
  - split; [discriminate | intros H; now elim H].
  - split; [discriminate | reflexivity].
Qed.

Lemma valid_records_cons issue issues :
  valid_records' (issue :: issues)
  = match issue_record url_protocol parse_timestamp issue with
    | Some job => job :: valid_records' issues
    | None => valid_records' issues
    end.
Proof. reflexivity. Qed.

Lemma failing_cons issue issues :
  failing' (issue :: issues)
  = if fails url_protocol parse_timestamp issue
    then mkInvalid (number issue) (issue_title issue) (issue_errors' issue)
         :: failing' issues
    else failing' issues.
Proof.
  unfold failing. simpl.
  now destruct (fails url_protocol parse_timestamp issue).
Qed.

Lemma build_fold issues acc :
  fold_left build_issue' issues acc
  = mkBuilt (jobs acc ++ List.filter live (valid_records' issues))
      (invalidIssues acc ++ failing' issues)
      (expiredCount acc + length (List.filter expired (valid_records' issues))).
Proof.
  revert acc. induction issues as [|issue issues IH]; intros acc.
  - simpl. rewrite !app_nil_r, Nat.add_0_r. now destruct acc.
  - change (fold_left build_issue' (issue :: issues) acc)
      with (fold_left build_issue' issues (build_issue' acc issue)).
    rewrite IH, valid_records_cons, failing_cons. unfold issue_record.
    destruct (fails url_protocol parse_timestamp issue) eqn:Ef.
    + apply fails_iff in Ef.
      rewrite (build_issue_invalid url_protocol parse_timestamp todayUtc acc issue Ef).
      simpl. now rewrite <- app_assoc.
    + assert (He : issue_errors' issue = []).
      { destruct (issue_errors' issue) eqn:E; [reflexivity|].
        unfold fails in Ef. rewrite E in Ef. discriminate. }
      destruct (build_issue_valid url_protocol parse_timestamp todayUtc acc issue He)
        as (job & Hj & _ & ->).
      rewrite Hj. simpl List.filter. unfold isExpired.
      destruct (Js.lt (expiryDate job) todayUtc); simpl.
      * f_equal. lia.
      * now rewrite <- app_assoc.
Qed.

Lemma buildJobs_parts issues :
  jobs (buildJobs' issues) = List.filter live (valid_records' issues)
  /\ invalidIssues (buildJobs' issues) = failing' issues
  /\ expiredCount (buildJobs' issues)
     = length (List.filter expired (valid_records' issues)).
Proof. unfold buildJobs. rewrite build_fold. simpl. auto. Qed.

Lemma valid_record_format issues job :
  In job (valid_records' issues) -> date_regex (expiryDate job) = true.
Proof.
  unfold valid_records. intros H. apply list_elem_of_In in H.
  apply list_elem_of_omap in H as (issue & _ & Hr).
  unfold issue_record in Hr.
  destruct (fails url_protocol parse_timestamp issue) eqn:Ef; [discriminate|].
  assert (He : issue_errors' issue = []).
  { destruct (issue_errors' issue) eqn:E; [reflexivity|].
    unfold fails in Ef. rewrite E in Ef. discriminate. }
  destruct (validate_defined url_protocol parse_timestamp issue _ He)
    as (job' & Hj & _ & Hfmt & _).
  rewrite Hj in Hr. now injection Hr as <-.
Qed.

Lemma compare_refl (s : string) : String.compare s s = Eq.
Proof.
  induction s as [|c s IH]; simpl; [reflexivity|].
  unfold Ascii.compare. now rewrite N.compare_refl.
Qed.

Lemma lt_irrefl (s : string) : Js.lt s s = false.
Proof. unfold Js.lt, String.ltb. now rewrite compare_refl. Qed.

(** C6. The valid records of a batch are split by [isExpired]: the feed
    keeps, in order, those whose [expiryDate] is not below today's date as
    a string, the others are counted in [expiredCount], and none of them
    is added to [invalidIssues], which holds the failing submissions
    only. So a valid record is left out if and only if its [expiryDate]
    is below today's date in the order of the strings; a record dated
    today is kept. The [expiryDate] of a valid record has the form
    YYYY-MM-DD, and against a date of today of that form the order of the
    strings is the order of the calendar, so a record dated the day
    before, or any earlier day, is dropped. With today 2024-06-15,
    2024-06-15 is kept and 2024-06-14 is dropped. *)
Theorem expired_iff_before_today (issues : list Issue) :
  let built := buildJobs' issues in
  let records := valid_records' issues in
  jobs built = List.filter (fun j => negb (Js.lt (expiryDate j) todayUtc)) records
  /\ expiredCount built
     = length (List.filter (fun j => Js.lt (expiryDate j) todayUtc) records)
  /\ invalidIssues built = failing' issues
  /\ (forall job, In job records ->
        (~ In job (jobs built) <-> Js.lt (expiryDate job) todayUtc = true))
  /\ (forall job, In job records -> expiryDate job = todayUtc -> In job (jobs built))
  /\ (forall job, In job records ->
        date_regex (expiryDate job) = true
        /\ (date_regex todayUtc = true ->
            (Js.lt (expiryDate job) todayUtc = true
             <-> date_lt (date_parts (expiryDate job)) (date_parts todayUtc))))
  /\ isExpired "2024-06-15" "2024-06-15" = false
  /\ isExpired "2024-06-15" "2024-06-14" = true.
Proof.
  intros built records.
  destruct (buildJobs_parts issues) as (Hj & Hi & He).
  split; [exact Hj|]. split; [exact He|]. split; [exact Hi|].
  split.
  { intros job Hin. unfold built. rewrite Hj, filter_In. fold records.
    unfold isExpired. destruct (Js.lt (expiryDate job) todayUtc); simpl.
    - split; [reflexivity|]. intros _ [_ H]. discriminate.
    - split; [|discriminate]. intros H. exfalso. apply H. auto. }
  split.
  { intros job Hin Heq. unfold built. rewrite Hj, filter_In. split; [exact Hin|].
    unfold isExpired. now rewrite Heq, lt_irrefl. }
  split.
  { intros job Hin. pose proof (valid_record_format issues job Hin) as Hf.
    split; [exact Hf|]. intros Ht. now apply date_order. }
  split; reflexivity.
Qed.

End Feed.

Lemma expired_iff_before_today_witness :
  let job := mkJob 9 "2024-01-01T00:00:00.000Z" "2024-01-02T00:00:00.000Z"
               "Blazor developer" "Acme" "Berlin" true "Full-time" "Senior"
               ["Blazor"; "C#"] "https://example.com/a" "Build things." None
               "2024-06-14" in
  date_regex (expiryDate job) = true
  /\ (date_regex Sample.todayUtc = true ->
      (Js.lt (expiryDate job) Sample.todayUtc = true
       <-> date_lt (date_parts (expiryDate job)) (date_parts Sample.todayUtc))).
Proof.
  intros job.
  apply (proj1 (proj2 (proj2 (proj2 (proj2 (proj2
           (expired_iff_before_today Sample.url_protocol Sample.parse_timestamp
              Sample.todayUtc
              [Sample.issue 9 "https://example.com/a" "2024-06-14"
                 "2024-01-02T00:00:00Z"]))))))).
  vm_compute. auto.
Defined.

(** ** Sorting *)

Section SortFacts.
Context {A : Type} (comparefn : A -> A -> Z).

Lemma sort_insert_perm (x : A) (l : list A) :
  Permutation (sort_insert comparefn x l) (x :: l).
Proof.
  induction l as [|y l IH]; simpl; [reflexivity|].
  destruct (comparefn x y <=? 0); [reflexivity|].
  rewrite IH. apply perm_swap.
Qed.

Lemma sort_perm (l : list A) : Permutation (sort comparefn l) l.
Proof.
  induction l as [|x l IH]; simpl; [reflexivity|].
  rewrite sort_insert_perm. now constructor.
Qed.

(** Elements that are pairwise not put after one another keep their
    order. *)
Lemma sort_insert_stable (p : A -> bool) (x : A) (l : list A) :
  (forall a b, p a = true -> p b = true -> comparefn a b <= 0) ->
  List.filter p (sort_insert comparefn x l) = List.filter p (x :: l).
Proof.
  intros Hp. induction l as [|y l IH]; [reflexivity|].
  simpl sort_insert. destruct (comparefn x y <=? 0) eqn:E; [reflexivity|].
  apply Z.leb_gt in E.
  change (List.filter p (y :: sort_insert comparefn x l))
    with (if p y then y :: List.filter p (sort_insert comparefn x l)
          else List.filter p (sort_insert comparefn x l)).
  rewrite IH. simpl.
  destruct (p x) eqn:Ex, (p y) eqn:Ey; try reflexivity.
  specialize (Hp x y Ex Ey). lia.
Qed.

Lemma sort_stable (p : A -> bool) (l : list A) :
  (forall a b, p a = true -> p b = true -> comparefn a b <= 0) ->
  List.filter p (sort comparefn l) = List.filter p l.
Proof.
  intros Hp. induction l as [|x l IH]; [reflexivity|].
  simpl sort. rewrite (sort_insert_stable p x _ Hp). simpl. now rewrite IH.
Qed.

Hypothesis comparefn_sgn : forall a b, Z.sgn (comparefn a b) = - Z.sgn (comparefn b a).
Hypothesis comparefn_trans :
  forall a b c, comparefn a b <= 0 -> comparefn b c <= 0 -> comparefn a c <= 0.

Lemma sort_insert_sorted (x : A) (l : list A) :
  StronglySorted (fun a b => comparefn a b <= 0) l ->
  StronglySorted (fun a b => comparefn a b <= 0) (sort_insert comparefn x l).
Proof.
  induction l as [|y l IH]; intros Hs; simpl.
  - repeat constructor.
  - inversion Hs as [|? ? Hs' Hy]; subst.
    destruct (comparefn x y <=? 0) eqn:E.
    + apply Z.leb_le in E. constructor; [exact Hs|].
      constructor; [exact E|].
      eapply Forall_impl; [exact Hy|]. intros z Hz. simpl in Hz. eauto.
    + apply Z.leb_gt in E. constructor; [now apply IH|].
      rewrite sort_insert_perm. constructor; [|exact Hy].
      pose proof (comparefn_sgn x y). lia.
Qed.

Lemma sort_sorted (l : list A) :
  StronglySorted (fun a b => comparefn a b <= 0) (sort comparefn l).
Proof.
  induction l as [|x l IH]; simpl; [constructor | now apply sort_insert_sorted].
Qed.

End SortFacts.

Lemma sample_localeCompare_sgn (a b : string) :
  Z.sgn (Sample.localeCompare a b) = - Z.sgn (Sample.localeCompare b a).
Proof.
  unfold Sample.localeCompare. rewrite (String.compare_antisym b a).
  now destruct (String.compare a b).
Qed.

Lemma sample_localeCompare_le (a b : string) :
  Sample.localeCompare a b <= 0 <-> String.le a b.
Proof.
  unfold Sample.localeCompare, String.le, String.leb.
  destruct (String.compare a b); simpl; split; intros; try lia; try exact I; try contradiction.
Qed.

Lemma sample_localeCompare_trans (a b c : string) :
  Sample.localeCompare a b <= 0 -> Sample.localeCompare b c <= 0 ->
  Sample.localeCompare a c <= 0.
Proof.
  rewrite !sample_localeCompare_le. intros H1 H2. now transitivity b.
Qed.

(** ** The run *)

(** ** Lines of a report *)

Lemma split_chars_free (sep : ascii) (l : Js.chars) :
  ~ In sep l -> Js.split_chars sep l = [l].
Proof.
  induction l as [|c l IH]; intros H; [reflexivity|].
  simpl. destruct (Ascii.eqb_spec c sep) as [-> | Hne].
  - exfalso. apply H. now left.
  - rewrite IH; [reflexivity|]. intros Hin. apply H. now right.
Qed.

Lemma split_chars_app (sep : ascii) (l rest : Js.chars) :
  ~ In sep l ->
  Js.split_chars sep (l ++ sep :: rest) = l :: Js.split_chars sep rest.
Proof.
  induction l as [|c l IH]; intros H.
  - simpl. now rewrite Ascii.eqb_refl.
  - simpl. destruct (Ascii.eqb_spec c sep) as [-> | Hne].
    + exfalso. apply H. now left.
    + rewrite IH; [reflexivity|]. intros Hin. apply H. now right.
Qed.

(** Cutting at the separator undoes joining with it, when no piece holds
    the separator. *)
Lemma split_of_join (sep : ascii) (ls : list string) :
  ls <> [] ->
  Forall (fun piece => ~ In sep (Js.explode piece)) ls ->
  Js.split sep (Js.join (String sep "") ls) = ls.
Proof.
  intros Hne Hall. unfold Js.split.
  induction ls as [|x ls IH]; [congruence|].
  inversion Hall as [|? ? Hx Hls]; subst.
  destruct ls as [|y ls].
  - simpl. rewrite (split_chars_free _ _ Hx). simpl. now rewrite implode_explode.
  - change (Js.join (String sep "") (x :: y :: ls))
      with (x +:+ String sep (Js.join (String sep "") (y :: ls))).
    rewrite explode_app.
    change (Js.explode (String sep (Js.join (String sep "") (y :: ls))))
      with (sep :: Js.explode (Js.join (String sep "") (y :: ls))).
    rewrite (split_chars_app _ _ _ Hx). simpl map at 1.
    rewrite implode_explode. f_equal. apply IH; [discriminate | exact Hls].
Qed.

Lemma StronglySorted_weaken {A} (R R' : A -> A -> Prop) (l : list A) :
  (forall a b, R a b -> R' a b) -> StronglySorted R l -> StronglySorted R' l.
Proof.
  intros HR. induction 1 as [|x l Hs IH Hx]; constructor; [exact IH|].
  eapply Forall_impl; [exact Hx|]. intros y. apply HR.
Qed.

Section Run.

Variable url_protocol : string -> option string.
Variable parse_timestamp : string -> option string.
Variable todayUtc : string.
Variable localeCompare : string -> string -> Z.
Variable stringify : list Job -> string.
Variable schema_errors : list Job -> option (list (string * string)).

Local Abbreviation buildJobs' := (buildJobs url_protocol parse_timestamp todayUtc).
Local Abbreviation main' :=
  (main url_protocol parse_timestamp todayUtc localeCompare stringify schema_errors).
Local Abbreviation sort_jobs' := (sort_jobs localeCompare).

Lemma main_valid outputPath issues files :
  invalidIssues (buildJobs' issues) = [] ->
  main' outputPath (inr issues) files
  = (<[outputPath := stringify (sort_jobs' (jobs (buildJobs' issues))) +:+ Js.LF]> files,
     match validateSchema schema_errors (sort_jobs' (jobs (buildJobs' issues))) with
     | Some message => Thrown message
     | None => Resolved
     end).
Proof.
  intros H. unfold main. rewrite H. simpl.
  now destruct (validateSchema _ _).
Qed.

Lemma main_invalid outputPath issues files :
  invalidIssues (buildJobs' issues) <> [] ->
  main' outputPath (inr issues) files
  = (files, Thrown (invalid_report (invalidIssues (buildJobs' issues)))).
Proof.
  intros H. unfold main.
  destruct (invalidIssues (buildJobs' issues)); [congruence | reflexivity].
Qed.

(** C7. When the comparison of the platform is a consistent order (its sign
    flips with its arguments, and it is transitive), the sorted records
    are the records, rearranged; a record never stands before one with a
    greater [updatedAt]; and records that compare equal to one another
    keep the order they came in. The feed written by a run without a
    failing submission is the list so sorted. When
    "2024-01-03T00:00:00.000Z" compares above "2024-01-02T00:00:00.000Z",
    records 1, 2 and 3 updated on the 2nd, the 3rd and the 2nd come out as
    2, 1, 3. *)
Theorem feed_sorted_stable :
  (forall a b, Z.sgn (localeCompare a b) = - Z.sgn (localeCompare b a)) ->
  (forall a b c, localeCompare a b <= 0 -> localeCompare b c <= 0 ->
                 localeCompare a c <= 0) ->
  (forall js : list Job,
      Permutation (sort_jobs' js) js
      /\ StronglySorted
           (fun a b => 0 <= localeCompare (updatedAt a) (updatedAt b)) (sort_jobs' js)
      /\ (forall p : Job -> bool,
            (forall a b, p a = true -> p b = true ->
                         localeCompare (updatedAt a) (updatedAt b) = 0) ->
            List.filter p (sort_jobs' js) = List.filter p js))
  /\ (forall outputPath issues files,
        invalidIssues (buildJobs' issues) = [] ->
        (main' outputPath (inr issues) files).1 !! outputPath
        = Some (stringify (sort_jobs' (jobs (buildJobs' issues))) +:+ Js.LF))
  /\ (0 < localeCompare "2024-01-03T00:00:00.000Z" "2024-01-02T00:00:00.000Z" ->
      map id (sort_jobs' [Sample.job_at 1 "2024-01-02T00:00:00.000Z";
                          Sample.job_at 2 "2024-01-03T00:00:00.000Z";
                          Sample.job_at 3 "2024-01-02T00:00:00.000Z"])
      = [2; 1; 3]%N).
Proof.
  intros Hsgn Htrans.
  set (cmp := fun a b : Job => localeCompare (updatedAt b) (updatedAt a)).
  assert (Hrefl : forall t, localeCompare t t = 0).
  { intros t. pose proof (Hsgn t t). lia. }
  split; [|split].
  - intros js. split; [apply sort_perm|]. split.
    + assert (Hs : StronglySorted (fun a b => cmp a b <= 0) (sort_jobs' js)).
      { apply sort_sorted; unfold cmp; [intros; apply Hsgn | intros; eauto]. }
      eapply StronglySorted_weaken; [|exact Hs]. unfold cmp. intros a b Hab.
      pose proof (Hsgn (updatedAt a) (updatedAt b)). lia.
    + intros p Hp. apply sort_stable. intros a b Ha Hb.
      rewrite (Hp b a Hb Ha). lia.
  - intros outputPath issues files H. rewrite (main_valid _ _ _ H). simpl.
    apply lookup_insert_eq.
  - intros Hgt. unfold sort_jobs, sort. simpl.
    pose proof (Hsgn "2024-01-03T00:00:00.000Z" "2024-01-02T00:00:00.000Z") as Ha.
    pose proof (Hrefl "2024-01-02T00:00:00.000Z") as Hr.
    destruct (Z.leb_spec (localeCompare "2024-01-02T00:00:00.000Z" "2024-01-03T00:00:00.000Z") 0);
      [|lia].
    simpl.
    destruct (Z.leb_spec (localeCompare "2024-01-03T00:00:00.000Z" "2024-01-02T00:00:00.000Z") 0);
      [lia|].
    simpl. rewrite Hr. reflexivity.
Qed.


(** C1 (the code). When no submission fails and the assembled feed does
    not conform to the schema, [main] has written the feed to [outputPath]
    by the time [validateSchema] throws: the run fails and the file is
    there, created or overwritten. *)
Theorem schema_failure_after_write outputPath issues files message :
  invalidIssues (buildJobs' issues) = [] ->
  validateSchema schema_errors (sort_jobs' (jobs (buildJobs' issues))) = Some message ->
  main' outputPath (inr issues) files
  = (<[outputPath := stringify (sort_jobs' (jobs (buildJobs' issues))) +:+ Js.LF]> files,
     Thrown message).
Proof. intros H Hs. now rewrite (main_valid _ _ _ H), Hs. Qed.

End Run.

(** ** The theorems at concrete submissions *)

Lemma validate_collects_all_witness :
  let issue := Sample.issue 10 "" "" "2024-01-02T00:00:00Z" in
  let errs := errors_of (validate Sample.url_protocol Sample.parse_timestamp issue
                           (parseIssueForm (default "" (body issue)))) in
  In "Apply URL is required" errs /\ In "Expiry date is required" errs.
Proof.
  intros issue errs.
  apply (proj1 (proj2 (proj2
           (validate_collects_all Sample.url_protocol Sample.parse_timestamp
              Sample.todayUtc issue (parseIssueForm (default "" (body issue)))))));
    vm_compute; reflexivity.
Defined.

Lemma feed_sorted_stable_witness :
  0 < Sample.localeCompare "2024-01-03T00:00:00.000Z" "2024-01-02T00:00:00.000Z"
  /\ map id (sort_jobs Sample.localeCompare
               [Sample.job_at 1 "2024-01-02T00:00:00.000Z";
                Sample.job_at 2 "2024-01-03T00:00:00.000Z";
                Sample.job_at 3 "2024-01-02T00:00:00.000Z"])
     = [2; 1; 3]%N.
Proof.
  assert (H : 0 < Sample.localeCompare "2024-01-03T00:00:00.000Z" "2024-01-02T00:00:00.000Z")
    by (vm_compute; reflexivity).
  split; [exact H|].
  exact (proj2 (proj2
           (feed_sorted_stable Sample.url_protocol Sample.parse_timestamp Sample.todayUtc
              Sample.localeCompare Sample.stringify Sample.schema_errors
              sample_localeCompare_sgn sample_localeCompare_trans)) H).
Defined.



(** The run of that counterexample, in full: one failing submission, and a
    report of three lines. *)
Example two_line_remote_report :
  let run := main Sample.url_protocol Sample.parse_timestamp Sample.todayUtc
               Sample.localeCompare Sample.stringify Sample.schema_errors
               "public/jobs.json" (inr [SampleRemote.undecided]) ∅ in
  parseIssueForm (SampleRemote.body_of ["Yes, mostly"; "No on Fridays"]) !! "remote"
  = Some ("Yes, mostly" +:+ Js.LF +:+ "No on Fridays")
  /\ issue_errors Sample.url_protocol Sample.parse_timestamp SampleRemote.undecided
     = ["Remote must be Yes or No (got " +:+ quote +:+ "Yes, mostly" +:+ Js.LF
        +:+ "No on Fridays" +:+ quote +:+ ")"]
  /\ length (failing Sample.url_protocol Sample.parse_timestamp [SampleRemote.undecided]) = 1%nat
  /\ run.1 = ∅
  /\ exists report,
       run.2 = Thrown report
       /\ Js.split "010"%char report
          = [ "Invalid approved job issues:";
              "#11 Blazor developer at Acme: Remote must be Yes or No (got " +:+ quote
              +:+ "Yes, mostly";
              "No on Fridays" +:+ quote +:+ ")" ].
Proof.
  split; [vm_compute; reflexivity|].
  split; [vm_compute; reflexivity|].
  split; [reflexivity|].
  split; [vm_compute; reflexivity|].
  eexists. split; vm_compute; reflexivity.
Qed.

Lemma schema_failure_after_write_witness :
  main Sample.url_protocol Sample.parse_timestamp Sample.todayUtc Sample.localeCompare
    Sample.stringify Sample.schema_errors "public/jobs.json"
    (inr [Sample.issue 7 "https://example.com/a b" "2024-12-31" "2024-01-02T00:00:00Z"])
    {[ "public/jobs.json" := "[]" ]}
  = ({[ "public/jobs.json" := "[7]" +:+ Js.LF ]},
     Thrown "Schema validation failed: /0/applyUrl must match format uri").
Proof.
  refine (eq_trans
            (schema_failure_after_write Sample.url_protocol Sample.parse_timestamp
               Sample.todayUtc Sample.localeCompare Sample.stringify Sample.schema_errors
               "public/jobs.json" _ _
               "Schema validation failed: /0/applyUrl must match format uri" _ _) _);
    vm_compute; reflexivity.
Defined.

(** ** The validators and the run on concrete values *)

Example expiry_leap_day :
  parseExpiryDate (Some "2024-02-29") [] = (Some "2024-02-29", []).
Proof. reflexivity. Qed.

Example expiry_no_such_day :
  parseExpiryDate (Some "2024-02-30") []
  = (None, ["Expiry date must be a valid calendar date"]).
Proof. reflexivity. Qed.

Example expiry_wrong_format :
  parseExpiryDate (Some "2024-2-29") []
  = (None, ["Expiry date must be in YYYY-MM-DD format"]).
Proof. reflexivity. Qed.

Example remote_words :
  map (fun v => (parseRemote (Some v) []).1) ["Yes"; "y"; "TRUE"; "No"; "maybe"]
  = [Some true; Some true; Some true; Some false; None].
Proof. reflexivity. Qed.

Example remote_error_names_value :
  (parseRemote (Some "maybe") []).2
  = ["Remote must be Yes or No (got " +:+ quote +:+ "maybe" +:+ quote +:+ ")"].
Proof. reflexivity. Qed.

Example apply_url_scheme :
  parseApplyUrl Sample.url_protocol (Some "ftp://example.com/job") []
  = (None, ["Apply URL must start with http:// or https://"]).
Proof. reflexivity. Qed.

Example heading_levels :
  map heading_key ["# Location"; "## Location"; "###### Location"; "####### Location";
                   "##Location"; "  ### Apply URL  "; "### Tags / keywords"; "### Notes"]
  = [None; Some "location"; Some "location"; None;
     None; Some "applyUrl"; Some "tags"; None].
Proof. vm_compute. reflexivity. Qed.

Example lines_of_body :
  Js.split_lines ("a" +:+ String "013" Js.LF +:+ "b" +:+ Js.LF +:+ "c" +:+ String "013" "")
  = ["a"; "b"; "c" +:+ String "013" ""].
Proof. reflexivity. Qed.

(** The failures that come before the feed is written leave the files as
    they are: an error of the transport, and a failing submission. *)
Lemma fatal_before_write
    (url_protocol parse_timestamp : string -> option string) (todayUtc : string)
    (localeCompare : string -> string -> Z) (stringify : list Job -> string)
    (schema_errors : list Job -> option (list (string * string)))
    (outputPath : string) (files : gmap string string) :
  (forall message,
      main url_protocol parse_timestamp todayUtc localeCompare stringify schema_errors
        outputPath (inl message) files = (files, Thrown message))
  /\ (forall issues,
        invalidIssues (buildJobs url_protocol parse_timestamp todayUtc issues) <> [] ->
        (main url_protocol parse_timestamp todayUtc localeCompare stringify schema_errors
           outputPath (inr issues) files).1 = files).
Proof.
  split; [reflexivity|].
  intros issues H. now rewrite main_invalid.
Qed.

(** ** More on the batch *)

Section BatchFacts.

Variable url_protocol : string -> option string.
Variable parse_timestamp : string -> option string.
Variable todayUtc : string.

Local Abbreviation buildJobs' := (buildJobs url_protocol parse_timestamp todayUtc).
Local Abbreviation failing' := (failing url_protocol parse_timestamp).
Local Abbreviation valid_records' := (valid_records url_protocol parse_timestamp).
Local Abbreviation issue_errors' := (issue_errors url_protocol parse_timestamp).
Local Abbreviation issue_record' := (issue_record url_protocol parse_timestamp).
Local Abbreviation fails' := (fails url_protocol parse_timestamp).

Lemma fails_false issue : fails' issue = false -> issue_errors' issue = [].
Proof.
  unfold fails. destruct (issue_errors' issue); [reflexivity | discriminate].
Qed.

(** An issue has a record exactly when it does not fail. *)
Lemma issue_record_cases issue :
  (fails' issue = true /\ issue_record' issue = None)
  \/ (fails' issue = false
      /\ exists job, issue_record' issue = Some job /\ id job = number issue).
Proof.
  unfold issue_record. destruct (fails' issue) eqn:Ef; [now left | right].
  split; [reflexivity|].
  destruct (validate_defined url_protocol parse_timestamp issue _ (fails_false _ Ef))
    as (job & Hj & _ & _ & Hid).
  exists job. split; [exact Hj | exact Hid].
Qed.

Lemma filter_split_length {A} (p : A -> bool) (l : list A) :
  (length (List.filter (fun x => negb (p x)) l) + length (List.filter p l) = length l)%nat.
Proof.
  induction l as [|x l IH]; simpl; [reflexivity|].
  destruct (p x); simpl; lia.
Qed.

Lemma records_and_failing_length issues :
  (length (valid_records' issues) + length (failing' issues) = length issues)%nat.
Proof.
  induction issues as [|issue issues IH]; [reflexivity|].
  rewrite valid_records_cons, failing_cons.
  destruct (issue_record_cases issue) as [[Ef Hr] | [Ef (job & Hr & _)]];
    rewrite Ef, Hr; simpl; lia.
Qed.

(** Every issue of the batch is accounted for once: it is in the feed, or
    among the invalid ones, or counted as expired. *)
Theorem buildJobs_accounts_for_every_issue (issues : list Issue) :
  (length (jobs (buildJobs' issues)) + length (invalidIssues (buildJobs' issues))
   + expiredCount (buildJobs' issues) = length issues)%nat.
Proof.
  destruct (buildJobs_parts url_protocol parse_timestamp todayUtc issues) as (-> & -> & ->).
  pose proof (records_and_failing_length issues).
  pose proof (filter_split_length (fun j => isExpired todayUtc (expiryDate j))
                (valid_records' issues)).
  lia.
Qed.

Lemma valid_records_numbers issues :
  sublist (map id (valid_records' issues)) (map number issues).
Proof.
  induction issues as [|issue issues IH]; [constructor|].
  rewrite valid_records_cons.
  destruct (issue_record_cases issue) as [[_ Hr] | [_ (job & Hr & Hid)]]; rewrite Hr; simpl.
  - now apply sublist_cons.
  - rewrite Hid. now apply sublist_skip.
Qed.

Lemma failing_numbers issues :
  sublist (map inv_number (failing' issues)) (map number issues).
Proof.
  induction issues as [|issue issues IH]; [constructor|].
  rewrite failing_cons. destruct (fails' issue); simpl.
  - now apply sublist_skip.
  - now apply sublist_cons.
Qed.

Lemma filter_sublist {A} (p : A -> bool) (l : list A) : sublist (List.filter p l) l.
Proof.
  induction l as [|x l IH]; simpl; [constructor|].
  destruct (p x); [now apply sublist_skip | now apply sublist_cons].
Qed.

Lemma map_sublist {A B} (f : A -> B) (l1 l2 : list A) :
  sublist l1 l2 -> sublist (map f l1) (map f l2).
Proof. induction 1; simpl; constructor; assumption. Qed.

(** The feed and the list of invalid issues keep the order of the batch:
    their numbers are subsequences of the numbers of the issues, so no issue
    is duplicated or invented. *)
Theorem buildJobs_keeps_order (issues : list Issue) :
  sublist (map id (jobs (buildJobs' issues))) (map number issues)
  /\ sublist (map inv_number (invalidIssues (buildJobs' issues))) (map number issues).
Proof.
  destruct (buildJobs_parts url_protocol parse_timestamp todayUtc issues) as (-> & -> & _).
  split; [|apply failing_numbers].
  etransitivity; [|apply valid_records_numbers].
  apply map_sublist, filter_sublist.
Qed.

(** The result for a batch made of two batches is made of their results:
    what happens to an issue does not depend on the other issues. *)
Theorem buildJobs_app (batch1 batch2 : list Issue) :
  buildJobs' (batch1 ++ batch2)
  = mkBuilt (jobs (buildJobs' batch1) ++ jobs (buildJobs' batch2))
      (invalidIssues (buildJobs' batch1) ++ invalidIssues (buildJobs' batch2))
      (expiredCount (buildJobs' batch1) + expiredCount (buildJobs' batch2)).
Proof.
  unfold buildJobs at 1. rewrite fold_left_app.
  fold (buildJobs' batch1). rewrite build_fold.
  destruct (buildJobs_parts url_protocol parse_timestamp todayUtc batch2) as (-> & -> & ->).
  reflexivity.
Qed.

End BatchFacts.

(** ** One error per field, and what a record of the feed holds *)

Section RecordFacts.

Variable url_protocol : string -> option string.
Variable parse_timestamp : string -> option string.
Variable todayUtc : string.

Local Abbreviation validate' := (validate url_protocol parse_timestamp).
Local Abbreviation buildJobs' := (buildJobs url_protocol parse_timestamp todayUtc).

Lemma requireValue_once value label :
  (length (errors_of (requireValue value label)) <= 1)%nat
  /\ (errors_of (requireValue value label) = []
      <-> value_of (requireValue value label) <> "")
  /\ (errors_of (requireValue value label) = [] ->
      value = Some (value_of (requireValue value label))).
Proof.
  unfold requireValue. destruct value as [v|].
  - destruct (String.eqb_spec v "") as [-> | Hne]; cbn.
    + split; [lia|]. split; [split; [discriminate | congruence] | discriminate].
    + split; [lia|]. split; [split; auto | reflexivity].
  - cbn. split; [lia|]. split; [split; [discriminate | congruence] | discriminate].
Qed.

Lemma parseTags_once value :
  (length (errors_of (parseTags value)) <= 1)%nat
  /\ (errors_of (parseTags value) = [] <-> value_of (parseTags value) <> [])
  /\ NoDup (map Js.toLowerCase (value_of (parseTags value))).
Proof.
  unfold parseTags. destruct (missing value).
  - cbn. split; [lia|]. split; [split; [discriminate | congruence] | constructor].
  - unfold errors_of, value_of, bind, push, ret.
    rewrite dedupe_tags_from.
    pose proof (dedupe_from_NoDup (rawItems (default "" value)) ∅) as Hnd.
    destruct (dedupe_from ∅ (rawItems (default "" value))) as [|t ts]; cbn.
    + split; [lia|]. split; [split; [discriminate | congruence] | constructor].
    + split; [lia|]. split; [split; [discriminate | reflexivity] | exact Hnd].
Qed.

Lemma parseRemote_once value :
  (length (errors_of (parseRemote value)) <= 1)%nat
  /\ (errors_of (parseRemote value) = [] <-> is_Some (value_of (parseRemote value)))
  /\ (forall b, value_of (parseRemote value) = Some b ->
        exists v, value = Some v
                  /\ Js.toLowerCase (Js.trim v)
                     ∈ (if b then ["yes"; "y"; "true"] else ["no"; "n"; "false"])).
Proof.
  unfold parseRemote. destruct value as [v|]; [|cbn].
  2:{ split; [lia|]. split; [split; [discriminate | intros [? ?]; discriminate]|discriminate]. }
  destruct (missing (Some v)); [cbn|].
  { split; [lia|]. split; [split; [discriminate | intros [? ?]; discriminate]|discriminate]. }
  simpl default.
  destruct (bool_decide_reflect (Js.toLowerCase (Js.trim v) ∈ ["yes"; "y"; "true"])) as [H1|H1].
  { cbn. split; [lia|]. split; [split; eauto|]. intros b [= <-]. eauto. }
  destruct (bool_decide_reflect (Js.toLowerCase (Js.trim v) ∈ ["no"; "n"; "false"])) as [H2|H2].
  { cbn. split; [lia|]. split; [split; eauto|]. intros b [= <-]. eauto. }
  cbn. split; [lia|]. split; [split; [discriminate | intros [? ?]; discriminate]|discriminate].
Qed.

Lemma parseApplyUrl_once value :
  (length (errors_of (parseApplyUrl url_protocol value)) <= 1)%nat
  /\ (errors_of (parseApplyUrl url_protocol value) = []
      <-> is_Some (value_of (parseApplyUrl url_protocol value)))
  /\ (forall u, value_of (parseApplyUrl url_protocol value) = Some u ->
        value = Some u
        /\ (url_protocol u = Some "http:" \/ url_protocol u = Some "https:")).
Proof.
  unfold parseApplyUrl. destruct value as [v|]; [|cbn].
  2:{ split; [lia|]. split; [split; [discriminate | intros [? ?]; discriminate]|discriminate]. }
  destruct (missing (Some v)); [cbn|].
  { split; [lia|]. split; [split; [discriminate | intros [? ?]; discriminate]|discriminate]. }
  simpl default. destruct (url_protocol v) as [p|] eqn:Ep; [|cbn].
  2:{ split; [lia|]. split; [split; [discriminate | intros [? ?]; discriminate]|discriminate]. }
  destruct (String.eqb_spec p "http:") as [-> | H1]; cbn.
  { split; [lia|]. split; [split; eauto|]. intros u [= <-]. auto. }
  destruct (String.eqb_spec p "https:") as [-> | H2]; cbn.
  { split; [lia|]. split; [split; eauto|]. intros u [= <-]. auto. }
  split; [lia|]. split; [split; [discriminate | intros [? ?]; discriminate]|discriminate].
Qed.

Lemma parseExpiryDate_once value :
  (length (errors_of (parseExpiryDate value)) <= 1)%nat
  /\ (errors_of (parseExpiryDate value) = []
      <-> is_Some (value_of (parseExpiryDate value))).
Proof.
  unfold parseExpiryDate. destruct (missing value); [cbn|].
  { split; [lia|]. split; [discriminate | intros [? ?]; discriminate]. }
  destruct (date_regex (default "" value)); [|cbn].
  2:{ split; [lia|]. split; [discriminate | intros [? ?]; discriminate]. }
  simpl negb. cbv iota. destruct (date_parts (default "" value)) as [[year month] day].
  match goal with |- context [negb ?b] => destruct b end; cbn.
  - split; [lia|]. split; eauto.
  - split; [lia|]. split; [discriminate | intros [? ?]; discriminate].
Qed.

Lemma parseConfirmation_once value :
  (length (errors_of (parseConfirmation value)) <= 1)%nat
  /\ (errors_of (parseConfirmation value) = []
      <-> value_of (parseConfirmation value) = true)
  /\ (value_of (parseConfirmation value) = true ->
      exists v, value = Some v /\ existsb checked_regex (Js.split_lines v) = true).
Proof.
  unfold parseConfirmation. destruct value as [v|]; [|cbn].
  2:{ split; [lia|]. split; [split; discriminate | discriminate]. }
  destruct (missing (Some v)); [cbn|].
  { split; [lia|]. split; [split; discriminate | discriminate]. }
  simpl default. unfold errors_of, value_of, bind, push, ret.
  destruct (existsb checked_regex (Js.split_lines v)) eqn:E; cbn.
  - split; [lia|]. split; [split; reflexivity|]. eauto.
  - split; [lia|]. split; [split; discriminate | discriminate].
Qed.

Lemma toIsoDate_once value label :
  (length (errors_of (toIsoDate parse_timestamp value label)) <= 1)%nat
  /\ (errors_of (toIsoDate parse_timestamp value label) = []
      <-> is_Some (value_of (toIsoDate parse_timestamp value label))).
Proof.
  unfold toIsoDate. destruct (parse_timestamp value); cbn.
  - split; [lia|]. split; eauto.
  - split; [lia|]. split; [discriminate | intros [? ?]; discriminate].
Qed.

(** No validator reports twice, and each reports exactly when it returns its
    marker of failure (the empty text, the empty list, [null], [false]): a
    field has a value or an error, never both and never neither. So a
    submission has at most thirteen errors. *)
Theorem one_error_per_field issue (fields : gmap string string) :
  (forall value label,
      (length (errors_of (requireValue value label)) <= 1)%nat
      /\ (errors_of (requireValue value label) = []
          <-> value_of (requireValue value label) <> ""))
  /\ (forall value,
        (length (errors_of (parseTags value)) <= 1)%nat
        /\ (errors_of (parseTags value) = [] <-> value_of (parseTags value) <> []))
  /\ (forall value,
        (length (errors_of (parseRemote value)) <= 1)%nat
        /\ (errors_of (parseRemote value) = [] <-> is_Some (value_of (parseRemote value))))
  /\ (forall value,
        (length (errors_of (parseApplyUrl url_protocol value)) <= 1)%nat
        /\ (errors_of (parseApplyUrl url_protocol value) = []
            <-> is_Some (value_of (parseApplyUrl url_protocol value))))
  /\ (forall value,
        (length (errors_of (parseExpiryDate value)) <= 1)%nat
        /\ (errors_of (parseExpiryDate value) = []
            <-> is_Some (value_of (parseExpiryDate value))))
  /\ (forall value,
        (length (errors_of (parseConfirmation value)) <= 1)%nat
        /\ (errors_of (parseConfirmation value) = []
            <-> value_of (parseConfirmation value) = true))
  /\ (forall value label,
        (length (errors_of (toIsoDate parse_timestamp value label)) <= 1)%nat
        /\ (errors_of (toIsoDate parse_timestamp value label) = []
            <-> is_Some (value_of (toIsoDate parse_timestamp value label))))
  /\ (length (errors_of (validate' issue fields)) <= 13)%nat.
Proof.
  split; [intros; split; apply requireValue_once|].
  split; [intros; split; apply parseTags_once|].
  split; [intros; split; apply parseRemote_once|].
  split; [intros; split; apply parseApplyUrl_once|].
  split; [intros; split; apply parseExpiryDate_once|].
  split; [intros; split; apply parseConfirmation_once|].
  split; [intros; split; apply toIsoDate_once|].
  rewrite validate_errors, !length_app.
  pose proof (proj1 (requireValue_once (fields !! "company") "Company name")).
  pose proof (proj1 (requireValue_once (fields !! "title") "Role title")).
  pose proof (proj1 (requireValue_once (fields !! "location") "Location")).
  pose proof (proj1 (requireValue_once (fields !! "employmentType") "Employment type")).
  pose proof (proj1 (requireValue_once (fields !! "seniority") "Seniority")).
  pose proof (proj1 (requireValue_once (fields !! "description") "Description")).
  pose proof (proj1 (parseTags_once (fields !! "tags"))).
  pose proof (proj1 (parseRemote_once (fields !! "remote"))).
  pose proof (proj1 (parseApplyUrl_once (fields !! "applyUrl"))).
  pose proof (proj1 (parseExpiryDate_once (fields !! "expiryDate"))).
  pose proof (proj1 (parseConfirmation_once (fields !! "confirmation"))).
  pose proof (proj1 (toIsoDate_once (created_at issue) "createdAt")).
  pose proof (proj1 (toIsoDate_once (updated_at issue) "updatedAt")).
  lia.
Qed.

End RecordFacts.

Section FeedRecords.

Variable url_protocol : string -> option string.
Variable parse_timestamp : string -> option string.
Variable todayUtc : string.

Local Abbreviation validate' := (validate url_protocol parse_timestamp).
Local Abbreviation buildJobs' := (buildJobs url_protocol parse_timestamp todayUtc).

Local Abbreviation record_of' := (record_of url_protocol).

Lemma salary_of_cases (f : gmap string string) :
  salary_of f <> Some "" /\ (salary_of f = None \/ salary_of f = f !! "salaryRange").
Proof.
  unfold salary_of. destruct (f !! "salaryRange") as [s|] eqn:E; simpl.
  - destruct (String.eqb_spec s "") as [-> | Hne]; [split; [discriminate | now left]|].
    split; [congruence | now right].
  - split; [discriminate | now left].
Qed.

Lemma validate_record issue :
  errors_of (validate' issue (parseIssueForm (default "" (body issue)))) = [] ->
  exists job,
    job_of issue (parseIssueForm (default "" (body issue)))
      (value_of (validate' issue (parseIssueForm (default "" (body issue))))) = Some job
    /\ record_of' parse_timestamp issue job.
Proof.
  set (f := parseIssueForm (default "" (body issue))).
  rewrite validate_errors, validate_values. intros H.
  apply app_eq_nil in H as [E1 H]. apply app_eq_nil in H as [E2 H].
  apply app_eq_nil in H as [E3 H]. apply app_eq_nil in H as [E4 H].
  apply app_eq_nil in H as [E5 H]. apply app_eq_nil in H as [E6 H].
  apply app_eq_nil in H as [E7 H]. apply app_eq_nil in H as [E8 H].
  apply app_eq_nil in H as [E9 H]. apply app_eq_nil in H as [E10 H].
  apply app_eq_nil in H as [E11 H]. apply app_eq_nil in H as [E12 E13].
  destruct (requireValue_once (f !! "company") "Company name") as (_ & Hn1 & Hv1).
  destruct (requireValue_once (f !! "title") "Role title") as (_ & Hn2 & Hv2).
  destruct (requireValue_once (f !! "location") "Location") as (_ & Hn3 & Hv3).
  destruct (requireValue_once (f !! "employmentType") "Employment type") as (_ & Hn4 & Hv4).
  destruct (requireValue_once (f !! "seniority") "Seniority") as (_ & Hn5 & Hv5).
  destruct (requireValue_once (f !! "description") "Description") as (_ & Hn6 & Hv6).
  destruct (parseTags_once (f !! "tags")) as (_ & Ht & Hnd).
  destruct (parseRemote_once (f !! "remote")) as (_ & Hr & Hrw).
  destruct (parseApplyUrl_once url_protocol (f !! "applyUrl")) as (_ & Hu & Huw).
  destruct (parseConfirmation_once (f !! "confirmation")) as (_ & Hc & Hcw).
  destruct (proj1 Hr E8) as [b Hb].
  destruct (proj1 Hu E9) as [u Hub].
  destruct (parseExpiryDate_ok _ E10) as (e & He & Hfe & Hre).
  destruct (toIsoDate_ok parse_timestamp (created_at issue) _ E12) as (c & Hcv & Hcp).
  destruct (toIsoDate_ok parse_timestamp (updated_at issue) _ E13) as (d & Hdv & Hdp).
  unfold job_of. cbn [v_remote v_applyUrl v_expiryDate v_createdAt v_updatedAt].
  rewrite Hb, Hub, He, Hcv, Hdv.
  eexists. split; [reflexivity|].
  unfold record_of. fold f.
  cbn [id company title location employmentType seniority description tags remote
         applyUrl expiryDate salaryRange createdAt updatedAt
         v_company v_title v_location v_employmentType v_seniority v_description v_tags].
  destruct (Huw u Hub) as [Hfu Hp].
  destruct (salary_of_cases f) as [Hs1 Hs2].
  split; [reflexivity|].
  split; [split; [exact (Hv1 E1) | exact (proj1 Hn1 E1)]|].
  split; [split; [exact (Hv2 E2) | exact (proj1 Hn2 E2)]|].
  split; [split; [exact (Hv3 E3) | exact (proj1 Hn3 E3)]|].
  split; [split; [exact (Hv4 E4) | exact (proj1 Hn4 E4)]|].
  split; [split; [exact (Hv5 E5) | exact (proj1 Hn5 E5)]|].
  split; [split; [exact (Hv6 E6) | exact (proj1 Hn6 E6)]|].
  split; [split; [exact (proj1 Ht E7) | exact Hnd]|].
  split; [exact (Hrw b Hb)|].
  split; [split; [exact Hfu | exact Hp]|].
  split; [split; [exact Hfe | exact Hre]|].
  split; [exact (Hcw (proj1 Hc E11))|].
  split; [exact Hs1|]. split; [exact Hs2|].
  split; [exact Hcp | exact Hdp].
Qed.

(** Every record of the feed comes from an issue of the batch, carries its
    number, and holds valid data: the six required texts are the non-empty
    values of their sections, there is at least one tag and no two tags
    agree in lower case, the remote flag reflects a yes or no word, the apply
    URL has the protocol http or https, the expiry date has the form
    YYYY-MM-DD and is not before today, the confirmation is checked, the
    salary range is absent rather than empty, and the two timestamps are
    those of the issue in ISO form. *)
Theorem feed_records_wellformed (issues : list Issue) (job : Job) :
  In job (jobs (buildJobs' issues)) ->
  exists issue,
    In issue issues /\ record_of' parse_timestamp issue job /\ Js.lt (expiryDate job) todayUtc = false.
Proof.
  destruct (buildJobs_parts url_protocol parse_timestamp todayUtc issues) as (-> & _ & _).
  rewrite filter_In. intros [Hin Hlive].
  unfold valid_records in Hin. apply list_elem_of_In, list_elem_of_omap in Hin.
  destruct Hin as (issue & Hi & Hr).
  exists issue. split; [now apply list_elem_of_In|].
  unfold issue_record in Hr.
  destruct (fails url_protocol parse_timestamp issue) eqn:Ef; [discriminate|].
  destruct (validate_record issue (fails_false _ _ _ Ef)) as (job' & Hj & Hrec).
  rewrite Hj in Hr. injection Hr as <-.
  split; [exact Hrec|].
  unfold isExpired in Hlive. now destruct (Js.lt (expiryDate job') todayUtc).
Qed.

End FeedRecords.

Lemma feed_records_wellformed_witness :
  let issue := Sample.issue 7 "https://example.com/apply" "2024-12-31" "2024-01-02T00:00:00Z" in
  let job := mkJob 7 "2024-01-01T00:00:00.000Z" "2024-01-02T00:00:00.000Z"
               "Blazor developer" "Acme" "Berlin" true "Full-time" "Senior"
               ["Blazor"; "C#"] "https://example.com/apply" "Build things." None
               "2024-12-31" in
  exists issue',
    In issue' [issue]
    /\ record_of Sample.url_protocol Sample.parse_timestamp issue' job
    /\ Js.lt (expiryDate job) Sample.todayUtc = false.
Proof.
  intros issue job.
  apply (feed_records_wellformed Sample.url_protocol Sample.parse_timestamp
           Sample.todayUtc [issue] job).
  vm_compute. auto.
Defined.

(** ** More on the tokenizer *)

Lemma heading_key_canonical (line k : string) :
  heading_key line = Some k ->
  In k ["company"; "title"; "location"; "remote"; "employmentType"; "seniority"; "tags";
        "applyUrl"; "description"; "salaryRange"; "contactEmail"; "expiryDate";
        "confirmation"].
Proof.
  unfold heading_key. destruct (heading_regex _) as [text|]; [|discriminate].
  unfold EXPECTED_HEADINGS. intros H.
  apply elem_of_list_to_map_2 in H. apply list_elem_of_In in H.
  simpl in H. simpl.
  repeat (destruct H as [H | H]; [injection H as _ <-; tauto|]).
  destruct H.
Qed.

(** The field map has a key exactly when a line of the body is a heading of
    that key, whatever stands under the heading, and it has no other keys
    than the thirteen of the vocabulary. A body without a recognised heading
    gives the empty map. *)
Theorem parseIssueForm_keys (body k : string) :
  (is_Some (parseIssueForm body !! k)
   <-> exists line, In line (Js.split_lines body) /\ heading_key line = Some k)
  /\ (is_Some (parseIssueForm body !! k) ->
      In k ["company"; "title"; "location"; "remote"; "employmentType"; "seniority";
            "tags"; "applyUrl"; "description"; "salaryRange"; "contactEmail";
            "expiryDate"; "confirmation"])
  /\ ((forall line, In line (Js.split_lines body) -> heading_key line = None) ->
      parseIssueForm body = ∅).
Proof.
  assert (Hiff : is_Some (parseIssueForm body !! k)
                 <-> exists line, In line (Js.split_lines body) /\ heading_key line = Some k).
  { destruct (String.eqb_spec body "") as [-> | Hne].
    - rewrite parseIssueForm_empty, lookup_empty. split.
      + intros [? ?]. discriminate.
      + intros (line & [<- | []] & H). vm_compute in H. discriminate.
    - rewrite (parseIssueForm_lines body Hne), tokenize_keys.
      unfold tokenizer_start. simpl. rewrite lookup_empty. split.
      + intros [[? H] | [H | H]]; [discriminate | discriminate | exact H].
      + auto. }
  split; [exact Hiff|]. split.
  - intros H. apply Hiff in H as (line & _ & Hk). eapply heading_key_canonical, Hk.
  - intros Hnone. apply map_eq. intros k'. rewrite lookup_empty.
    destruct (parseIssueForm body !! k') eqn:E; [|reflexivity].
    exfalso.
    destruct (String.eqb_spec body "") as [-> | Hne].
    + rewrite parseIssueForm_empty, lookup_empty in E. discriminate.
    + assert (Hs : is_Some (parseIssueForm body !! k')) by eauto.
      rewrite (parseIssueForm_lines body Hne), tokenize_keys in Hs.
      unfold tokenizer_start in Hs. simpl in Hs. rewrite lookup_empty in Hs.
      destruct Hs as [[? H] | [H | (line & Hin & Hk)]]; try discriminate.
      rewrite (Hnone line Hin) in Hk. discriminate.
Qed.

(** Normalising a value twice is normalising it once, and a normalised
    value is never a placeholder for no answer. *)
Theorem normalizeValue_idempotent (raw : string) :
  normalizeValue (normalizeValue raw) = normalizeValue raw
  /\ ~ placeholder (normalizeValue raw).
Proof.
  unfold placeholder.
  destruct (normalizeValue_cases raw) as [E | E].
  - rewrite E. split; [reflexivity|]. vm_compute. intros [H | H]; discriminate.
  - rewrite E, normalizeValue_trim. split; [exact E|].
    rewrite trim_idem. intros H.
    assert (Hp : normalizeValue raw = "") by now apply normalizeValue_placeholder.
    rewrite E in Hp. rewrite Hp in H. vm_compute in H. destruct H; discriminate.
Qed.

Lemma parseIssueForm_keys_witness :
  parseIssueForm "Hello, we are hiring. # Location" = ∅.
Proof.
  apply (proj2 (proj2 (parseIssueForm_keys "Hello, we are hiring. # Location" "location"))).
  intros line [<- | []]. vm_compute. reflexivity.
Defined.

(** *** Line endings *)

Lemma strip_cr_free (l : Js.chars) :
  ~ In "013"%char l -> Js.strip_cr l = l.
Proof.
  intros H. unfold Js.strip_cr. destruct (rev l) as [|c r] eqn:E; [reflexivity|].
  destruct (Ascii.eqb_spec c "013"%char) as [-> | _]; [|reflexivity].
  exfalso. apply H. apply in_rev. rewrite E. now left.
Qed.

Lemma strip_cr_snoc (l : Js.chars) : Js.strip_cr (l ++ ["013"%char]) = l.
Proof.
  unfold Js.strip_cr. rewrite rev_app_distr. simpl. apply rev_involutive.
Qed.

Lemma one_line_free (s : string) :
  one_line s -> ~ In "010"%char (Js.explode s) /\ ~ In "013"%char (Js.explode s).
Proof.
  unfold one_line. rewrite List.Forall_forall. intros H.
  split; intros Hin; apply H in Hin; discriminate.
Qed.

Lemma join_cons2 (sep x y : string) (r : list string) :
  Js.join sep (x :: y :: r) = x +:+ sep +:+ Js.join sep (y :: r).
Proof. reflexivity. Qed.

Lemma explode_LF_app (x s : string) :
  Js.explode (x +:+ Js.LF +:+ s) = Js.explode x ++ "010"%char :: Js.explode s.
Proof. now rewrite !explode_app. Qed.

Lemma explode_CRLF_app (x s : string) :
  Js.explode (x +:+ CRLF +:+ s)
  = (Js.explode x ++ ["013"%char]) ++ "010"%char :: Js.explode s.
Proof. rewrite !explode_app, <- app_assoc. reflexivity. Qed.

Lemma split_lines_join_LF (lines : list string) :
  lines <> [] -> Forall one_line lines -> Js.split_lines (Js.join Js.LF lines) = lines.
Proof.
  intros Hne Hall. unfold Js.split_lines.
  enough (E : Js.strip_cr_but_last
                (Js.split_chars "010"%char (Js.explode (Js.join Js.LF lines)))
              = map Js.explode lines).
  { rewrite E, map_map. rewrite <- (map_id lines) at 2.
    apply map_ext. intros s. apply implode_explode. }
  induction lines as [|x lines IH]; [congruence|].
  inversion Hall as [|? ? Hx Hl]; subst.
  destruct (one_line_free x Hx) as [Hlf Hcr].
  destruct lines as [|y r].
  - simpl Js.join. unfold Js.join. simpl String.concat.
    rewrite (split_chars_free _ _ Hlf). reflexivity.
  - rewrite join_cons2, explode_LF_app.
    rewrite (split_chars_app _ _ _ Hlf).
    pose proof (split_chars_nonempty "010"%char (Js.explode (Js.join Js.LF (y :: r)))) as Hn.
    specialize (IH ltac:(discriminate) Hl).
    destruct (Js.split_chars "010"%char (Js.explode (Js.join Js.LF (y :: r))))
      as [|p ps]; [congruence|].
    change (Js.strip_cr_but_last (Js.explode x :: p :: ps))
      with (Js.strip_cr (Js.explode x) :: Js.strip_cr_but_last (p :: ps)).
    rewrite IH, (strip_cr_free _ Hcr). reflexivity.
Qed.

Lemma split_lines_join_CRLF (lines : list string) :
  lines <> [] -> Forall one_line lines -> Js.split_lines (Js.join CRLF lines) = lines.
Proof.
  intros Hne Hall. unfold Js.split_lines.
  enough (E : Js.strip_cr_but_last
                (Js.split_chars "010"%char (Js.explode (Js.join CRLF lines)))
              = map Js.explode lines).
  { rewrite E, map_map. rewrite <- (map_id lines) at 2.
    apply map_ext. intros s. apply implode_explode. }
  induction lines as [|x lines IH]; [congruence|].
  inversion Hall as [|? ? Hx Hl]; subst.
  destruct (one_line_free x Hx) as [Hlf Hcr].
  destruct lines as [|y r].
  - simpl Js.join. unfold Js.join. simpl String.concat.
    rewrite (split_chars_free _ _ Hlf). reflexivity.
  - rewrite join_cons2, explode_CRLF_app.
    rewrite split_chars_app.
    2:{ intros [Hin | [E | []]]%in_app_or; [now apply Hlf | discriminate]. }
    pose proof (split_chars_nonempty "010"%char (Js.explode (Js.join CRLF (y :: r)))) as Hn.
    specialize (IH ltac:(discriminate) Hl).
    destruct (Js.split_chars "010"%char (Js.explode (Js.join CRLF (y :: r))))
      as [|p ps]; [congruence|].
    change (Js.strip_cr_but_last ((Js.explode x ++ ["013"%char]) :: p :: ps))
      with (Js.strip_cr (Js.explode x ++ ["013"%char]) :: Js.strip_cr_but_last (p :: ps)).
    rewrite IH, strip_cr_snoc. reflexivity.
Qed.

(** A body whose lines end in CR LF is read as the body whose lines end in
    LF: the lines are the same, and so is the field map. *)
Theorem line_endings_do_not_matter (lines : list string) :
  lines <> [] -> Forall one_line lines ->
  Js.split_lines (Js.join CRLF lines) = lines
  /\ Js.split_lines (Js.join Js.LF lines) = lines
  /\ parseIssueForm (Js.join CRLF lines) = parseIssueForm (Js.join Js.LF lines).
Proof.
  intros Hne Hall.
  pose proof (split_lines_join_CRLF lines Hne Hall) as H1.
  pose proof (split_lines_join_LF lines Hne Hall) as H2.
  split; [exact H1|]. split; [exact H2|].
  destruct lines as [|x [|y r]]; [congruence | reflexivity |].
  rewrite !parseIssueForm_lines.
  - now rewrite H1, H2.
  - rewrite join_cons2. intros E. apply (f_equal Js.explode) in E.
    rewrite !explode_app in E. apply app_eq_nil in E as [_ E].
    apply app_eq_nil in E as [E _]. discriminate.
  - rewrite join_cons2. intros E. apply (f_equal Js.explode) in E.
    rewrite !explode_app in E. apply app_eq_nil in E as [_ E].
    apply app_eq_nil in E as [E _]. discriminate.
Qed.

Lemma line_endings_do_not_matter_witness :
  let lines := ["### Location"; ""; "Berlin"; ""; "### Remote"; ""; "Yes"] in
  Js.split_lines (Js.join CRLF lines) = lines
  /\ Js.split_lines (Js.join Js.LF lines) = lines
  /\ parseIssueForm (Js.join CRLF lines) = parseIssueForm (Js.join Js.LF lines).
Proof.
  intros lines. apply (line_endings_do_not_matter lines); [discriminate|].
  repeat constructor.
Defined.

(** *** The form of a normalised heading *)

Lemma lower_alnum_fixed (c : ascii) :
  Js.is_lower_alnum c = true -> Js.lower_char c = c.
Proof.
  destruct c as [[|] [|] [|] [|] [|] [|] [|] [|]]; vm_compute; intros H;
    first [reflexivity | discriminate].
Qed.

Lemma lower_alnum_not_space (c : ascii) :
  Js.is_lower_alnum c = true -> c <> " "%char /\ Js.is_space c = false.
Proof.
  destruct c as [[|] [|] [|] [|] [|] [|] [|] [|]]; vm_compute; intros H;
    first [discriminate | split; [discriminate | reflexivity]].
Qed.

Local Abbreviation not_alnum := (fun c : ascii => negb (Js.is_lower_alnum c)).

Lemma replace_runs_alphabet (flag : bool) (l : Js.chars) :
  Forall (fun c => Js.is_lower_alnum c = true \/ c = " "%char)
    (Js.replace_runs_go not_alnum flag l).
Proof.
  revert flag. induction l as [|c l IH]; intros flag; simpl; [constructor|].
  destruct (Js.is_lower_alnum c) eqn:E; simpl.
  - constructor; [now left | apply IH].
  - destruct flag; [apply IH | constructor; [now right | apply IH]].
Qed.

Lemma replace_runs_single_spaces (flag : bool) (l : Js.chars) :
  (forall a b, Js.replace_runs_go not_alnum flag l <> a ++ " "%char :: " "%char :: b)
  /\ (flag = true -> forall r, Js.replace_runs_go not_alnum flag l <> " "%char :: r).
Proof.
  revert flag. induction l as [|c l IH]; intros flag; simpl.
  - split; [intros [|? ?] b; discriminate | intros _ r; discriminate].
  - destruct (Js.is_lower_alnum c) eqn:E; simpl.
    + destruct (lower_alnum_not_space c E) as [Hc _].
      destruct (IH false) as [IH1 _]. split.
      * intros [|x a] b; simpl.
        -- intros [= ? _]. congruence.
        -- intros [= _ H]. now apply IH1 in H.
      * intros _ r [= ? _]. congruence.
    + destruct (IH true) as [IH1 IH2]. destruct flag.
      * split; [exact IH1 | intros _; now apply IH2].
      * split; [|discriminate].
        intros [|x a] b; simpl.
        -- intros [= H]. now apply (IH2 eq_refl) in H.
        -- intros [= _ H]. now apply IH1 in H.
Qed.

Lemma heading_form_fixed_runs (flag : bool) (l : Js.chars) :
  Forall (fun c => Js.is_lower_alnum c = true \/ c = " "%char) l ->
  (forall a b, l <> a ++ " "%char :: " "%char :: b) ->
  (flag = true -> forall r, l <> " "%char :: r) ->
  Js.replace_runs_go not_alnum flag l = l.
Proof.
  revert flag. induction l as [|c l IH]; intros flag Hall Hd Hs; [reflexivity|].
  inversion Hall as [|? ? Hc Hl]; subst. simpl.
  assert (Hd' : forall a b, l <> a ++ " "%char :: " "%char :: b).
  { intros a b E. apply (Hd (c :: a) b). simpl. now rewrite E. }
  destruct (Js.is_lower_alnum c) eqn:E; simpl.
  - f_equal. apply IH; [exact Hl | exact Hd' | discriminate].
  - destruct Hc as [Hc | ->]; [congruence|].
    destruct flag; [exfalso; now apply (Hs eq_refl l)|].
    f_equal. apply IH; [exact Hl | exact Hd'|].
    intros _ r ->. now apply (Hd [] r).
Qed.

Lemma no_edge_space_trimmed (s : string) : no_edge_space s -> trimmed (Js.explode s).
Proof.
  intros H. split.
  - destruct (Js.explode s) as [|c r] eqn:E; [reflexivity|].
    simpl. now rewrite (H c r (or_introl E)).
  - destruct (rev (Js.explode s)) as [|c r] eqn:E; [reflexivity|].
    simpl. rewrite (H c (rev r)); [reflexivity|]. right.
    rewrite <- (rev_involutive (Js.explode s)), E. reflexivity.
Qed.

(** The result of [normalizeHeading] is made of words of [a-z0-9] with one
    space between them and none at the ends; the texts of that form are the
    ones [normalizeHeading] leaves as they are; so normalising twice is
    normalising once. *)
Theorem normalizeHeading_canonical (text : string) :
  heading_form (normalizeHeading text)
  /\ (forall u, heading_form u -> normalizeHeading u = u)
  /\ normalizeHeading (normalizeHeading text) = normalizeHeading text.
Proof.
  assert (Hform : forall t, heading_form (normalizeHeading t)).
  { intros t. unfold normalizeHeading, Js.replace_runs, Js.trim.
    rewrite explode_implode.
    set (o := Js.replace_runs_go not_alnum false (Js.explode (Js.toLowerCase t))).
    pose proof (trim_chars_split o) as Es.
    unfold heading_form. rewrite explode_implode. split; [|split].
    - pose proof (replace_runs_alphabet false (Js.explode (Js.toLowerCase t))) as Ha.
      fold o in Ha. rewrite Es in Ha.
      apply Forall_app in Ha as [_ Ha]. now apply Forall_app in Ha as [Ha _].
    - apply trimmed_no_edge_space. rewrite explode_implode. apply trim_chars_trimmed.
    - intros a b E.
      destruct (replace_runs_single_spaces false (Js.explode (Js.toLowerCase t))) as [Hd _].
      fold o in Hd. rewrite E in Es.
      apply (Hd (Js.take_while Js.is_space o ++ a)
               (b ++ rev (Js.take_while Js.is_space (rev (Js.drop_while Js.is_space o))))).
      rewrite Es at 1. now rewrite <- !app_assoc. }
  assert (Hfix : forall u, heading_form u -> normalizeHeading u = u).
  { intros u (Ha & He & Hd). unfold normalizeHeading, Js.replace_runs, Js.toLowerCase, Js.trim.
    rewrite !explode_implode.
    assert (El : map Js.lower_char (Js.explode u) = Js.explode u).
    { rewrite <- (map_id (Js.explode u)) at 2. apply map_ext_in. intros c Hc.
      rewrite List.Forall_forall in Ha. destruct (Ha c Hc) as [H | ->];
        [now apply lower_alnum_fixed | reflexivity]. }
    rewrite El, (heading_form_fixed_runs false _ Ha Hd) by discriminate.
    rewrite (trimmed_fix _ (no_edge_space_trimmed u He)). apply implode_explode. }
  split; [apply Hform|]. split; [exact Hfix|]. apply Hfix, Hform.
Qed.

Lemma normalizeHeading_canonical_witness :
  normalizeHeading "tags keywords" = "tags keywords".
Proof.
  apply (proj1 (proj2 (normalizeHeading_canonical "Tags / Keywords"))).
  split; [|split].
  - cbv [Js.explode list_ascii_of_string].
    repeat (constructor; [vm_compute; auto|]). constructor.
  - apply trimmed_no_edge_space. split; reflexivity.
  - intros a b E. apply (f_equal (List.filter (Ascii.eqb " "%char))) in E.
    rewrite !List.filter_app in E. simpl in E.
    apply (f_equal (@length _)) in E. rewrite !length_app in E. simpl in E. lia.
Defined.

(** ** The command line *)

Lemma parseArgs_from_pairs (pairs : list (string * string)) (rest : list string) (args : Args) :
  Forall (fun p : string * string => value_flag p.1) pairs ->
  parseArgs_from (flatten_pairs pairs ++ rest) args
  = parseArgs_from rest
      (mkArgs (last_value_from "--repo" pairs (arg_repo args))
              (last_value_from "--output" pairs (arg_output args))
              (last_value_from "--schema" pairs (arg_schema args))).
Proof.
  revert args. induction pairs as [|[f v] pairs IH]; intros args Hall.
  - simpl. now destruct args.
  - inversion Hall as [|? ? Hf Hps]; subst.
    change (flatten_pairs ((f, v) :: pairs) ++ rest)
      with (f :: v :: (flatten_pairs pairs ++ rest)).
    destruct Hf as [Hf | [Hf | Hf]]; simpl in Hf; subst f;
      simpl parseArgs_from; rewrite (IH _ Hps); reflexivity.
Qed.

(** On arguments made of flags with their values, [parseArgs] returns for
    each flag the value given last, and nothing for a flag that is not
    given; whatever a value is, a flag or [--help] included, it is taken as
    the value. A flag that stands last, without a value, leaves its property
    undefined, also when a value was given before. *)
Theorem parseArgs_pairs (pairs : list (string * string)) :
  Forall (fun p : string * string => value_flag p.1) pairs ->
  parseArgs (flatten_pairs pairs)
  = Parsed_args (mkArgs (last_value "--repo" pairs) (last_value "--output" pairs)
                   (last_value "--schema" pairs))
  /\ parseArgs (flatten_pairs pairs ++ ["--repo"])
     = Parsed_args (mkArgs None (last_value "--output" pairs) (last_value "--schema" pairs))
  /\ parseArgs (flatten_pairs pairs ++ ["--output"])
     = Parsed_args (mkArgs (last_value "--repo" pairs) None (last_value "--schema" pairs))
  /\ parseArgs (flatten_pairs pairs ++ ["--schema"])
     = Parsed_args (mkArgs (last_value "--repo" pairs) (last_value "--output" pairs) None).
Proof.
  intros Hall. unfold parseArgs.
  split; [|split; [|split]]; try (rewrite (parseArgs_from_pairs pairs _ _ Hall); reflexivity).
  rewrite <- (app_nil_r (flatten_pairs pairs)).
  rewrite (parseArgs_from_pairs pairs _ _ Hall). reflexivity.
Qed.

Lemma parseArgs_pairs_witness :
  parseArgs ["--repo"; "a/b"; "--output"; "--help"; "--repo"; "c/d"]
  = Parsed_args (mkArgs (Some "c/d") (Some "--help") None).
Proof.
  refine (eq_trans
            (proj1 (parseArgs_pairs [("--repo", "a/b"); ("--output", "--help"); ("--repo", "c/d")] _))
            _).
  - repeat (constructor; [unfold value_flag; simpl; auto|]). constructor.
  - reflexivity.
Defined.

(** After flags with their values, [--help] ends the run with the usage,
    whatever follows, and any other argument that is not a flag makes
    [parseArgs] throw, naming it. *)
Theorem parseArgs_stops (pairs : list (string * string)) (arg : string) (rest : list string) :
  Forall (fun p : string * string => value_flag p.1) pairs ->
  parseArgs (flatten_pairs pairs ++ "--help" :: rest) = Parsed_help
  /\ (~ value_flag arg -> arg <> "--help" ->
      parseArgs (flatten_pairs pairs ++ arg :: rest)
      = Parsed_error ("Unknown argument: " +:+ arg)).
Proof.
  intros Hall. unfold parseArgs. rewrite !(parseArgs_from_pairs pairs _ _ Hall).
  split; [reflexivity|].
  intros Hf Hh. unfold value_flag in Hf. simpl.
  destruct (String.eqb_spec arg "--repo"); [tauto|].
  destruct (String.eqb_spec arg "--output"); [tauto|].
  destruct (String.eqb_spec arg "--schema"); [tauto|].
  destruct (String.eqb_spec arg "--help"); [tauto|].
  reflexivity.
Qed.

Lemma parseArgs_stops_witness :
  parseArgs ["--repo"; "a/b"; "--help"; "--nonsense"] = Parsed_help
  /\ parseArgs ["--repo"; "a/b"; "-o"; "x"] = Parsed_error "Unknown argument: -o".
Proof.
  assert (H : Forall (fun p : string * string => value_flag p.1) [("--repo", "a/b")])
    by (repeat (constructor; [unfold value_flag; simpl; auto|]); constructor).
  split.
  - exact (proj1 (parseArgs_stops [("--repo", "a/b")] "-o" ["--nonsense"] H)).
  - refine (proj2 (parseArgs_stops [("--repo", "a/b")] "-o" ["x"] H) _ _).
    + unfold value_flag. intros [E | [E | E]]; discriminate.
    + discriminate.
Defined.

(** *** The repository *)

Lemma split_owner_name (o n rest : string) :
  ~ In "/"%char (Js.explode o) -> ~ In "/"%char (Js.explode n) ->
  (rest = "" \/ exists rest', rest = "/" +:+ rest') ->
  exists more, Js.split "/"%char (o +:+ "/" +:+ n +:+ rest) = o :: n :: more.
Proof.
  intros Ho Hn Hr. unfold Js.split. rewrite !explode_app.
  change (Js.explode "/") with ["/"%char]. simpl app at 2.
  rewrite (split_chars_app _ _ _ Ho).
  destruct Hr as [-> | [rest' ->]].
  - rewrite app_nil_r, (split_chars_free _ _ Hn). simpl.
    rewrite !implode_explode. now exists [].
  - rewrite explode_app. change (Js.explode "/") with ["/"%char]. simpl app at 2.
    rewrite (split_chars_app _ _ _ Hn). simpl. rewrite !implode_explode. eauto.
Qed.

(** When the arguments parse and the token is there, the repository is the
    value of [--repo], or that of [GITHUB_REPOSITORY] when [--repo] is absent
    or empty. A repository [owner/name], and also [owner/name/more], is taken
    with that owner and that name, what follows a second slash being
    ignored; a repository with no slash is refused. *)
Theorem setup_repository (default_output default_schema : string) (argv : list string)
    (args : Args) (env_repository env_token : option string) (repo : string) :
  parseArgs argv = Parsed_args args ->
  missing env_token = false ->
  or_else (arg_repo args) env_repository = Some repo ->
  repo <> "" ->
  (forall o n rest,
      repo = o +:+ "/" +:+ n +:+ rest ->
      o <> "" -> n <> "" ->
      ~ In "/"%char (Js.explode o) -> ~ In "/"%char (Js.explode n) ->
      (rest = "" \/ exists rest', rest = "/" +:+ rest') ->
      setup default_output default_schema argv env_repository env_token
      = Setup_ok (mkSetup o n
                    (default "" (or_else (arg_output args) (Some default_output)))
                    (default "" (or_else (arg_schema args) (Some default_schema)))))
  /\ (~ In "/"%char (Js.explode repo) ->
      setup default_output default_schema argv env_repository env_token
      = Setup_error ("Invalid repo value: " +:+ repo)).
Proof.
  intros Hp Ht Hr Hne. unfold setup. rewrite Hp, Hr, Ht.
  rewrite (missing_Some _ Hne). simpl default. split.
  - intros o n rest -> Ho Hn Hos Hns Hrest.
    destruct (split_owner_name o n rest Hos Hns Hrest) as [more ->]. simpl.
    now rewrite (proj2 (String.eqb_neq o "") Ho), (proj2 (String.eqb_neq n "") Hn).
  - intros Hfree. unfold Js.split. rewrite (split_chars_free _ _ Hfree). simpl.
    now rewrite orb_true_r.
Qed.

Lemma setup_repository_witness :
  setup "public/jobs.json" "schema/jobs.schema.json" ["--repo"; "Blazorise/Jobs/extra"]
    (Some "other/repo") (Some "token")
  = Setup_ok (mkSetup "Blazorise" "Jobs" "public/jobs.json" "schema/jobs.schema.json").
Proof.
  refine (proj1 (setup_repository "public/jobs.json" "schema/jobs.schema.json"
                   ["--repo"; "Blazorise/Jobs/extra"] (mkArgs (Some "Blazorise/Jobs/extra") None None)
                   (Some "other/repo") (Some "token") "Blazorise/Jobs/extra" _ _ _ _)
                "Blazorise" "Jobs" "/extra" _ _ _ _ _ _);
    try reflexivity; try discriminate.
  - vm_compute. intuition discriminate.
  - vm_compute. intuition discriminate.
  - right. now exists "extra".
Defined.


(** ** Fetching *)

Section FetchFacts.

Variable respond : N -> string + Response.

Lemma fetch_from_more_fuel (fuel fuel' : nat) (page : N) (issues : list Issue) r :
  fetch_from respond fuel page issues = Some r -> (fuel <= fuel')%nat ->
  fetch_from respond fuel' page issues = Some r.
Proof.
  revert fuel' page issues. induction fuel as [|fuel IH]; intros fuel' page issues H Hle;
    [discriminate|].
  destruct fuel' as [|fuel']; [lia|]. simpl in H |- *.
  destruct (respond page) as [e | resp]; [exact H|].
  destruct (negb (ok resp)); [exact H|].
  destruct (has_next resp); [|exact H].
  apply IH; [exact H | lia].
Qed.

Local Abbreviation serves := (serves respond).

Lemma serves_tail (page : N) (r : Response) (rs : list Response) :
  serves page (r :: rs) -> serves (page + 1)%N rs.
Proof.
  intros H i r' Hi. destruct (H (S i) r' Hi) as (H1 & H2 & H3).
  split; [|split; [exact H2|]].
  - rewrite <- H1. f_equal. lia.
  - rewrite H3. simpl length. apply bool_decide_ext. lia.
Qed.

Lemma fetch_from_serves (rs : list Response) (page : N) (issues : list Issue) (fuel : nat) :
  rs <> [] -> serves page rs -> (length rs <= fuel)%nat ->
  fetch_from respond fuel page issues
  = Some (inr (issues ++ concat (map page_issues rs))).
Proof.
  revert page issues fuel. induction rs as [|r rs IH]; intros page issues fuel Hne Hs Hf;
    [congruence|].
  destruct fuel as [|fuel]; [simpl in Hf; lia|].
  destruct (Hs 0%nat r eq_refl) as (H1 & H2 & H3).
  rewrite N.add_0_r in H1. simpl fetch_from. rewrite H1, H2, H3. simpl negb. cbv iota.
  destruct rs as [|r' rs].
  - simpl. now rewrite app_nil_r.
  - rewrite bool_decide_true by (simpl; lia).
    rewrite (IH (page + 1)%N); [|discriminate|now apply (serves_tail page r)|simpl in Hf |- *; lia].
    simpl. now rewrite <- app_assoc.
Qed.

Lemma fetch_from_short (rs : list Response) (page : N) (issues : list Issue) (fuel : nat) :
  serves page rs -> (fuel < length rs)%nat ->
  fetch_from respond fuel page issues = None.
Proof.
  revert page issues fuel. induction rs as [|r rs IH]; intros page issues fuel Hs Hf;
    [simpl in Hf; lia|].
  destruct fuel as [|fuel]; [reflexivity|].
  destruct (Hs 0%nat r eq_refl) as (H1 & H2 & H3).
  rewrite N.add_0_r in H1. simpl fetch_from. rewrite H1, H2, H3. simpl negb. cbv iota.
  rewrite bool_decide_true by (simpl in Hf |- *; lia).
  apply IH; [now apply (serves_tail page r) | simpl in Hf; lia].
Qed.

(** When the tracker serves its pages one after the other, each announcing
    the next but the last, the fetch makes one request per page and returns
    the issues of all the pages, in order, without their pull requests. *)
Theorem fetch_collects_pages (rs : list Response) (fuel : nat) :
  rs <> [] -> serves 1%N rs ->
  ((length rs <= fuel)%nat ->
   fetchApprovedIssues respond fuel = Some (inr (concat (map page_issues rs))))
  /\ ((fuel < length rs)%nat -> fetchApprovedIssues respond fuel = None)
  /\ (forall issue, In issue (concat (map page_issues rs)) ->
        exists r it, In r rs /\ In it (data r) /\ pull_request it = false
                     /\ issue = item_issue it).
Proof.
  intros Hne Hs. unfold fetchApprovedIssues. split; [|split].
  - intros Hf. now rewrite (fetch_from_serves rs 1%N [] fuel Hne Hs Hf).
  - intros Hf. now apply (fetch_from_short rs).
  - intros issue Hin. apply in_concat in Hin as (l & Hl & Hin).
    apply in_map_iff in Hl as (r & <- & Hr).
    unfold page_issues in Hin. apply in_map_iff in Hin as (it & <- & Hit).
    apply filter_In in Hit as [Hit Hpr].
    exists r, it. repeat split; try assumption. now destruct (pull_request it).
Qed.

(** A response whose status is not ok, or a request that is rejected, ends
    the fetch with an error: the issues of the pages before are not
    returned. *)
Theorem fetch_fails_on_bad_page (rs : list Response) (fuel : nat) :
  (forall i r, rs !! i = Some r ->
     respond (1 + N.of_nat i)%N = inr r /\ ok r = true /\ has_next r = true) ->
  (length rs < fuel)%nat ->
  (forall bad, respond (1 + N.of_nat (length rs))%N = inr bad -> ok bad = false ->
     fetchApprovedIssues respond fuel
     = Some (inl ("GitHub API error " +:+ Js.of_N (status bad) +:+ ": " +:+ text bad)))
  /\ (forall message, respond (1 + N.of_nat (length rs))%N = inl message ->
        fetchApprovedIssues respond fuel = Some (inl message)).
Proof.
  unfold fetchApprovedIssues. generalize 1%N as page. generalize (@nil Issue) as issues.
  revert fuel. induction rs as [|r rs IH]; intros fuel issues page Hs Hf.
  - destruct fuel as [|fuel]; [simpl in Hf; lia|]. simpl. rewrite N.add_0_r.
    split.
    + intros bad -> ->. reflexivity.
    + intros message ->. reflexivity.
  - destruct fuel as [|fuel]; [simpl in Hf; lia|].
    destruct (Hs 0%nat r eq_refl) as (H1 & H2 & H3).
    rewrite N.add_0_r in H1. simpl fetch_from. rewrite H1, H2, H3. simpl negb. cbv iota.
    assert (Hs' : forall i r', rs !! i = Some r' ->
              respond (page + 1 + N.of_nat i)%N = inr r' /\ ok r' = true /\ has_next r' = true).
    { intros i r' Hi. destruct (Hs (S i) r' Hi) as (E1 & E2 & E3).
      split; [|auto]. rewrite <- E1. f_equal. lia. }
    specialize (IH fuel (issues ++ page_issues r) (page + 1)%N Hs' ltac:(simpl in Hf; lia)).
    replace (page + N.of_nat (length (r :: rs)))%N
      with (page + 1 + N.of_nat (length rs))%N by (simpl length; lia).
    exact IH.
Qed.

(** The fetch has no limit of its own: as long as every page announces a
    next one, it goes on asking. *)
Theorem fetch_has_no_page_limit (fuel : nat) :
  (forall page, exists r, respond page = inr r /\ ok r = true /\ has_next r = true) ->
  fetchApprovedIssues respond fuel = None.
Proof.
  intros H. unfold fetchApprovedIssues. generalize 1%N as page, (@nil Issue) as issues.
  induction fuel as [|fuel IH]; intros page issues; [reflexivity|].
  destruct (H page) as (r & H1 & H2 & H3). simpl. rewrite H1, H2, H3. simpl. apply IH.
Qed.

End FetchFacts.

Lemma fetch_collects_pages_witness :
  fetchApprovedIssues SampleTracker.two_pages 5
  = Some (inr [Sample.issue 7 "https://example.com/a" "2024-12-31" "2024-01-02T00:00:00Z";
               Sample.issue 9 "https://example.com/c" "2024-12-31" "2024-01-04T00:00:00Z"]).
Proof.
  refine (proj1 (fetch_collects_pages SampleTracker.two_pages
                   [SampleTracker.page1; SampleTracker.page2] 5 _ _) _).
  - discriminate.
  - intros [|[|i]] r Hi; simpl in Hi; try discriminate; injection Hi as <-;
      repeat split; vm_compute; reflexivity.
  - simpl. lia.
Defined.

Lemma fetch_fails_on_bad_page_witness :
  fetchApprovedIssues SampleTracker.refusing 5
  = Some (inl "GitHub API error 403: rate limit exceeded").
Proof.
  refine (proj1 (fetch_fails_on_bad_page SampleTracker.refusing [SampleTracker.page1] 5 _ _)
            SampleTracker.forbidden _ _).
  - intros [|i] r Hi; simpl in Hi; try discriminate; injection Hi as <-;
      repeat split; vm_compute; reflexivity.
  - simpl. lia.
  - reflexivity.
  - reflexivity.
Defined.

Lemma fetch_has_no_page_limit_witness :
  fetchApprovedIssues SampleTracker.endless 1000 = None.
Proof.
  apply (fetch_has_no_page_limit SampleTracker.endless 1000).
  intros page. exists SampleTracker.page1. repeat split; vm_compute; reflexivity.
Defined.

(** ** More on the run *)

Section RunFacts.

Variable url_protocol : string -> option string.
Variable parse_timestamp : string -> option string.
Variable todayUtc : string.
Variable localeCompare : string -> string -> Z.
Variable stringify : list Job -> string.
Variable schema_errors : list Job -> option (list (string * string)).

Local Abbreviation buildJobs' := (buildJobs url_protocol parse_timestamp todayUtc).
Local Abbreviation main' :=
  (main url_protocol parse_timestamp todayUtc localeCompare stringify schema_errors).
Local Abbreviation sort_jobs' := (sort_jobs localeCompare).


End RunFacts.


(** ** More on the order of the feed *)

Section OrderFacts.
Context {A : Type} (comparefn : A -> A -> Z).

Lemma sort_of_sorted (l : list A) :
  StronglySorted (fun a b => comparefn a b <= 0) l -> sort comparefn l = l.
Proof.
  induction 1 as [|x l Hs IH Hx]; [reflexivity|].
  simpl. rewrite IH. destruct l as [|y l]; [reflexivity|].
  simpl. inversion Hx as [|? ? Hxy _]; subst.
  now rewrite (proj2 (Z.leb_le _ _) Hxy).
Qed.

(** Two sorted arrangements of the same elements are equal when no two
    different elements compare equal. *)
Lemma sorted_perm_unique (l1 l2 : list A) :
  (forall a b, In a l1 -> In b l1 -> comparefn a b <= 0 -> comparefn b a <= 0 -> a = b) ->
  StronglySorted (fun a b => comparefn a b <= 0) l1 ->
  StronglySorted (fun a b => comparefn a b <= 0) l2 ->
  Permutation l1 l2 -> l1 = l2.
Proof.
  revert l2. induction l1 as [|x l1 IH]; intros l2 Hanti H1 H2 Hp.
  - apply Permutation_nil in Hp. now subst.
  - destruct l2 as [|y l2]; [apply Permutation_sym, Permutation_nil in Hp; discriminate|].
    inversion H1 as [|? ? H1' Hx]; subst. inversion H2 as [|? ? H2' Hy]; subst.
    assert (Exy : x = y).
    { assert (Hyin : In y (x :: l1)).
      { apply (Permutation_in _ (Permutation_sym Hp)). now left. }
      assert (Hxin : In x (y :: l2)).
      { apply (Permutation_in _ Hp). now left. }
      destruct Hyin as [E | Hyin]; [exact E|].
      destruct Hxin as [E | Hxin]; [now symmetry|].
      rewrite List.Forall_forall in Hx, Hy.
      apply Hanti; [now left | now right | now apply Hx | now apply Hy]. }
    subst y. f_equal. apply IH; [|exact H1'|exact H2'|].
    + intros a b Ha Hb. apply Hanti; now right.
    + now apply Permutation_cons_inv in Hp.
Qed.

End OrderFacts.

Section FeedOrder.

Variable localeCompare : string -> string -> Z.
Hypothesis localeCompare_sgn :
  forall a b, Z.sgn (localeCompare a b) = - Z.sgn (localeCompare b a).
Hypothesis localeCompare_trans :
  forall a b c, localeCompare a b <= 0 -> localeCompare b c <= 0 -> localeCompare a c <= 0.

Local Abbreviation sort_jobs' := (sort_jobs localeCompare).

Lemma sort_jobs_sorted (js : list Job) :
  StronglySorted (fun a b => localeCompare (updatedAt b) (updatedAt a) <= 0) (sort_jobs' js).
Proof.
  unfold sort_jobs.
  apply (sort_sorted (fun a b : Job => localeCompare (updatedAt b) (updatedAt a))).
  - intros a b. apply localeCompare_sgn.
  - intros a b c H1 H2. eapply localeCompare_trans; eassumption.
Qed.

(** For a comparison that is a consistent order: sorting a sorted feed
    changes nothing; and when no two different records of the batch compare
    equal, the sorted feed does not depend on the order in which the records
    came. *)
Theorem feed_order_is_canonical (js js' : list Job) :
  sort_jobs' (sort_jobs' js) = sort_jobs' js
  /\ (Permutation js js' ->
      (forall a b, In a js -> In b js ->
                   localeCompare (updatedAt a) (updatedAt b) = 0 -> a = b) ->
      sort_jobs' js = sort_jobs' js').
Proof.
  split.
  - apply sort_of_sorted, sort_jobs_sorted.
  - intros Hp Hties.
    apply (sorted_perm_unique (fun a b : Job => localeCompare (updatedAt b) (updatedAt a)));
      try apply sort_jobs_sorted.
    + intros a b Ha Hb H1 H2.
      apply Hties.
      * eapply Permutation_in; [apply sort_perm | exact Ha].
      * eapply Permutation_in; [apply sort_perm | exact Hb].
      * pose proof (localeCompare_sgn (updatedAt a) (updatedAt b)). lia.
    + unfold sort_jobs. rewrite !sort_perm. exact Hp.
Qed.

End FeedOrder.

Lemma feed_order_is_canonical_witness :
  sort_jobs Sample.localeCompare
    [Sample.job_at 1 "2024-01-02T00:00:00.000Z"; Sample.job_at 2 "2024-01-03T00:00:00.000Z"]
  = sort_jobs Sample.localeCompare
      [Sample.job_at 2 "2024-01-03T00:00:00.000Z"; Sample.job_at 1 "2024-01-02T00:00:00.000Z"].
Proof.
  refine (proj2 (feed_order_is_canonical Sample.localeCompare sample_localeCompare_sgn
                   sample_localeCompare_trans _ _) _ _).
  - apply perm_swap.
  - intros a b [<- | [<- | []]] [<- | [<- | []]] H; try reflexivity;
      vm_compute in H; discriminate.
Defined.

(** ** More on the tags *)

Lemma rawItems_item (value t : string) :
  In t (rawItems value) ->
  t <> "" /\ Js.trim t = t /\ ~ In ","%char (Js.explode t).
Proof.
  unfold rawItems. rewrite filter_In. intros [Hin Hne].
  apply in_map_iff in Hin as (piece & <- & Hp).
  split; [|split].
  - intros E. rewrite E in Hne. discriminate.
  - apply trim_idem.
  - pose proof (split_no_sep ","%char value) as Hall.
    rewrite List.Forall_forall in Hall. specialize (Hall piece Hp).
    intros Hin. apply Hall. unfold Js.trim in Hin. rewrite explode_implode in Hin.
    destruct (trim_chars_occurs (Js.explode piece)) as (a & b & ->).
    apply in_or_app. right. apply in_or_app. now left.
Qed.

Lemma dedupe_from_distinct (items : list string) (seen : gset string) :
  NoDup (map Js.toLowerCase items) ->
  (forall x, In x items -> Js.toLowerCase x ∉ seen) ->
  dedupe_from seen items = items.
Proof.
  revert seen. induction items as [|x items IH]; intros seen Hnd Hs; [reflexivity|].
  simpl. simpl in Hnd. apply NoDup_cons in Hnd as [Hx Hnd].
  destruct (decide (Js.toLowerCase x ∈ seen)) as [Hin | _].
  - exfalso. apply (Hs x); [now left | exact Hin].
  - f_equal. apply IH; [exact Hnd|].
    intros y Hy. apply not_elem_of_union. split; [|apply Hs; now right].
    intros E%elem_of_singleton. apply Hx. rewrite <- E.
    apply list_elem_of_In, in_map. exact Hy.
Qed.

Lemma filter_all {A} (p : A -> bool) (l : list A) :
  (forall x, In x l -> p x = true) -> List.filter p l = l.
Proof.
  induction l as [|x l IH]; intros H; [reflexivity|].
  simpl. rewrite (H x) by now left. f_equal. apply IH. intros y Hy. apply H. now right.
Qed.

(** The tags [parseTags] returns, written as a list with commas and parsed
    again, are the same tags, with no error. *)
Theorem parseTags_round_trip (value : string) (es : list string) :
  value <> "" ->
  (parseTags (Some value) es).1 <> [] ->
  parseTags (Some (Js.join "," (parseTags (Some value) es).1)) []
  = ((parseTags (Some value) es).1, []).
Proof.
  intros Hne.
  assert (Htags : (parseTags (Some value) es).1 = dedupe_from ∅ (rawItems value)).
  { unfold parseTags. rewrite (missing_Some _ Hne). simpl default.
    rewrite dedupe_tags_from. unfold bind. now destruct (Nat.eqb _ 0). }
  rewrite Htags. set (tags := dedupe_from ∅ (rawItems value)). intros Hnil.
  assert (Hitem : forall t, In t tags ->
            t <> "" /\ Js.trim t = t /\ ~ In ","%char (Js.explode t)).
  { intros t Ht. apply (rawItems_item value).
    apply list_elem_of_In. eapply elem_of_sublist; [|apply dedupe_from_sublist].
    apply list_elem_of_In. exact Ht. }
  assert (Hsplit : Js.split ","%char (Js.join "," tags) = tags).
  { apply split_of_join; [exact Hnil|]. apply List.Forall_forall.
    intros t Ht. now apply Hitem. }
  assert (Hraw : rawItems (Js.join "," tags) = tags).
  { unfold rawItems. rewrite Hsplit.
    assert (Hm : map Js.trim tags = tags).
    { rewrite <- (map_id tags) at 2. apply map_ext_in. intros t Ht. now apply Hitem. }
    rewrite Hm. apply filter_all. intros t Ht.
    destruct (Hitem t Ht) as [Hn _]. now apply negb_true_iff, String.eqb_neq. }
  assert (Hj : Js.join "," tags <> "").
  { destruct tags as [|t ts] eqn:E; [congruence|].
    destruct (Hitem t ltac:(now left)) as [Hn _].
    destruct ts as [|t' ts]; [exact Hn|].
    rewrite join_cons2. intros E'. apply (f_equal Js.explode) in E'.
    rewrite explode_app in E'. apply app_eq_nil in E' as [E' _].
    apply Hn. now apply explode_nil. }
  unfold parseTags. rewrite (missing_Some _ Hj). simpl default.
  rewrite dedupe_tags_from, Hraw.
  rewrite (dedupe_from_distinct tags ∅); [| apply dedupe_from_NoDup | set_solver].
  unfold bind, push, ret. destruct tags; [congruence | reflexivity].
Qed.

Lemma parseTags_round_trip_witness :
  parseTags (Some (Js.join "," (parseTags (Some " Blazor , blazor,, C# ") ["earlier"]).1)) []
  = ((parseTags (Some " Blazor , blazor,, C# ") ["earlier"]).1, []).
Proof.
  apply (parseTags_round_trip " Blazor , blazor,, C# " ["earlier"]).
  - discriminate.
  - vm_compute. discriminate.
Defined.

(** ** The calendar of the expiry date *)

Ltac div_lia := Z.to_euclidean_division_equations; lia.

(* the year of a day of the era, and the day of that year *)
Lemma year_of_era_day (doe : Z) :
  0 <= doe <= 146096 ->
  let yoe := (doe - doe / 1460 + doe / 36524 - doe / 146096) / 365 in
  let doy := doe - (365 * yoe + yoe / 4 - yoe / 100) in
  0 <= yoe <= 399 /\ 0 <= doy <= 365
  /\ (doy = 365 -> (yoe + 1) mod 4 = 0 /\ ((yoe + 1) mod 100 <> 0 \/ yoe = 399)).
Proof.
  intros H yoe doy. subst doy yoe.
  assert (doe / 36524 = 0 \/ doe / 36524 = 1 \/ doe / 36524 = 2 \/ doe / 36524 = 3 \/ doe / 36524 = 4) by div_lia.
  div_lia.
Qed.

Lemma era_day_of_year (yoe doy : Z) :
  0 <= yoe <= 399 -> 0 <= doy <= 365 ->
  (doy = 365 -> (yoe + 1) mod 4 = 0 /\ ((yoe + 1) mod 100 <> 0 \/ yoe = 399)) ->
  let doe := yoe * 365 + yoe / 4 - yoe / 100 + doy in
  0 <= doe <= 146096
  /\ (doe - doe / 1460 + doe / 36524 - doe / 146096) / 365 = yoe.
Proof.
  intros Hy Hd Hl doe. subst doe.
  assert (yoe / 100 = 0 \/ yoe / 100 = 1 \/ yoe / 100 = 2 \/ yoe / 100 = 3) by div_lia.
  div_lia.
Qed.

Lemma month_of_year_day (doy : Z) :
  0 <= doy <= 365 ->
  let mp := (5 * doy + 2) / 153 in
  let d := doy - (153 * mp + 2) / 5 + 1 in
  0 <= mp <= 11 /\ 1 <= d <= 31
  /\ (mp = 1 \/ mp = 3 \/ mp = 6 \/ mp = 8 -> d <= 30)
  /\ (mp = 11 -> d <= 29 /\ (d = 29 -> doy = 365))
  /\ (153 * mp + 2) / 5 + d - 1 = doy.
Proof.
  intros H mp d. subst d mp.
  assert (0 <= (5 * doy + 2) / 153 <= 11) by div_lia.
  div_lia.
Qed.

Lemma year_day_of_month (mp d : Z) :
  0 <= mp <= 11 -> 1 <= d <= 31 ->
  (mp = 1 \/ mp = 3 \/ mp = 6 \/ mp = 8 -> d <= 30) ->
  (mp = 11 -> d <= 29) ->
  let doy := (153 * mp + 2) / 5 + d - 1 in
  0 <= doy <= 365 /\ (5 * doy + 2) / 153 = mp /\ (doy = 365 -> mp = 11 /\ d = 29).
Proof.
  intros Hm Hd H30 H29 doy. subst doy.
  assert (mp = 0 \/ mp = 1 \/ mp = 2 \/ mp = 3 \/ mp = 4 \/ mp = 5 \/ mp = 6 \/ mp = 7
          \/ mp = 8 \/ mp = 9 \/ mp = 10 \/ mp = 11) by lia.
  div_lia.
Qed.

Lemma leap_year_spec (y : Z) :
  leap_year y = true <-> y mod 4 = 0 /\ (y mod 100 <> 0 \/ y mod 400 = 0).
Proof.
  unfold leap_year. rewrite andb_true_iff, orb_true_iff, negb_true_iff.
  rewrite !Z.eqb_eq, Z.eqb_neq. tauto.
Qed.

Lemma days_in_month_cases (y m : Z) :
  1 <= m <= 12 ->
  (m = 2 /\ leap_year y = true /\ days_in_month y m = 29)
  \/ (m = 2 /\ leap_year y = false /\ days_in_month y m = 28)
  \/ ((m = 4 \/ m = 6 \/ m = 9 \/ m = 11) /\ days_in_month y m = 30)
  \/ ((m = 1 \/ m = 3 \/ m = 5 \/ m = 7 \/ m = 8 \/ m = 10 \/ m = 12)
      /\ days_in_month y m = 31).
Proof.
  intros H. unfold days_in_month.
  destruct (Z.eqb_spec m 2); [destruct (leap_year y); auto|].
  destruct (Z.eqb_spec m 4); [right; right; left; split; [lia | reflexivity]|].
  destruct (Z.eqb_spec m 6); [right; right; left; split; [lia | reflexivity]|].
  destruct (Z.eqb_spec m 9); [right; right; left; split; [lia | reflexivity]|].
  destruct (Z.eqb_spec m 11); [right; right; left; split; [lia | reflexivity]|].
  right. right. right. split; [lia | reflexivity].
Qed.

Lemma leap_year_shift (yoe era : Z) :
  0 <= yoe <= 399 -> (yoe + 1) mod 4 = 0 -> ((yoe + 1) mod 100 <> 0 \/ yoe = 399) ->
  leap_year (yoe + 1 + era * 400) = true.
Proof. intros Hy H4 H100. apply leap_year_spec. div_lia. Qed.

(** every day number is the day number of its date, and its date is real *)
Lemma civil_from_days_real (z y m d : Z) :
  Calendar.civil_from_days z = (y, m, d) ->
  1 <= m <= 12 /\ 1 <= d <= days_in_month y m /\ Calendar.days_from_civil y m d = z.
Proof.
  unfold Calendar.civil_from_days.
  set (z' := z + 719468). set (era := z' / 146097). set (doe := z' - era * 146097).
  assert (Hdoe : 0 <= doe <= 146096) by (subst doe era; div_lia).
  destruct (year_of_era_day doe Hdoe) as (Hy & Hd & Hl).
  set (yoe := (doe - doe / 1460 + doe / 36524 - doe / 146096) / 365) in *.
  set (doy := doe - (365 * yoe + yoe / 4 - yoe / 100)) in *.
  destruct (month_of_year_day doy Hd) as (Hm & Hdd & H30 & H29 & Hback).
  set (mp := (5 * doy + 2) / 153) in *.
  set (dd := doy - (153 * mp + 2) / 5 + 1) in *.
  intros E. injection E as Ey Em Ed. subst d.
  assert (Hcase : (mp < 10 /\ m = mp + 3) \/ (10 <= mp /\ m = mp - 9)).
  { subst m. destruct (Z.ltb_spec mp 10); lia. }
  assert (Hm12 : 1 <= m <= 12) by lia.
  assert (Hmp : (if 2 <? m then m - 3 else m + 9) = mp).
  { destruct (Z.ltb_spec 2 m); lia. }
  assert (Hyear : (if m <=? 2 then y - 1 else y) = yoe + era * 400).
  { rewrite Em in Ey. destruct (Z.leb_spec m 2); lia. }
  split; [exact Hm12|]. split.
  - split; [lia|].
    destruct (days_in_month_cases y m Hm12) as [(E2 & Hleap & ->) | [(E2 & Hleap & ->)
      | [(E30 & ->) | (E31 & ->)]]]; try lia.
    + assert (mp = 11) by lia. destruct (H29 ltac:(assumption)) as [Hle Hfull].
      destruct (Z.eq_dec dd 29) as [E29 | Hne]; [|lia]. exfalso.
      destruct (Hl (Hfull E29)) as [H4 H100].
      assert (Hy1 : y = yoe + 1 + era * 400) by (destruct (Z.leb_spec m 2); lia).
      assert (Hlp : leap_year y = true).
      { rewrite Hy1. now apply leap_year_shift. }
      congruence.
  - unfold Calendar.days_from_civil. rewrite Hyear, Hmp.
    assert (Hera : (yoe + era * 400) / 400 = era) by (clear - Hy; div_lia).
    rewrite Hera. replace (yoe + era * 400 - era * 400) with yoe by lia.
    fold dd in Hback. subst doy doe z'. lia.
Qed.

Lemma leap_year_unshift (yoe era : Z) :
  0 <= yoe <= 399 -> leap_year (yoe + 1 + era * 400) = true ->
  (yoe + 1) mod 4 = 0 /\ ((yoe + 1) mod 100 <> 0 \/ yoe = 399).
Proof. intros Hy H. apply leap_year_spec in H. div_lia. Qed.

(** the date of the day number of a real date is that date *)
Lemma civil_from_days_of_date (y m d : Z) :
  1 <= m <= 12 -> 1 <= d <= days_in_month y m ->
  Calendar.civil_from_days (Calendar.days_from_civil y m d) = (y, m, d).
Proof.
  intros Hm Hd. unfold Calendar.days_from_civil.
  set (y' := if m <=? 2 then y - 1 else y).
  set (era := y' / 400). set (yoe := y' - era * 400).
  set (mp := if 2 <? m then m - 3 else m + 9).
  assert (Hy : 0 <= yoe <= 399) by (subst yoe era; div_lia).
  assert (Hcase : (m <= 2 /\ mp = m + 9 /\ y' = y - 1) \/ (2 < m /\ mp = m - 3 /\ y' = y)).
  { subst mp y'. destruct (Z.ltb_spec 2 m), (Z.leb_spec m 2); lia. }
  assert (Hmp : 0 <= mp <= 11) by lia.
  assert (Hlen : 1 <= d <= 31 /\ (mp = 1 \/ mp = 3 \/ mp = 6 \/ mp = 8 -> d <= 30)
                 /\ (mp = 11 -> d <= 29 /\ (d = 29 -> leap_year y = true))).
  { destruct (days_in_month_cases y m Hm) as [(E2 & Hleap & E) | [(E2 & Hleap & E)
      | [(E30 & E) | (E31 & E)]]]; rewrite E in Hd; repeat split; try lia; auto. }
  destruct Hlen as (Hd31 & H30 & H29).
  destruct (year_day_of_month mp d Hmp Hd31 H30 (fun E => proj1 (H29 E)))
    as (Hdoy & Hmpback & Hfull).
  set (doy := (153 * mp + 2) / 5 + d - 1) in *.
  assert (Hl : doy = 365 -> (yoe + 1) mod 4 = 0 /\ ((yoe + 1) mod 100 <> 0 \/ yoe = 399)).
  { intros E. destruct (Hfull E) as [E11 E29].
    apply (leap_year_unshift yoe era Hy).
    replace (yoe + 1 + era * 400) with y by (subst yoe; lia).
    now apply H29. }
  destruct (era_day_of_year yoe doy Hy Hdoy Hl) as (Hdoe & Hyoe).
  set (doe := yoe * 365 + yoe / 4 - yoe / 100 + doy) in *.
  unfold Calendar.civil_from_days.
  replace (era * 146097 + doe - 719468 + 719468) with (era * 146097 + doe) by lia.
  assert (Hera : (era * 146097 + doe) / 146097 = era) by (clear - Hdoe; div_lia).
  rewrite Hera. replace (era * 146097 + doe - era * 146097) with doe by lia.
  rewrite Hyoe.
  replace (doe - (365 * yoe + yoe / 4 - yoe / 100)) with doy by (subst doe; lia).
  rewrite Hmpback.
  replace (doy - (153 * mp + 2) / 5 + 1) with d by (subst doy; lia).
  assert (Em : (if mp <? 10 then mp + 3 else mp - 9) = m).
  { destruct (Z.ltb_spec mp 10); lia. }
  rewrite Em. do 2 f_equal.
  destruct (Z.leb_spec m 2); subst yoe; lia.
Qed.

Lemma days_from_civil_day (y m d : Z) :
  Calendar.days_from_civil y m d = Calendar.days_from_civil y m 1 + d - 1.
Proof. unfold Calendar.days_from_civil. lia. Qed.

Lemma days_from_civil_bound (y m : Z) :
  0 <= y <= 11000 -> 1 <= m <= 12 ->
  -720000 <= Calendar.days_from_civil y m 1 <= 4000000.
Proof.
  intros Hy Hm. unfold Calendar.days_from_civil.
  destruct (Z.leb_spec m 2), (Z.ltb_spec 2 m); try lia; div_lia.
Qed.

Lemma days_from_civil_shift (y m d : Z) :
  1 <= m <= 12 ->
  Calendar.days_from_civil (1900 + y) m d <> Calendar.days_from_civil y m d.
Proof.
  intros Hm. unfold Calendar.days_from_civil.
  destruct (Z.leb_spec m 2); div_lia.
Qed.

Lemma date_parts_bounds (v : string) :
  date_regex v = true ->
  0 <= (date_parts v).1.1 <= 9999 /\ 0 <= (date_parts v).1.2 <= 99
  /\ 0 <= (date_parts v).2 <= 99.
Proof.
  intros H.
  destruct (date_regex_shape v H) as (y1 & y2 & y3 & y4 & m1 & m2 & d1 & d2 & -> & D).
  rewrite (date_parts_shape _ _ _ _ _ _ _ _ D).
  repeat match goal with
         | H : Forall _ (_ :: _) |- _ => inversion H; clear H; subst
         | H : Js.is_digit _ = true |- _ => apply digit_bounds in H
         end.
  simpl. lia.
Qed.

(** The check of the calendar in [parseExpiryDate], on integers in the
    range of the pattern. *)
Lemma calendar_check (y m d : Z) :
  0 <= y <= 9999 -> 0 <= m <= 99 -> 0 <= d <= 99 ->
  (match Calendar.UTC y (m - 1) d with
   | None => false
   | Some t =>
       (Calendar.getUTCFullYear t =? y) && (Calendar.getUTCMonth t =? m - 1)
       && (Calendar.getUTCDate t =? d)
   end = true)
  <-> 100 <= y /\ 1 <= m <= 12 /\ 1 <= d <= days_in_month y m.
Proof.
  intros Hy Hm Hd. unfold Calendar.UTC.
  set (yr := if (0 <=? y) && (y <=? 99) then 1900 + y else y).
  assert (Hyr : (y <= 99 /\ yr = 1900 + y) \/ (100 <= y /\ yr = y)).
  { subst yr. destruct (Z.leb_spec 0 y), (Z.leb_spec y 99); simpl; lia. }
  set (Y := yr + (m - 1) / 12). set (M := (m - 1) mod 12 + 1).
  assert (HM : 1 <= M <= 12) by (subst M; div_lia).
  assert (HY : 0 <= Y <= 11000) by (subst Y; div_lia).
  pose proof (days_from_civil_bound Y M HY HM) as Hb.
  set (t := Calendar.days_from_civil Y M 1 + d - 1) in *.
  assert (Habs : (Z.abs t <=? 100000000) = true) by (apply Z.leb_le; lia).
  rewrite Habs.
  unfold Calendar.getUTCFullYear, Calendar.getUTCMonth, Calendar.getUTCDate.
  destruct (Calendar.civil_from_days t) as [[y' m'] d'] eqn:Ec. simpl.
  rewrite !andb_true_iff, !Z.eqb_eq.
  destruct (civil_from_days_real t y' m' d' Ec) as (Hm' & Hd' & Hback).
  split.
  - intros [[-> Em] ->]. assert (m' = m) by lia. subst m'.
    assert (HMm : M = m /\ Y = yr) by (subst M Y; div_lia).
    destruct HMm as [EM EY].
    destruct Hyr as [[Hlow Eyr] | [Hhigh Eyr]]; [exfalso | now auto].
    apply (days_from_civil_shift y m d Hm').
    rewrite Hback, (days_from_civil_day (1900 + y) m d).
    subst t. now rewrite EM, EY, Eyr.
  - intros (Hhigh & Hm12 & Hdim).
    assert (HMm : M = m /\ Y = y) by (subst M Y; div_lia).
    destruct HMm as [EM EY].
    assert (Et : t = Calendar.days_from_civil y m d).
    { subst t. now rewrite EM, EY, (days_from_civil_day y m d). }
    rewrite Et, (civil_from_days_of_date y m d Hm12 Hdim) in Ec.
    injection Ec as <- <- <-. repeat split; lia.
Qed.

(** A text of the form YYYY-MM-DD is accepted as an expiry date, and
    returned as it is, exactly when its month is from 1 to 12, its day is a
    day of that month in that year of the Gregorian calendar, and its year is
    100 or later: the years 0000 to 0099 are refused, because [Date.UTC]
    reads them as 1900 to 1999. Otherwise the error is that the date must be
    a valid calendar date. *)
Theorem parseExpiryDate_accepts_real_dates (v : string) (es : list string) :
  date_regex v = true ->
  let y := (date_parts v).1.1 in
  let m := (date_parts v).1.2 in
  let d := (date_parts v).2 in
  (100 <= y /\ 1 <= m <= 12 /\ 1 <= d <= days_in_month y m ->
   parseExpiryDate (Some v) es = (Some v, es))
  /\ (~ (100 <= y /\ 1 <= m <= 12 /\ 1 <= d <= days_in_month y m) ->
      parseExpiryDate (Some v) es
      = (None, es ++ ["Expiry date must be a valid calendar date"])).
Proof.
  intros Hre y m d.
  destruct (date_parts_bounds v Hre) as (Hy & Hm & Hd).
  pose proof (calendar_check y m d Hy Hm Hd) as Hc.
  assert (Hne : v <> "") by (intros ->; discriminate).
  unfold parseExpiryDate. rewrite (missing_Some _ Hne).
  change (default "" (Some v)) with v.
  rewrite Hre. change (negb true) with false. cbv iota.
  destruct (date_parts v) as [[y0 m0] d0] eqn:Ep. simpl in y, m, d. subst y m d.
  match goal with
  | |- context [negb ?b] => destruct b eqn:Eb
  end; simpl negb; cbv iota.
  - split; [reflexivity|]. intros Hn. exfalso. apply Hn, Hc. reflexivity.
  - split; [|reflexivity]. intros Hv. apply Hc in Hv. discriminate.
Qed.

Lemma parseExpiryDate_accepts_real_dates_witness :
  parseExpiryDate (Some "2024-02-29") ["earlier"] = (Some "2024-02-29", ["earlier"])
  /\ parseExpiryDate (Some "0024-02-29") []
     = (None, ["Expiry date must be a valid calendar date"]).
Proof.
  split.
  - apply (proj1 (parseExpiryDate_accepts_real_dates "2024-02-29" ["earlier"] eq_refl)).
    vm_compute. intuition discriminate.
  - apply (proj2 (parseExpiryDate_accepts_real_dates "0024-02-29" [] eq_refl)).
    vm_compute. intros (H & _). now apply H.
Defined.

Lemma parseExpiryDate_real (value : option string) :
  errors_of (parseExpiryDate value) = [] ->
  exists e, value = Some e /\ date_regex e = true
            /\ 100 <= (date_parts e).1.1
            /\ 1 <= (date_parts e).1.2 <= 12
            /\ 1 <= (date_parts e).2 <= days_in_month (date_parts e).1.1 (date_parts e).1.2.
Proof.
  intros H. destruct (parseExpiryDate_ok value H) as (e & _ & -> & Hre).
  exists e. split; [reflexivity|]. split; [exact Hre|].
  destruct (date_parts_bounds e Hre) as (Hy & Hm & Hd).
  apply (calendar_check _ _ _ Hy Hm Hd).
  assert (Hne : e <> "") by (intros ->; discriminate).
  revert H. unfold parseExpiryDate. rewrite (missing_Some _ Hne).
  change (default "" (Some e)) with e. rewrite Hre. change (negb true) with false.
  cbv iota. destruct (date_parts e) as [[y m] d]. simpl.
  match goal with
  | |- context [negb ?b] => destruct b
  end; [reflexivity | discriminate].
Qed.

(** The expiry date of every record of the feed is a day of the Gregorian
    calendar, in a year from 100 on: a date such as 2024-02-30 never
    reaches the feed. *)
Theorem feed_expiry_dates_real
    (url_protocol parse_timestamp : string -> option string) (todayUtc : string)
    (issues : list Issue) (job : Job) :
  In job (jobs (buildJobs url_protocol parse_timestamp todayUtc issues)) ->
  let y := (date_parts (expiryDate job)).1.1 in
  let m := (date_parts (expiryDate job)).1.2 in
  let d := (date_parts (expiryDate job)).2 in
  date_regex (expiryDate job) = true
  /\ 100 <= y /\ 1 <= m <= 12 /\ 1 <= d <= days_in_month y m.
Proof.
  destruct (buildJobs_parts url_protocol parse_timestamp todayUtc issues) as (-> & _ & _).
  rewrite filter_In. intros [Hin _].
  unfold valid_records in Hin. apply list_elem_of_In, list_elem_of_omap in Hin.
  destruct Hin as (issue & _ & Hr). unfold issue_record in Hr.
  destruct (fails url_protocol parse_timestamp issue) eqn:Ef; [discriminate|].
  pose proof (fails_false _ _ _ Ef) as He.
  destruct (validate_defined url_protocol parse_timestamp issue _ He)
    as (job' & Hj & Hf & _ & _).
  rewrite Hj in Hr. injection Hr as <-.
  unfold issue_errors in He. rewrite validate_errors in He.
  do 9 (apply app_eq_nil in He as [_ He]). apply app_eq_nil in He as [He _].
  destruct (parseExpiryDate_real _ He) as (e & Hfe & Hre & Hreal).
  rewrite Hf in Hfe. injection Hfe as <-. cbv zeta. auto.
Qed.

Lemma feed_expiry_dates_real_witness :
  let job := mkJob 7 "2024-01-01T00:00:00.000Z" "2024-01-02T00:00:00.000Z"
               "Blazor developer" "Acme" "Berlin" true "Full-time" "Senior"
               ["Blazor"; "C#"] "https://example.com/apply" "Build things." None
               "2024-12-31" in
  date_regex (expiryDate job) = true
  /\ 100 <= (date_parts (expiryDate job)).1.1
  /\ 1 <= (date_parts (expiryDate job)).1.2 <= 12
  /\ 1 <= (date_parts (expiryDate job)).2
     <= days_in_month (date_parts (expiryDate job)).1.1 (date_parts (expiryDate job)).1.2.
Proof.
  intros job.
  apply (feed_expiry_dates_real Sample.url_protocol Sample.parse_timestamp Sample.todayUtc
           [Sample.issue 7 "https://example.com/apply" "2024-12-31" "2024-01-02T00:00:00Z"]
           job).
  vm_compute. auto.
Defined.
